(** * Orca shader transpiler: a shallow embedding of
      Source/Renderer/ShaderTranspiler.{h,cpp} and its specification.

    The file has three parts.  Part I embeds the program: the pieces of
    the C++ standard library it calls ([std::string], [std::regex],
    [std::stoi], streams, [std::getenv], [std::system]) and then
    [ShaderTranspiler] itself, function by function.  Part II states and
    proves the properties of the converters and of the facade; Part III
    those of the helper functions and of the textual rewrites. *)

From Stdlib Require Import String Ascii List ZArith Lia Bool.
From stdpp Require Import base option strings.
Import ListNotations.

Local Open Scope string_scope.

(* ===================================================================== *)
(** * Part I.  The embedding                                              *)
(* ===================================================================== *)

(** ** Characters and strings ([<cctype>], [<string>]) *)

Module Cpp.

Definition LF  : ascii := "010"%char.   (* '\n' *)
Definition TAB : ascii := "009"%char.   (* '\t' *)
Definition VT  : ascii := "011"%char.   (* '\v' *)
Definition FF  : ascii := "012"%char.   (* '\f' *)
Definition CR  : ascii := "013"%char.   (* '\r' *)
Definition DQUOTE : ascii := "034"%char.

Definition nl : string := String LF EmptyString.
Definition tab : string := String TAB EmptyString.
Definition dquote : string := String DQUOTE EmptyString.

Definition code (c : ascii) : nat := nat_of_ascii c.

Definition between (lo hi : ascii) (c : ascii) : bool :=
  (code lo <=? code c)%nat && (code c <=? code hi)%nat.

(** The classifications of the "C" locale. *)
Definition isdigit (c : ascii) : bool := between "0" "9" c.
Definition isalpha (c : ascii) : bool := between "a" "z" c || between "A" "Z" c.
Definition isalnum (c : ascii) : bool := isalpha c || isdigit c.
Definition isspace (c : ascii) : bool :=
  Ascii.eqb c " " || Ascii.eqb c TAB || Ascii.eqb c LF
  || Ascii.eqb c VT || Ascii.eqb c FF || Ascii.eqb c CR.

(** [s.find(pat)]: the index of the first occurrence, [None] for
    [std::string::npos]. *)
Definition find (s pat : string) : option nat := String.index 0 pat s.

(** [r == std::string::npos] for the result of a [find]. *)
Definition npos (r : option nat) : bool :=
  match r with None => true | Some _ => false end.

(** [s.empty()] *)
Definition empty (s : string) : bool :=
  match s with EmptyString => true | String _ _ => false end.

(** *** [int] *)

Definition INT_MAX : Z := 2147483647.

(** [static_cast<int>(n)] for an unsigned [n]: reduction modulo 2^32 into
    the signed range. *)
Definition static_cast_int (n : Z) : Z :=
  ((n + 2^31) mod 2^32 - 2^31)%Z.

(** A pure computation that may leave by a C++ exception. *)
Inductive Exc (A : Type) : Type :=
| Ok (a : A)
| Raise (what : string).
Arguments Ok {A} a.
Arguments Raise {A} what.

Definition digit_value (c : ascii) : Z := Z.of_nat (code c - code "0").

(** The value of a string of decimal digits. *)
Fixpoint decimal_from (acc : Z) (s : string) : Z :=
  match s with
  | EmptyString => acc
  | String c s' => decimal_from (10 * acc + digit_value c)%Z s'
  end.
Definition decimal (s : string) : Z := decimal_from 0 s.

Fixpoint skip_spaces (s : string) : string :=
  match s with
  | String c s' => if isspace c then skip_spaces s' else s
  | EmptyString => s
  end.

(** The longest prefix of decimal digits. *)
Fixpoint leading_digits (s : string) : string :=
  match s with
  | String c s' => if isdigit c then String c (leading_digits s') else EmptyString
  | EmptyString => EmptyString
  end.

Definition INT_MIN : Z := (-2147483648)%Z.

(** [std::stoi(s)] (base 10, no position out-parameter): [strtol] skips
    leading white space, reads an optional sign and the digits that
    follow, and ignores what comes after them.  No digit at all raises
    [std::invalid_argument]; a value outside [int] raises
    [std::out_of_range]. *)
Definition stoi (s : string) : Exc Z :=
  let body := skip_spaces s in
  let '(negative, body) :=
    match body with
    | String "-" b => (true, b)
    | String "+" b => (false, b)
    | _ => (false, body)
    end in
  match leading_digits body with
  | EmptyString => Raise "invalid stoi argument"
  | ds =>
      let v := if negative then (- decimal ds)%Z else decimal ds in
      if ((INT_MIN <=? v) && (v <=? INT_MAX))%Z then Ok v
      else Raise "stoi argument out of range"
  end.

End Cpp.

(** ** Regular expressions ([<regex>], ECMAScript grammar)

    [std::regex] is a backtracking matcher: at every start position, from
    left to right, it explores the pattern in priority order (a greedy
    quantifier tries one more repetition first, a lazy one tries to stop
    first) and reports the first way that succeeds.  The patterns of
    ShaderTranspiler.cpp quantify single character classes only, which is
    what [Rep] covers. *)

Module Regex.
Import Cpp.

(** Character classes and bracket expressions. *)
Inductive charset : Type :=
| CsSpace                      (* \s *)
| CsDigit                      (* \d *)
| CsWord                       (* \w *)
| CsDot                        (* .  *)
| CsChar (c : ascii)           (* a literal member of a bracket expression *)
| CsUnion (a b : charset).     (* [ab] *)

Definition is_word (c : ascii) : bool := isalnum c || Ascii.eqb c "_".

Fixpoint in_charset (cs : charset) (c : ascii) : bool :=
  match cs with
  | CsSpace => isspace c
  | CsDigit => isdigit c
  | CsWord => is_word c
  | CsDot => negb (Ascii.eqb c LF || Ascii.eqb c CR)
  | CsChar d => Ascii.eqb c d
  | CsUnion a b => in_charset a c || in_charset b c
  end.

Inductive regex : Type :=
| Lit (s : string)                               (* literal characters *)
| Rep (greedy : bool) (atleast1 : bool) (cs : charset)
                                                 (* cs*  cs+  cs*?  cs+? *)
| WordBoundary                                   (* \b *)
| Group (i : nat) (r : regex)                    (* the i-th ( ... ) *)
| Seq (r1 r2 : regex).

(** Sub-matches: [(i, text)] for the groups that took part. *)
Definition captures : Type := list (nat * string).

Fixpoint sub (i : nat) (caps : captures) : string :=
  match caps with
  | [] => ""
  | (j, t) :: rest => if Nat.eqb i j then t else sub i rest
  end.

(** The text between two cursors: [s'] is a suffix of [s]. *)
Definition consumed (s s' : string) : string :=
  String.substring 0 (String.length s - String.length s') s.

(** [\b]: exactly one of the two neighbouring characters is a word
    character; a missing neighbour counts as a non-word character. *)
Definition at_word_boundary (prev : option ascii) (s : string) : bool :=
  let left := match prev with Some c => is_word c | None => false end in
  let right := match s with String c _ => is_word c | EmptyString => false end in
  xorb left right.

Section Exec.
(** What a successful attempt hands back. *)
Variable R : Type.

(** A continuation receives the character before the cursor and the
    rest of the subject. *)
Fixpoint lit (l : string) (k : option ascii -> string -> option R)
         (prev : option ascii) (s : string) : option R :=
  match l with
  | EmptyString => k prev s
  | String a l' =>
      match s with
      | String c s' => if Ascii.eqb a c then lit l' k (Some c) s' else None
      | EmptyString => None
      end
  end.

Fixpoint star (greedy : bool) (cs : charset)
         (k : option ascii -> string -> option R)
         (prev : option ascii) (s : string) : option R :=
  match s with
  | EmptyString => k prev s
  | String c s' =>
      if in_charset cs c then
        if greedy then
          match star greedy cs k (Some c) s' with
          | Some r => Some r
          | None => k prev s
          end
        else
          match k prev s with
          | Some r => Some r
          | None => star greedy cs k (Some c) s'
          end
      else k prev s
  end.

Fixpoint exec (r : regex)
         (k : captures -> option ascii -> string -> option R)
         (caps : captures) (prev : option ascii) (s : string) : option R :=
  match r with
  | Lit l => lit l (k caps) prev s
  | Rep greedy false cs => star greedy cs (k caps) prev s
  | Rep greedy true cs =>
      match s with
      | String c s' =>
          if in_charset cs c then star greedy cs (k caps) (Some c) s' else None
      | EmptyString => None
      end
  | WordBoundary => if at_word_boundary prev s then k caps prev s else None
  | Group i r' =>
      exec r' (fun caps' prev' s' => k ((i, consumed s s') :: caps') prev' s')
           caps prev s
  | Seq r1 r2 =>
      exec r1 (fun caps' prev' s' => exec r2 k caps' prev' s') caps prev s
  end.
End Exec.
Arguments lit {R}.
Arguments star {R}.
Arguments exec {R}.

(** [std::smatch] after a successful search. *)
Record smatch : Type := mk_smatch {
  m_prefix : string;          (* match.prefix() *)
  m_str    : string;          (* match[0] *)
  m_caps   : captures;        (* match[1], match[2], ... *)
  m_last   : option ascii;    (* the character before match.suffix() *)
  m_suffix : string           (* match.suffix() *)
}.

(** One attempt anchored at the cursor. *)
Definition match_here (re : regex) (prev : option ascii) (s : string)
  : option (captures * option ascii * string) :=
  exec re (fun caps p s' => Some (caps, p, s')) [] prev s.

(** [std::regex_search]: [pre] is the text already skipped, [prev] the
    character before the cursor when there is one. *)
Fixpoint search_from (re : regex) (pre : string) (prev : option ascii)
         (s : string) : option smatch :=
  match match_here re prev s with
  | Some (caps, p, s') =>
      Some (mk_smatch pre (consumed s s') caps p s')
  | None =>
      match s with
      | EmptyString => None
      | String c s' => search_from re (pre ++ String c EmptyString) (Some c) s'
      end
  end.

Definition regex_search (re : regex) (prev : option ascii) (s : string)
  : option smatch :=
  search_from re "" prev s.

(** Replacement formats: literal text and [$n]. *)
Inductive piece : Type :=
| Text (t : string)
| Dollar (n : nat).

Fixpoint format (fmt : list piece) (caps : captures) : string :=
  match fmt with
  | [] => ""
  | Text t :: rest => t ++ format rest caps
  | Dollar n :: rest => sub n caps ++ format rest caps
  end.

(** [std::regex_replace(s, re, fmt)]: a [regex_iterator] walks the
    non-overlapping matches from left to right; the text between matches
    is copied, each match is replaced by the formatted text.  After a
    match the iterator searches on from its end with [match_prev_avail]
    set, so [\b] sees the character before the cursor.  Every pattern of
    the program consumes at least one character ([min_len] below), so the
    iterator's rule for empty matches never applies; [fuel] bounds the
    number of matches and [S (length s)] is always enough. *)
Fixpoint replace_loop (fuel : nat) (re : regex) (fmt : list piece)
         (prev : option ascii) (s : string) : string :=
  match fuel with
  | O => s
  | S fuel' =>
      match regex_search re prev s with
      | None => s
      | Some m =>
          m_prefix m ++ format fmt (m_caps m)
            ++ replace_loop fuel' re fmt (m_last m) (m_suffix m)
      end
  end.

Definition regex_replace (s : string) (re : regex) (fmt : list piece) : string :=
  replace_loop (S (String.length s)) re fmt None s.

(** The least number of characters a match consumes. *)
Fixpoint min_len (r : regex) : nat :=
  match r with
  | Lit l => String.length l
  | Rep _ atleast1 _ => if atleast1 then 1 else 0
  | WordBoundary => 0
  | Group _ r' => min_len r'
  | Seq r1 r2 => min_len r1 + min_len r2
  end.

(** *** What a pattern matches, read declaratively

    [Matches r caps prev s caps' prev' s']: from the cursor before [s],
    with [prev] the character behind it, [r] can consume text and leave
    the cursor before [s'], recording sub-matches on the way.  The
    matcher above explores these possibilities in a fixed order. *)

Fixpoint all_chars (p : ascii -> bool) (u : string) : bool :=
  match u with
  | EmptyString => true
  | String c u' => p c && all_chars p u'
  end.

(** The character behind the cursor once [u] has been consumed. *)
Fixpoint last_of (u : string) (prev : option ascii) : option ascii :=
  match u with
  | EmptyString => prev
  | String c u' => last_of u' (Some c)
  end.

Inductive Matches
  : regex -> captures -> option ascii -> string
    -> captures -> option ascii -> string -> Prop :=
| M_Lit l caps prev s' :
    Matches (Lit l) caps prev (l ++ s') caps (last_of l prev) s'
| M_Rep greedy atleast1 cs u caps prev s' :
    all_chars (in_charset cs) u = true ->
    (atleast1 = true -> u <> "") ->
    Matches (Rep greedy atleast1 cs) caps prev (u ++ s') caps (last_of u prev) s'
| M_WordBoundary caps prev s :
    at_word_boundary prev s = true ->
    Matches WordBoundary caps prev s caps prev s
| M_Group i r caps prev s caps' prev' s' t :
    Matches r caps prev s caps' prev' s' ->
    t = consumed s s' ->
    Matches (Group i r) caps prev s ((i, t) :: caps') prev' s'
| M_Seq r1 r2 caps prev s caps1 prev1 s1 caps2 prev2 s2 :
    Matches r1 caps prev s caps1 prev1 s1 ->
    Matches r2 caps1 prev1 s1 caps2 prev2 s2 ->
    Matches (Seq r1 r2) caps prev s caps2 prev2 s2.

(** The successive matches of a
    [while (std::regex_search(searchStart, end, match, re))
       { ...; searchStart = match.suffix().first; }] loop. *)
Fixpoint matches_loop (fuel : nat) (re : regex) (searchStart : string)
  : list smatch :=
  match fuel with
  | O => []
  | S fuel' =>
      match regex_search re None searchStart with
      | Some m => m :: matches_loop fuel' re (m_suffix m)
      | None => []
      end
  end.

Definition all_matches (re : regex) (s : string) : list smatch :=
  matches_loop (S (String.length s)) re s.

Declare Scope regex_scope.
Delimit Scope regex_scope with re.
Bind Scope regex_scope with regex.
Infix "~~" := Seq (at level 60, right associativity) : regex_scope.

(** Shorthands for the quantified classes of the program. *)
Definition plus (cs : charset) : regex := Rep true true cs.        (* cs+  *)
Definition many (cs : charset) : regex := Rep true false cs.       (* cs*  *)
Definition lazy_many (cs : charset) : regex := Rep false false cs. (* cs*? *)
Definition word (w : string) : regex :=                            (* \bw\b *)
  (WordBoundary ~~ Lit w ~~ WordBoundary)%re.

End Regex.

(** ** The world outside the process

    Everything the transpiler touches besides its arguments: the files of
    the working directory, the process environment, the external tools
    behind [std::system], and the engine's logger. *)

Module Sys.
Import Cpp.

Inductive LogLevel : Type := Info | Error.

(** The files that exist and their contents, by path. *)
Definition FileSystem : Type := string -> option string.

Definition store (path text : string) (fs : FileSystem) : FileSystem :=
  fun p => if String.eqb p path then Some text else fs p.

Record World : Type := mkWorld {
  files : FileSystem;
  (** whether opening the path for writing succeeds *)
  creatable : string -> bool;
  (** the process environment: the value of each variable that is set *)
  env : string -> option string;
  (** the command interpreter: exit status and the files it leaves *)
  shell : string -> FileSystem -> Z * FileSystem;
  (** the commands handed to [std::system] so far, oldest first *)
  commands : list string;
  (** the events handed to the logger so far, oldest first *)
  events : list (LogLevel * string)
}.

(** How a call ends: normally, by a [std::exception], or outside what
    the language defines. *)
Inductive Outcome (A : Type) : Type :=
| Returns (a : A) (w : World)
| Throws (what : string) (w : World)
| Undefined.
Arguments Returns {A} a w.
Arguments Throws {A} what w.
Arguments Undefined {A}.

Definition Eff (A : Type) : Type := World -> Outcome A.

#[global] Instance Eff_ret : MRet Eff := fun A a w => Returns a w.
#[global] Instance Eff_bind : MBind Eff := fun A B f c w =>
  match c w with
  | Returns a w' => f a w'
  | Throws what w' => Throws what w'
  | Undefined => Undefined
  end.

Definition throw {A} (what : string) : Eff A := fun w => Throws what w.
Definition undefined {A} : Eff A := fun _ => Undefined.

(** [try { body } catch (const std::exception& e) { handler(e.what()) }] *)
Definition try_catch {A} (body : Eff A) (handler : string -> Eff A) : Eff A :=
  fun w =>
    match body w with
    | Throws what w' => handler what w'
    | other => other
    end.

(** [std::getenv(name)]: [None] is the null pointer. *)
Definition getenv (name : string) : Eff (option string) :=
  fun w => Returns (env w name) w.

(** [std::ofstream f(path); f << text; f.close();].  When the stream
    does not open, the insertion does nothing. *)
Definition ofstream_write (path text : string) : Eff unit :=
  fun w =>
    if creatable w path then
      Returns tt (mkWorld (store path text (files w)) (creatable w) (env w)
                          (shell w) (commands w) (events w))
    else Returns tt w.

(** Opening an [std::ifstream] and reading all of it: [None] when the
    stream does not open. *)
Definition ifstream_contents (path : string) : Eff (option string) :=
  fun w => Returns (files w path) w.

(** [std::system(command)] *)
Definition system (command : string) : Eff Z :=
  fun w =>
    let '(status, files') := shell w command (files w) in
    Returns status (mkWorld files' (creatable w) (env w) (shell w)
                            (commands w ++ [command]) (events w)).

(** Modelled from the spec: [Logger::Log] of Core/Logger.h, a collaborator
    outside the transpiler; section 6 of the specification has it receive
    one event per call. *)
Definition Logger_Log (level : LogLevel) (message : string) : Eff unit :=
  fun w =>
    Returns tt (mkWorld (files w) (creatable w) (env w) (shell w)
                        (commands w) (events w ++ [(level, message)])).

(** Four bytes of a file as one [uint32_t] (little-endian host). *)
Definition word_of_bytes (b0 b1 b2 b3 : ascii) : Z :=
  let byte (c : ascii) := Z.of_nat (code c) in
  Z.lor (byte b0)
    (Z.lor (Z.shiftl (byte b1) 8)
       (Z.lor (Z.shiftl (byte b2) 16) (Z.shiftl (byte b3) 24))).

Fixpoint words_of_bytes (bytes : string) : list Z :=
  match bytes with
  | String b0 (String b1 (String b2 (String b3 rest))) =>
      word_of_bytes b0 b1 b2 b3 :: words_of_bytes rest
  | _ => []
  end.

End Sys.

(** ** ShaderTranspiler.h: the data model *)

Module Orca.
Import Cpp Regex Sys.

Inductive ShaderTarget : Type := GLSL | HLSL | Vulkan | Metal.

Inductive ShaderStage : Type := Vertex | Fragment.

Module UniformBinding.
Record t : Type := mk {
  name : string;
  type : string;
  binding : Z;     (* int *)
  set : Z          (* int *)
}.
End UniformBinding.

Module VertexAttribute.
Record t : Type := mk {
  name : string;
  type : string;
  location : Z     (* int *)
}.
End VertexAttribute.

Record TranspilationResult : Type := mkResult {
  success : bool;
  output : string;
  binary : list Z;            (* std::vector<uint32_t> *)
  errorMessage : string
}.

(** ** ShaderTranspiler.cpp: the patterns *)

(** [#version\s+\d+\s*\n] *)
Definition versionRegex : regex :=
  (Lit "#version" ~~ plus CsSpace ~~ plus CsDigit ~~ many CsSpace ~~ Lit nl)%re.

(** [uniform\s+(\w+)\s+(\w+);] *)
Definition uniformRegex : regex :=
  (Lit "uniform" ~~ plus CsSpace ~~ Group 1 (plus CsWord) ~~ plus CsSpace
     ~~ Group 2 (plus CsWord) ~~ Lit ";")%re.

(** [uniform\s+.*?] *)
Definition uniformStripRegex : regex :=
  (Lit "uniform" ~~ plus CsSpace ~~ lazy_many CsDot)%re.

(** [layout\s*\(\s*location\s*=\s*(\d+)\s*\)\s*in\s+(\w+)\s+(\w+);] *)
Definition attrRegex : regex :=
  (Lit "layout" ~~ many CsSpace ~~ Lit "(" ~~ many CsSpace ~~ Lit "location"
     ~~ many CsSpace ~~ Lit "=" ~~ many CsSpace ~~ Group 1 (plus CsDigit)
     ~~ many CsSpace ~~ Lit ")" ~~ many CsSpace ~~ Lit "in" ~~ plus CsSpace
     ~~ Group 2 (plus CsWord) ~~ plus CsSpace ~~ Group 3 (plus CsWord)
     ~~ Lit ";")%re.

(** [\bout\s+(\w+)\s+(\w+);] and [\bin\s+(\w+)\s+(\w+);] *)
Definition varyingRegex (keyword : string) : regex :=
  (WordBoundary ~~ Lit keyword ~~ plus CsSpace ~~ Group 1 (plus CsWord)
     ~~ plus CsSpace ~~ Group 2 (plus CsWord) ~~ Lit ";")%re.

(** [(\w+)\s*\*\s*([\w\d\(\).]+)] *)
Definition mathRegex : regex :=
  (Group 1 (plus CsWord) ~~ many CsSpace ~~ Lit "*" ~~ many CsSpace
     ~~ Group 2 (plus (CsUnion CsWord (CsUnion CsDigit
                  (CsUnion (CsChar "(") (CsUnion (CsChar ")") (CsChar ".")))))))%re.

(** ** ShaderTranspiler.cpp: the declaration extractor *)

(** The [while (std::regex_search(searchStart, glslSource.cend(), ...))]
    loop of [ExtractUniforms].  Each search starts afresh at
    [match.suffix().first]; a match consumes at least twelve characters,
    so [fuel] above the length of the text never runs out. *)
Fixpoint ExtractUniforms_loop (fuel : nat) (searchStart : string)
         (uniforms : list UniformBinding.t) : list UniformBinding.t :=
  match fuel with
  | O => uniforms
  | S fuel' =>
      match regex_search uniformRegex None searchStart with
      | Some mt =>
          let binding :=
            {| UniformBinding.type := sub 1 (m_caps mt);
               UniformBinding.name := sub 2 (m_caps mt);
               UniformBinding.binding :=
                 static_cast_int (Z.of_nat (List.length uniforms));
               UniformBinding.set := 0 |} in
          ExtractUniforms_loop fuel' (m_suffix mt) (uniforms ++ [binding])
      | None => uniforms
      end
  end.

Definition ExtractUniforms (glslSource : string) : list UniformBinding.t :=
  ExtractUniforms_loop (S (String.length glslSource)) glslSource [].

(** The same loop in [ExtractAttributes]; [std::stoi] may throw, which
    abandons the vector built so far. *)
Fixpoint ExtractAttributes_loop (fuel : nat) (searchStart : string)
         (attributes : list VertexAttribute.t) : Exc (list VertexAttribute.t) :=
  match fuel with
  | O => Ok attributes
  | S fuel' =>
      match regex_search attrRegex None searchStart with
      | Some mt =>
          match stoi (sub 1 (m_caps mt)) with
          | Raise what => Raise what
          | Ok location =>
              let attr :=
                {| VertexAttribute.location := location;
                   VertexAttribute.type := sub 2 (m_caps mt);
                   VertexAttribute.name := sub 3 (m_caps mt) |} in
              ExtractAttributes_loop fuel' (m_suffix mt) (attributes ++ [attr])
          end
      | None => Ok attributes
      end
  end.

Definition ExtractAttributes (glslSource : string) : Exc (list VertexAttribute.t) :=
  ExtractAttributes_loop (S (String.length glslSource)) glslSource [].

Definition GetTargetVersionString (target : ShaderTarget) : string :=
  match target with
  | GLSL => "#version 330 core"
  | HLSL => "// HLSL Shader (Target: Direct3D 11)"
  | Vulkan => "#version 450 core"
  | Metal => "// Metal Shader Language"
  end.

(** ** ShaderTranspiler.cpp: the textual rewrites *)

Definition ReplaceGLSLBuiltins (source : string) (target : ShaderTarget)
           (stage : ShaderStage) : string :=
  match target, stage with
  | HLSL, Vertex => regex_replace source (word "gl_Position") [Text "position"]
  | HLSL, Fragment => regex_replace source (word "gl_FragColor") [Text "output"]
  | Metal, Vertex => regex_replace source (word "gl_Position") [Text "out.position"]
  | Metal, Fragment => regex_replace source (word "gl_FragColor") [Text "out.color"]
  | _, _ => source
  end.

(** The type names of the constant buffer. *)
Definition hlslType (type : string) : string :=
  if String.eqb type "vec2" then "float2"
  else if String.eqb type "vec3" then "float3"
  else if String.eqb type "vec4" then "float4"
  else if String.eqb type "mat3" then "float3x3"
  else if String.eqb type "mat4" then "float4x4"
  else type.

(** One pass of the [for (const auto& uniform : uniforms)] loop:
    [ss << "    " << hlslType << " " << uniform.name << ";\n"]. *)
Definition cbufferMember (uniform : UniformBinding.t) : string :=
  "    " ++ hlslType (UniformBinding.type uniform) ++ " "
    ++ UniformBinding.name uniform ++ ";" ++ nl.

Definition cbufferHeader : string :=
  "cbuffer Uniforms : register(b0)" ++ nl ++ "{" ++ nl.

Definition ConvertUniformDeclarations (source : string) (target : ShaderTarget)
  : string :=
  match target with
  | HLSL =>
      let uniforms := ExtractUniforms source in
      match uniforms with
      | [] => source
      | _ =>
          let ss := cbufferHeader ++ String.concat "" (map cbufferMember uniforms) in
          let cleanedSource := regex_replace source uniformStripRegex [] in
          ss ++ cleanedSource
      end
  | _ => source
  end.

Definition ConvertAttributeDeclarations (source : string) (target : ShaderTarget)
           (stage : ShaderStage) : string :=
  match stage with
  | Fragment => source
  | Vertex =>
      match target with
      | HLSL =>
          regex_replace source attrRegex
            [Dollar 2; Text " "; Dollar 3; Text " : TEXCOORD"; Dollar 1; Text ";"]
      | Metal =>
          regex_replace source attrRegex
            [Dollar 2; Text " "; Dollar 3; Text " [[attribute("; Dollar 1; Text ")]];"]
      | _ => source
      end
  end.

Definition ConvertVaryingDeclarations (source : string) (target : ShaderTarget)
           (stage : ShaderStage) : string :=
  match target, stage with
  | HLSL, Vertex =>
      regex_replace source (varyingRegex "out")
        [Dollar 1; Text " "; Dollar 2; Text " : TEXCOORD0;"]
  | HLSL, Fragment =>
      regex_replace source (varyingRegex "in")
        [Dollar 1; Text " "; Dollar 2; Text " : TEXCOORD0;"]
  | Metal, Vertex =>
      regex_replace source (varyingRegex "out")
        [Dollar 1; Text " "; Dollar 2; Text " [[user(locn0)]];"]
  | _, _ => source
  end.

Definition ConvertMatrixOperations (source : string) (target : ShaderTarget)
  : string :=
  match target with
  | HLSL =>
      regex_replace source mathRegex
        [Text "mul("; Dollar 1; Text ", "; Dollar 2; Text ")"]
  | _ => source
  end.

(** [output = std::regex_replace(output, std::regex(R"(\bfrom\b)"), to)],
    once per pair and in order. *)
Definition replace_words (pairs : list (string * string)) (source : string)
  : string :=
  fold_left (fun output p => regex_replace output (word (fst p)) [Text (snd p)])
            pairs source.

Definition ConvertBuiltinFunctions (source : string) (target : ShaderTarget)
  : string :=
  match target with
  | HLSL =>
      replace_words
        [("normalize", "normalize"); ("dot", "dot"); ("max", "max");
         ("transpose", "transpose"); ("inverse", "inverse");
         ("mat3", "float3x3"); ("mat4", "float4x4");
         ("vec2", "float2"); ("vec3", "float3"); ("vec4", "float4")]
        source
  | Metal =>
      replace_words
        [("mat3", "float3x3"); ("mat4", "float4x4");
         ("vec2", "float2"); ("vec3", "float3"); ("vec4", "float4")]
        source
  | _ => source
  end.

(** ** ShaderTranspiler.cpp: the converters *)

(** The raw string literal of [TranspileToHLSL], line breaks and tabs
    included. *)
Definition inversePlaceholder : string :=
  nl ++ tab ++ tab ++ tab ++ tab ++ "float4x4 inverse(float4x4 m) {"
  ++ nl ++ tab ++ tab ++ tab ++ tab ++ tab
  ++ "// In a real engine, you'd inject a full matrix inversion here"
  ++ nl ++ tab ++ tab ++ tab ++ tab ++ tab
  ++ "// or pass the inverse matrix as a separate uniform."
  ++ nl ++ tab ++ tab ++ tab ++ tab ++ tab
  ++ "return m; // Placeholder: this will stop the error but math will be wrong"
  ++ nl ++ tab ++ tab ++ tab ++ tab ++ "}".

(** The chain of rewrites of [TranspileToHLSL] up to and including
    [ReplaceGLSLBuiltins]: the value of [converted]. *)
Definition HLSL_converted (glslSource : string) (stage : ShaderStage) : string :=
  let cleanedSource := regex_replace glslSource versionRegex [] in
  let converted := ConvertUniformDeclarations cleanedSource HLSL in
  let converted := ConvertAttributeDeclarations converted HLSL stage in
  let converted := ConvertVaryingDeclarations converted HLSL stage in
  let converted := ConvertBuiltinFunctions converted HLSL in
  let converted := ConvertMatrixOperations converted HLSL in
  ReplaceGLSLBuiltins converted HLSL stage.

(** The text handed to the validator: the value of [hlsl] after
    [hlsl += converted]. *)
Definition HLSL_text (glslSource : string) (stage : ShaderStage) : string :=
  let converted := HLSL_converted glslSource stage in
  let hlsl := GetTargetVersionString HLSL ++ nl in
  let hlsl :=
    if negb (npos (find hlsl "inverse")) then inversePlaceholder ++ hlsl
    else hlsl in
  hlsl ++ converted.

Definition TranspileToHLSL (glslSource : string) (stage : ShaderStage)
  : Eff TranspilationResult :=
  let hlsl := HLSL_text glslSource stage in
  let tempPath := "Saved/ShaderCache/validate.hlsl" in
  ofstream_write tempPath hlsl ;;
  sdkEnv ← getenv "VULKAN_SDK" ;
  let sdkPath := default "C:/VulkanSDK/default" sdkEnv in
  let targetProfile := match stage with Vertex => "vs_6_0" | Fragment => "ps_6_0" end in
  let cmd := dquote ++ sdkPath ++ "\Bin\dxc.exe" ++ dquote ++ " -T " ++ targetProfile
             ++ " -E main " ++ tempPath in
  status ← system cmd ;
  if negb (status =? 0)%Z then
    mret (mkResult false hlsl [] "DXC Validation Failed! Check shader syntax.")
  else
    mret (mkResult true hlsl [] "").

Definition tempIn : string := "Saved/ShaderCache/temp_input.glsl".
Definition tempOut : string := "Saved/ShaderCache/temp_input.spv".

Definition glslangCommand (sdkPath : string) : string :=
  dquote ++ sdkPath ++ "/Bin/glslang.exe" ++ dquote ++ " -V " ++ tempIn
    ++ " -o " ++ tempOut.

(** After a zero exit status the assembled file is read back:
    [size = binFile.tellg()], a vector of [size / sizeof(uint32_t)] words,
    and [binFile.read] of [size] bytes into it.
    - When the file does not open, [tellg] gives -1; the division is done
      in [size_t], where -1 is 2^64-1, and a vector of that many words
      cannot be created: the constructor throws.
    - When [size] is not a multiple of four, [read] stores past the end
      of the vector. *)
Definition read_spirv (path : string) : Eff (list Z) :=
  binFile ← ifstream_contents path ;
  match binFile with
  | None => throw "cannot create std::vector larger than max_size()"
  | Some bytes =>
      if (String.length bytes mod 4 =? 0)%nat then mret (words_of_bytes bytes)
      else undefined
  end.

Definition TranspileToVulkan (glslSource : string) (stage : ShaderStage)
  : Eff TranspilationResult :=
  let output := "#version 450 core" ++ nl ++ nl ++ glslSource in
  ofstream_write tempIn output ;;
  sdkEnv ← getenv "VULKAN_SDK" ;
  let sdkPath := default "C:/Program Files/VulkanSDK/1.4.313.1" sdkEnv in
  let command := glslangCommand sdkPath in
  status ← system command ;
  if (status =? 0)%Z then
    buffer ← read_spirv tempOut ;
    mret (mkResult true output buffer "SPIR-V compilation success!")
  else
    mret (mkResult true "" [] "SPIR-V compilation failed!").

Definition tempSpv : string := "Saved/ShaderCache/temp_vulkan.spv".
Definition tempMetal : string := "Saved/ShaderCache/temp_output.metal".

Definition spirvCrossCommand (sdkPath : string) : string :=
  dquote ++ sdkPath ++ "/Bin/spirv-cross.exe" ++ dquote ++ " -V " ++ tempSpv
    ++ " -o " ++ tempMetal.

(** [std::string sdkPath = std::getenv("VULKAN_SDK");] has no guard: with
    the variable unset a string is built from the null pointer. *)
Definition TranspileToMetal (glslSource : string) (stage : ShaderStage)
  : Eff TranspilationResult :=
  vResult ← TranspileToVulkan glslSource stage ;
  if negb (success vResult) then mret vResult
  else
    sdkEnv ← getenv "VULKAN_SDK" ;
    match sdkEnv with
    | None => undefined
    | Some sdkPath =>
        let command := spirvCrossCommand sdkPath in
        status ← system command ;
        if (status =? 0)%Z then
          ifs ← ifstream_contents tempMetal ;
          let metalSource := default "" ifs in
          mret (mkResult true metalSource [] "Metal transpilation success!")
        else
          mret (mkResult false "" [] "Metal transpilation failed!")
    end.

(** ** ShaderTranspiler.cpp: the facade *)

(** The [default:] branch of the [switch] is out of reach of the four
    enumerators of [ShaderTarget]. *)
Definition Transpile (glslSource : string) (target : ShaderTarget)
           (stage : ShaderStage) : Eff TranspilationResult :=
  if empty glslSource then
    mret (mkResult false "" [] "Input shader source is empty")
  else if npos (find glslSource "{") || npos (find glslSource "}") then
    mret (mkResult false "" []
            "ERROR: Missing curly braces in shader source. Please fix the problem.")
  else
    try_catch
      (result ←
         match target with
         | GLSL => mret (mkResult true glslSource [] "")
         | HLSL => TranspileToHLSL glslSource stage
         | Vulkan => TranspileToVulkan glslSource stage
         | Metal => TranspileToMetal glslSource stage
         end ;
       (if success result then
          Logger_Log Info "Shader transpilation successful"
        else
          Logger_Log Error ("Shader transpilation failed: " ++ errorMessage result)) ;;
       mret result)
      (fun what =>
         mret (mkResult false "" [] ("Transpilation exception: " ++ what))).

Definition TranspileProgram (vertexSource fragmentSource : string)
           (target : ShaderTarget) : Eff TranspilationResult :=
  vertResult ← Transpile vertexSource target Vertex ;
  if negb (success vertResult) then mret vertResult
  else
    fragResult ← Transpile fragmentSource target Fragment ;
    if negb (success fragResult) then mret fragResult
    else
      let combined := "// === VERTEX SHADER ===" ++ nl ++ output vertResult
                      ++ nl ++ nl ++ "// === FRAGMENT SHADER ===" ++ nl
                      ++ output fragResult in
      mret (mkResult true combined [] "").

End Orca.

(** ** ShaderTranspiler.cpp: the utility parsing helpers *)

Module Parsing.
Import Cpp Regex Orca.

(** How a call without side effects ends: with a value, by a
    [std::exception], or outside what the language defines. *)
Inductive Pure (A : Type) : Type :=
| Value (a : A)
| Exception (what : string)
| Unspecified.
Arguments Value {A} a.
Arguments Exception {A} what.
Arguments Unspecified {A}.

(** [std::isalnum(int)] is defined for the values of [unsigned char] and
    for [EOF].  [source[pos]] is a [char], signed on the x86 targets of
    the engine: the bytes 0x80 to 0xFE arrive as negative values other
    than [EOF] (-1, the byte 0xFF). *)
Definition isalnum_defined (c : ascii) : bool :=
  (code c <? 128)%nat || (code c =? 255)%nat.

(** [while (pos < source.size() && !std::isalnum(source[pos])
           && source[pos] != '_') pos++;] *)
Fixpoint skip_loop (fuel : nat) (source : string) (pos : nat) : Pure nat :=
  match fuel with
  | O => Value pos
  | S fuel' =>
      match String.get pos source with
      | None => Value pos
      | Some c =>
          if negb (isalnum_defined c) then Unspecified
          else if negb (isalnum c) && negb (Ascii.eqb c "_")
               then skip_loop fuel' source (S pos)
               else Value pos
      end
  end.

(** [while (pos < source.size() && (std::isalnum(source[pos])
           || source[pos] == '_')) pos++;] *)
Fixpoint take_loop (fuel : nat) (source : string) (pos : nat) : Pure nat :=
  match fuel with
  | O => Value pos
  | S fuel' =>
      match String.get pos source with
      | None => Value pos
      | Some c =>
          if negb (isalnum_defined c) then Unspecified
          else if isalnum c || Ascii.eqb c "_"
               then take_loop fuel' source (S pos)
               else Value pos
      end
  end.

(** [source.substr(start, n)]: throws [std::out_of_range] when [start] is
    beyond the end.  [what] names the member that throws; the full text
    of the message is the library's. *)
Definition substr (source : string) (start n : nat) : Pure string :=
  if (String.length source <? start)%nat then Exception "basic_string::substr"
  else Value (String.substring start n source).

(** [ExtractIdentifier(source, pos)]: the value returned and the value
    left in [pos].  Each loop advances [pos] by one per round and stops at
    the end of the text, so [String.length source] rounds of fuel
    suffice. *)
Definition ExtractIdentifier (source : string) (pos : nat) : Pure (string * nat) :=
  match skip_loop (String.length source) source pos with
  | Value start =>
      match take_loop (String.length source) source start with
      | Value pos' =>
          match substr source start (pos' - start) with
          | Value identifier => Value (identifier, pos')
          | Exception what => Exception what
          | Unspecified => Unspecified
          end
      | Exception what => Exception what
      | Unspecified => Unspecified
      end
  | Exception what => Exception what
  | Unspecified => Unspecified
  end.

(** [std::getline(ss, line)] on what is left of the stream: the characters
    up to the next line break, which is dropped, or up to the end.
    [None] is the failed read at the end of the stream. *)
Fixpoint until_LF (stream : string) : string * string :=
  match stream with
  | EmptyString => (EmptyString, EmptyString)
  | String c rest =>
      if Ascii.eqb c LF then (EmptyString, rest)
      else let '(line, rest') := until_LF rest in (String c line, rest')
  end.

Definition getline (stream : string) : option (string * string) :=
  match stream with
  | EmptyString => None
  | _ => Some (until_LF stream)
  end.

(** [while (std::getline(ss, line)) lines.push_back(line);]  A
    successful read takes at least one character off the stream. *)
Fixpoint SplitLines_loop (fuel : nat) (ss : string) (lines : list string)
  : list string :=
  match fuel with
  | O => lines
  | S fuel' =>
      match getline ss with
      | Some (line, ss') => SplitLines_loop fuel' ss' (lines ++ [line])
      | None => lines
      end
  end.

Definition SplitLines (source : string) : list string :=
  SplitLines_loop (S (String.length source)) source [].

(** The [static const std::unordered_map<std::string, bool>] of
    [IsBuiltinType], as its initializer list. *)
Definition builtinTypes : list (string * bool) :=
  [ ("float", true); ("int", true); ("uint", true);
    ("vec2", true); ("vec3", true); ("vec4", true);
    ("ivec2", true); ("ivec3", true); ("ivec4", true);
    ("mat2", true); ("mat3", true); ("mat4", true);
    ("sampler2D", true); ("samplerCube", true) ].

(** [builtinTypes.find(type) != builtinTypes.end()] *)
Definition IsBuiltinType (type : string) : bool :=
  existsb (fun entry => String.eqb type (fst entry)) builtinTypes.

Definition IsUniformDeclaration (line : string) : bool :=
  negb (npos (find line "uniform")).

Definition IsAttributeDeclaration (line : string) : bool :=
  negb (npos (find line "layout")) && negb (npos (find line "in")).

End Parsing.

(** ** Sample worlds, for running the embedding *)

Module Samples.
Import Cpp Sys Orca.

(** A tool chain in which every tool succeeds: the assembler leaves an
    eight-byte module, the cross-compiler a line of Metal. *)
Definition working (command : string) (fs : FileSystem) : Z * FileSystem :=
  if negb (npos (find command "glslang.exe")) then
    (0%Z, store tempOut "abcdefgh" fs)
  else if negb (npos (find command "spirv-cross.exe")) then
    (0%Z, store tempMetal "kernel void k() {}" fs)
  else (0%Z, fs).

(** A tool chain in which every tool fails. *)
Definition broken (command : string) (fs : FileSystem) : Z * FileSystem :=
  (1%Z, fs).

Definition no_files : FileSystem := fun _ => None.

Definition sdk (name : string) : option string :=
  if String.eqb name "VULKAN_SDK" then Some "C:/VulkanSDK/1.4" else None.
Definition no_sdk (name : string) : option string := None.

(** The SDK variable is set and the tools work. *)
Definition configured : World := mkWorld no_files (fun _ => true) sdk working [] [].
(** The SDK variable is not set; the tools work. *)
Definition bare : World := mkWorld no_files (fun _ => true) no_sdk working [] [].
(** The SDK variable is set; no tool works. *)
Definition failing : World := mkWorld no_files (fun _ => true) sdk broken [] [].

(** [w] with one more event. *)
Definition logged (level : LogLevel) (message : string) (w : World) : World :=
  mkWorld (files w) (creatable w) (env w) (shell w) (commands w)
          (events w ++ [(level, message)]).

(** [w] after the working assembler ran on [glslSource] from the SDK
    root [root]. *)
Definition assembled (root glslSource : string) (w : World) : World :=
  mkWorld (store tempOut "abcdefgh"
             (store tempIn ("#version 450 core" ++ nl ++ nl ++ glslSource) (files w)))
          (creatable w) (env w) (shell w)
          (commands w ++ [glslangCommand root]) (events w).

Definition vertexShader : string :=
  "#version 330 core" ++ nl
  ++ "layout (location = 0) in vec3 aPos;" ++ nl
  ++ "uniform mat4 model;" ++ nl
  ++ "out vec3 FragPos;" ++ nl
  ++ "void main() { gl_Position = model * vec4(aPos, 1.0); }" ++ nl.

Definition fragmentShader : string :=
  "#version 330 core" ++ nl
  ++ "in vec3 FragPos;" ++ nl
  ++ "void main() { gl_FragColor = vec4(FragPos, 1.0); }" ++ nl.

End Samples.

(** ** Vocabulary of the statements *)

Module Vocabulary.
Import Cpp Regex Sys Orca.

(** The character occurs somewhere in the string. *)
Definition has_char (c : ascii) (s : string) : Prop :=
  In c (list_ascii_of_string s).

(** The SDK root a converter with a fallback works with. *)
Definition sdk_root (fallback : string) (w : World) : string :=
  default fallback (env w "VULKAN_SDK").

(** The run of the assembler inside [TranspileToVulkan]: the files it
    finds are those of [w] with the wrapped source written to
    temp_input.glsl (when that file can be created). *)
Definition wrapped (glslSource : string) : string :=
  "#version 450 core" ++ nl ++ nl ++ glslSource.

Definition assembler_files (glslSource : string) (w : World) : FileSystem :=
  if creatable w tempIn then store tempIn (wrapped glslSource) (files w)
  else files w.

Definition assembler_run (glslSource : string) (w : World) : Z * FileSystem :=
  shell w (glslangCommand (sdk_root "C:/Program Files/VulkanSDK/1.4.313.1" w))
        (assembler_files glslSource w).

(** *** Declarations in a source text *)

(** A non-empty run of white space; a non-empty run of letters, digits
    and underscores. *)
Definition blank (u : string) : Prop :=
  u <> "" /\ all_chars isspace u = true.
Definition identifier (u : string) : Prop :=
  u <> "" /\ all_chars is_word u = true.
Definition number (u : string) : Prop :=
  u <> "" /\ all_chars isdigit u = true.

(** [d] is a text of the shape [uniform <type> <name>;]. *)
Definition uniform_declaration (d type name : string) : Prop :=
  exists ws1 ws2,
    d = "uniform" ++ ws1 ++ type ++ ws2 ++ name ++ ";"
    /\ blank ws1 /\ blank ws2 /\ identifier type /\ identifier name.

(** A declaration starts at the very beginning of [s]. *)
Definition declaration_at (s : string) : Prop :=
  exists d type name rest, s = d ++ rest /\ uniform_declaration d type name.

(** [Declarations s l]: [l] lists the type and name of every declaration
    in [s], from left to right.  Either no declaration starts anywhere in
    [s]; or [s] is [pre ++ d ++ rest] with [d] a declaration, no
    declaration starts at an earlier place or at a place inside [d], and
    [l] goes on with the declarations of [rest]. *)
Inductive Declarations : string -> list (string * string) -> Prop :=
| Declarations_none s :
    (forall a b, s = a ++ b -> ~ declaration_at b) ->
    Declarations s []
| Declarations_next s pre d type name rest l :
    s = pre ++ d ++ rest ->
    uniform_declaration d type name ->
    (forall a b, pre = a ++ b -> b <> "" -> ~ declaration_at (b ++ d ++ rest)) ->
    (forall a b, d = a ++ b -> a <> "" -> b <> "" -> ~ declaration_at (b ++ rest)) ->
    Declarations rest l ->
    Declarations s ((type, name) :: l).

(** *** Occurrences of a pattern *)

(** The pattern matches at the cursor. *)
Definition occurs_at (re : regex) (prev : option ascii) (s : string) : Prop :=
  exists caps p s', Matches re [] prev s caps p s'.

(** [Scan re s ms]: [ms] are the leftmost match in [s], the leftmost
    match in what follows it, and so on. *)
Inductive Scan (re : regex) : string -> list smatch -> Prop :=
| Scan_end s :
    (forall a b, s = a ++ b -> ~ occurs_at re (last_of a None) b) ->
    Scan re s []
| Scan_hit s m ms :
    s = m_prefix m ++ m_str m ++ m_suffix m ->
    Matches re [] (last_of (m_prefix m) None) (m_str m ++ m_suffix m)
            (m_caps m) (m_last m) (m_suffix m) ->
    (forall a b, m_prefix m = a ++ b -> b <> "" ->
                 ~ occurs_at re (last_of a None) (b ++ m_str m ++ m_suffix m)) ->
    Scan re (m_suffix m) ms ->
    Scan re s (m :: ms).

(** What [regex_search re prev s] reports when it reports [m], with
    [pre] the text skipped before the search began. *)
Definition leftmost_match (re : regex) (pre : string) (prev : option ascii)
           (s : string) (m : smatch) : Prop :=
  exists skipped,
    m_prefix m = pre ++ skipped
    /\ s = skipped ++ m_str m ++ m_suffix m
    /\ Matches re [] (last_of skipped prev) (m_str m ++ m_suffix m)
               (m_caps m) (m_last m) (m_suffix m)
    /\ (forall a b, skipped = a ++ b -> b <> "" ->
                    ~ occurs_at re (last_of a prev) (b ++ m_str m ++ m_suffix m)).

(** Groups 1 and 2 of a match of the uniform pattern. *)
Definition type_and_name (m : smatch) : string * string :=
  (sub 1 (m_caps m), sub 2 (m_caps m)).

(** The location literal of a match of the attribute pattern is within
    [int]. *)
Definition fits_int (m : smatch) : Prop :=
  (decimal (sub 1 (m_caps m)) <= INT_MAX)%Z.

(** The text stops a run of [p]-characters: it is empty or starts with a
    character outside [p]. *)
Definition stops (p : ascii -> bool) (x : string) : Prop :=
  match x with
  | EmptyString => True
  | String c _ => p c = false
  end.

(** The record [ExtractUniforms] builds from the [i]-th match. *)
Definition binding_of (i : nat) (m : smatch) : UniformBinding.t :=
  {| UniformBinding.type := sub 1 (m_caps m);
     UniformBinding.name := sub 2 (m_caps m);
     UniformBinding.binding := static_cast_int (Z.of_nat i);
     UniformBinding.set := 0 |}.

Fixpoint bindings_from (i : nat) (ms : list smatch) : list UniformBinding.t :=
  match ms with
  | [] => []
  | m :: ms' => binding_of i m :: bindings_from (S i) ms'
  end.

(** The record [ExtractAttributes] builds from a match whose location
    literal has the value [decimal]. *)
Definition attribute_of (m : smatch) : VertexAttribute.t :=
  {| VertexAttribute.location := decimal (sub 1 (m_caps m));
     VertexAttribute.type := sub 2 (m_caps m);
     VertexAttribute.name := sub 3 (m_caps m) |}.

(** The [switch (target)] of [Transpile]. *)
Definition dispatch (glslSource : string) (target : ShaderTarget)
           (stage : ShaderStage) : Eff TranspilationResult :=
  match target with
  | GLSL => mret (mkResult true glslSource [] "")
  | HLSL => TranspileToHLSL glslSource stage
  | Vulkan => TranspileToVulkan glslSource stage
  | Metal => TranspileToMetal glslSource stage
  end.

End Vocabulary.

(** ** Vocabulary of the helper functions and of the rewrites *)

Module Shapes.
Import Cpp Regex Sys Orca Parsing Vocabulary.

(** The lines put together again, each one closed by a line break. *)
Definition unlines (lines : list string) : string :=
  String.concat "" (map (fun line => line ++ nl) lines).

(** The text with a line break added at the end when the last line has
    none; the empty text has no line to close. *)
Definition terminated (s : string) : string :=
  match last_of s None with
  | None => ""
  | Some c => if Ascii.eqb c LF then s else s ++ nl
  end.

(** Every byte of the text is one [std::isalnum] is defined for. *)
Definition ascii_text (s : string) : Prop :=
  all_chars isalnum_defined s = true.

(** A run of characters that are no letters, digits or underscores. *)
Definition separators (u : string) : Prop :=
  all_chars (fun c => negb (is_word c)) u = true.

(** The pattern looks at the character behind the cursor. *)
Fixpoint uses_boundary (r : regex) : bool :=
  match r with
  | WordBoundary => true
  | Group _ r' => uses_boundary r'
  | Seq r1 r2 => uses_boundary r1 || uses_boundary r2
  | _ => false
  end.

(** Whether a word character stands behind the cursor. *)
Definition word_behind (prev : option ascii) : bool :=
  match prev with Some c => is_word c | None => false end.

(** The text [t] occurs somewhere in [s]. *)
Definition contains (t s : string) : Prop :=
  exists a b, s = a ++ t ++ b.

(** The character behind the cursor when the search goes on after a
    match that ended with [c0]. *)
Definition start_over (c0 : ascii) (p : option ascii) : option ascii :=
  match p with Some c => Some c | None => Some c0 end.

(** A run of white space, possibly empty. *)
Definition spaces (u : string) : Prop :=
  all_chars isspace u = true.

(** The class of the right operand of the product pattern,
    [[\w\d\(\).]]: a non-empty run of it. *)
Definition operandClass : charset :=
  CsUnion CsWord (CsUnion CsDigit
    (CsUnion (CsChar "(") (CsUnion (CsChar ")") (CsChar ".")))).

Definition operand (u : string) : Prop :=
  u <> "" /\ all_chars (in_charset operandClass) u = true.

End Shapes.

(** ** More sample worlds *)

Module Cases.
Import Cpp Sys Orca Samples.

(** A tool chain whose tools exit with 0 and write nothing. *)
Definition idle (command : string) (fs : FileSystem) : Z * FileSystem :=
  (0%Z, fs).

(** The SDK variable is set; the tools are idle. *)
Definition unassembled : World := mkWorld no_files (fun _ => true) sdk idle [] [].

(** A tool chain whose assembler exits with 0 and leaves a module of five
    bytes, one more than a whole word. *)
Definition ragged (command : string) (fs : FileSystem) : Z * FileSystem :=
  (0%Z, store tempOut "abcde" fs).

(** The SDK variable is set; the assembler leaves a ragged module. *)
Definition misassembled : World := mkWorld no_files (fun _ => true) sdk ragged [] [].

End Cases.

(* ===================================================================== *)
(** * Part II.  Properties                                                *)
(* ===================================================================== *)

Import Cpp Regex Sys Orca Vocabulary.

#[local] Arguments String.append !_ _ / : simpl nomatch.
#[local] Arguments regex_search : simpl never.
#[local] Arguments regex_replace : simpl never.

(** ** Strings *)

Lemma find_char_npos (c : ascii) (s : string) :
  npos (find s (String c EmptyString)) = true <-> ~ has_char c s.
Proof.
  unfold find, has_char. induction s as [|b s IH]; simpl.
  - split; [intros _ []|reflexivity].
  - destruct (ascii_dec c b) as [->|Hne].
    + destruct s; simpl; (split; [discriminate|intros H; exfalso; apply H; now left]).
    + destruct (String.index 0 (String c EmptyString) s) eqn:E; simpl in *.
      * split; [discriminate|]. intros H. exfalso.
        destruct IH as [_ IH].
        assert (Hn : ~ In c (list_ascii_of_string s)) by (intros Hin; apply H; now right).
        specialize (IH Hn). discriminate.
      * split; [|reflexivity]. intros _ [Heq|Hin]; [congruence|].
        now apply (proj1 IH).
Qed.

Lemma empty_true (s : string) : empty s = true <-> s = "".
Proof. destruct s; simpl; split; congruence. Qed.

(** ** The matcher against the declarative reading *)

Lemma append_assoc (a b c : string) : (a ++ b) ++ c = a ++ (b ++ c).
Proof. induction a as [|x a IH]; simpl; [reflexivity|now rewrite IH]. Qed.

Lemma append_nil_r (a : string) : a ++ "" = a.
Proof. induction a as [|x a IH]; simpl; [reflexivity|now rewrite IH]. Qed.

Lemma length_append (a b : string) :
  String.length (a ++ b) = String.length a + String.length b.
Proof. induction a as [|x a IH]; simpl; [reflexivity|now rewrite IH]. Qed.

Lemma append_inv_head (a b c : string) : a ++ b = a ++ c -> b = c.
Proof. induction a as [|x a IH]; simpl; [tauto|]. intros [= H]. auto. Qed.

Lemma substring_prefix (u s : string) :
  String.substring 0 (String.length u) (u ++ s) = u.
Proof.
  induction u as [|c u IH]; simpl.
  - destruct s; reflexivity.
  - now rewrite IH.
Qed.

Lemma consumed_append (u s : string) : consumed (u ++ s) s = u.
Proof.
  unfold consumed. rewrite length_append.
  replace (String.length u + String.length s - String.length s) with (String.length u) by lia.
  apply substring_prefix.
Qed.

Lemma last_of_append (u v : string) (prev : option ascii) :
  last_of (u ++ v) prev = last_of v (last_of u prev).
Proof. revert prev. induction u as [|c u IH]; simpl; intros; [reflexivity|apply IH]. Qed.

Lemma all_chars_append (p : ascii -> bool) (u v : string) :
  all_chars p (u ++ v) = all_chars p u && all_chars p v.
Proof.
  induction u as [|c u IH]; simpl; [reflexivity|].
  rewrite IH. now rewrite andb_assoc.
Qed.

Section ExecSpec.
Context {R : Type}.

Lemma lit_append (l : string) (k : option ascii -> string -> option R)
      (prev : option ascii) (s' : string) :
  lit l k prev (l ++ s') = k (last_of l prev) s'.
Proof.
  revert prev. induction l as [|a l IH]; intros prev; simpl; [reflexivity|].
  rewrite Ascii.eqb_refl. apply IH.
Qed.

Lemma lit_sound (l : string) (k : option ascii -> string -> option R)
      (prev : option ascii) (s : string) (res : R) :
  lit l k prev s = Some res ->
  exists s', s = l ++ s' /\ k (last_of l prev) s' = Some res.
Proof.
  revert prev s. induction l as [|a l IH]; intros prev s; simpl.
  - intros H. exists s. auto.
  - destruct s as [|c s]; [discriminate|].
    destruct (Ascii.eqb a c) eqn:E; [|discriminate].
    apply Ascii.eqb_eq in E. subst c. intros H.
    destruct (IH _ _ H) as (s' & -> & Hk). exists s'. auto.
Qed.

Lemma star_sound (greedy : bool) (cs : charset)
      (k : option ascii -> string -> option R)
      (prev : option ascii) (s : string) (res : R) :
  star greedy cs k prev s = Some res ->
  exists u s', s = u ++ s' /\ all_chars (in_charset cs) u = true
               /\ k (last_of u prev) s' = Some res.
Proof.
  revert prev. induction s as [|c s IH]; intros prev; simpl.
  - intros H. exists "", "". auto.
  - assert (Hstop : k prev (String c s) = Some res ->
                    exists u s', String c s = u ++ s'
                                 /\ all_chars (in_charset cs) u = true
                                 /\ k (last_of u prev) s' = Some res).
    { intros H. exists "", (String c s). auto. }
    assert (Hmore : star greedy cs k (Some c) s = Some res ->
                    in_charset cs c = true ->
                    exists u s', String c s = u ++ s'
                                 /\ all_chars (in_charset cs) u = true
                                 /\ k (last_of u prev) s' = Some res).
    { intros H Hc. destruct (IH _ H) as (u & s' & -> & Hu & Hk).
      exists (String c u), s'. simpl. rewrite Hc, Hu. auto. }
    destruct (in_charset cs c) eqn:Hc; [|exact Hstop].
    destruct greedy.
    + destruct (star true cs k (Some c) s) eqn:E; [|exact Hstop].
      intros [= ->]. auto.
    + destruct (k prev (String c s)) eqn:E.
      * intros [= ->]. auto.
      * intros H. auto.
Qed.

Lemma star_complete (greedy : bool) (cs : charset)
      (k : option ascii -> string -> option R)
      (prev : option ascii) (u s' : string) :
  star greedy cs k prev (u ++ s') = None ->
  all_chars (in_charset cs) u = true ->
  k (last_of u prev) s' = None.
Proof.
  revert prev. induction u as [|c u IH]; intros prev; simpl.
  - intros H _. destruct s' as [|c s']; simpl in H; [exact H|].
    destruct (in_charset cs c); [|exact H].
    destruct greedy.
    + destruct (star true cs k (Some c) s'); [discriminate|exact H].
    + destruct (k prev (String c s')); [discriminate|reflexivity].
  - intros H Hall. apply andb_true_iff in Hall as [Hc Hu]. rewrite Hc in H.
    apply IH; [|exact Hu].
    destruct greedy.
    + destruct (star true cs k (Some c) (u ++ s')); [discriminate|reflexivity].
    + destruct (k prev (String c (u ++ s'))); [discriminate|exact H].
Qed.
End ExecSpec.

Lemma exec_sound {R : Type} (r : regex) :
  forall (k : captures -> option ascii -> string -> option R) caps prev s res,
    exec r k caps prev s = Some res ->
    exists caps' prev' s',
      Matches r caps prev s caps' prev' s' /\ k caps' prev' s' = Some res.
Proof.
  induction r as [l|greedy atleast1 cs| |i r IH|r1 IH1 r2 IH2]; intros k caps prev s res; simpl.
  - intros H. apply lit_sound in H as (s' & -> & Hk).
    eexists _, _, _. split; [constructor|exact Hk].
  - destruct atleast1.
    + destruct s as [|c s]; [discriminate|].
      destruct (in_charset cs c) eqn:Hc; [|discriminate].
      intros H. apply star_sound in H as (u & s' & -> & Hu & Hk).
      exists caps, (last_of (String c u) prev), s'. split; [|exact Hk].
      change (String c (u ++ s')) with (String c u ++ s').
      constructor; [simpl; now rewrite Hc, Hu|discriminate].
    + intros H. apply star_sound in H as (u & s' & -> & Hu & Hk).
      eexists _, _, _. split; [constructor; [exact Hu|discriminate]|exact Hk].
  - destruct (at_word_boundary prev s) eqn:E; [|discriminate].
    intros H. eexists _, _, _. split; [constructor; exact E|exact H].
  - intros H. apply IH in H as (caps' & prev' & s' & HM & Hk).
    eexists _, _, _. split; [econstructor; [exact HM|reflexivity]|exact Hk].
  - intros H. apply IH1 in H as (caps1 & prev1 & s1 & HM1 & H).
    apply IH2 in H as (caps2 & prev2 & s2 & HM2 & Hk).
    eexists _, _, _. split; [econstructor; eassumption|exact Hk].
Qed.

Lemma exec_complete {R : Type} (r : regex) :
  forall (k : captures -> option ascii -> string -> option R) caps prev s,
    exec r k caps prev s = None ->
    forall caps' prev' s',
      Matches r caps prev s caps' prev' s' -> k caps' prev' s' = None.
Proof.
  induction r as [l|greedy atleast1 cs| |i r IH|r1 IH1 r2 IH2];
    intros k caps prev s H caps' prev' s' HM; simpl in H.
  - inversion HM; subst. now rewrite lit_append in H.
  - inversion HM as [|g a c u ? ? ? Hu Hne| | |]; subst.
    destruct atleast1.
    + destruct u as [|c u]; [now exfalso; apply Hne|].
      simpl in H, Hu. apply andb_true_iff in Hu as [Hc Hu]. rewrite Hc in H.
      simpl. eapply star_complete; eassumption.
    + eapply star_complete; eassumption.
  - inversion HM as [| |? ? ? E| |]; subst. now rewrite E in H.
  - inversion HM; subst.
    match goal with HM' : Matches r _ _ _ _ _ _ |- _ => apply (IH _ _ _ _ H _ _ _ HM') end.
  - inversion HM; subst.
    match goal with
    | HM1 : Matches r1 _ _ _ _ _ _, HM2 : Matches r2 _ _ _ _ _ _ |- _ =>
        pose proof (IH1 _ _ _ _ H _ _ _ HM1) as H1;
        apply (IH2 _ _ _ _ H1 _ _ _ HM2)
    end.
Qed.

(** A match consumes a prefix of the subject, at least [min_len] long, and
    leaves behind the last character of what it consumed. *)
Lemma Matches_consumes (r : regex) caps prev s caps' prev' s' :
  Matches r caps prev s caps' prev' s' ->
  exists u, s = u ++ s' /\ prev' = last_of u prev /\ min_len r <= String.length u.
Proof.
  induction 1 as [l caps prev s'|g a cs u caps prev s' Hu Hne|caps prev s E
                 |i r caps prev s caps' prev' s' t HM IH Ht
                 |r1 r2 caps prev s caps1 prev1 s1 caps2 prev2 s2 HM1 IH1 HM2 IH2].
  - exists l. simpl. auto.
  - exists u. repeat split.
    destruct a; simpl; [|lia]. destruct u; [now exfalso; apply Hne|simpl; lia].
  - exists "". simpl. auto.
  - exact IH.
  - destruct IH1 as (u1 & -> & -> & L1). destruct IH2 as (u2 & -> & -> & L2).
    exists (u1 ++ u2). rewrite append_assoc, last_of_append, length_append.
    simpl. repeat split. lia.
Qed.

Lemma append_inv_tail (u v s : string) : u ++ s = v ++ s -> u = v.
Proof.
  revert v. induction u as [|c u IH]; intros [|d v] H; simpl in H.
  - reflexivity.
  - exfalso. apply (f_equal String.length) in H. simpl in H.
    rewrite length_append in H. lia.
  - exfalso. apply (f_equal String.length) in H. simpl in H.
    rewrite length_append in H. lia.
  - injection H as -> H. f_equal. auto.
Qed.

(** ** [regex_search] finds the leftmost match *)

Lemma match_here_Some (re : regex) (prev : option ascii) (s : string) caps p s' :
  match_here re prev s = Some (caps, p, s') ->
  Matches re [] prev s caps p s' /\ s = consumed s s' ++ s'.
Proof.
  unfold match_here. intros H.
  apply exec_sound in H as (caps' & prev' & s'' & HM & [= -> -> ->]).
  split; [exact HM|].
  destruct (Matches_consumes _ _ _ _ _ _ _ HM) as (u & -> & _).
  now rewrite consumed_append.
Qed.

Lemma match_here_None (re : regex) (prev : option ascii) (s : string) :
  match_here re prev s = None -> ~ occurs_at re prev s.
Proof.
  unfold match_here. intros H (caps & p & s' & HM).
  pose proof (exec_complete _ _ _ _ _ H _ _ _ HM) as Hk. discriminate Hk.
Qed.

Lemma search_from_None (re : regex) (s : string) :
  forall pre prev,
    search_from re pre prev s = None ->
    forall a b, s = a ++ b -> ~ occurs_at re (last_of a prev) b.
Proof.
  induction s as [|c s IH]; intros pre prev H a b Hs; simpl in H.
  - destruct (match_here re prev "") as [[[caps p] s']|] eqn:E; [discriminate|].
    destruct a; [|discriminate]. simpl in *. subst b. now apply match_here_None.
  - destruct (match_here re prev (String c s)) as [[[caps p] s']|] eqn:E; [discriminate|].
    destruct a as [|x a]; simpl in *.
    + subst b. now apply match_here_None.
    + injection Hs as -> ->. eapply IH; [exact H|reflexivity].
Qed.

Lemma search_hit (re : regex) (pre : string) (prev : option ascii) (s : string)
      caps p s' :
  match_here re prev s = Some (caps, p, s') ->
  leftmost_match re pre prev s (mk_smatch pre (consumed s s') caps p s').
Proof.
  intros E. apply match_here_Some in E as [HM Hs]. exists "".
  cbn [m_prefix m_str m_caps m_last m_suffix String.append last_of].
  rewrite append_nil_r, <- Hs. repeat split; auto.
  intros [|x a] b; cbn [String.append]; intros; subst; congruence.
Qed.

Lemma search_from_Some (re : regex) (s : string) :
  forall pre prev m,
    search_from re pre prev s = Some m -> leftmost_match re pre prev s m.
Proof.
  induction s as [|c s IH]; intros pre prev m H; cbn [search_from] in H.
  - destruct (match_here re prev "") as [[[caps p] s']|] eqn:E; [|discriminate].
    injection H as <-. now apply search_hit.
  - destruct (match_here re prev (String c s)) as [[[caps p] s']|] eqn:E.
    + injection H as <-. now apply search_hit.
    + apply IH in H as (skipped & Hpre & Hs & HM & Hleft).
      exists (String c skipped). rewrite Hpre, append_assoc.
      cbn [String.append last_of]. repeat split; auto.
      * now rewrite <- Hs.
      * intros [|x a] b Hsplit Hb; cbn [String.append last_of] in *.
        -- subst b. cbn [String.append]. rewrite <- Hs. now apply match_here_None.
        -- injection Hsplit as -> ->. now apply Hleft.
Qed.

Lemma regex_search_shrinks (re : regex) (prev : option ascii) (s : string) (m : smatch) :
  regex_search re prev s = Some m ->
  String.length (m_suffix m) + min_len re <= String.length s.
Proof.
  intros H. apply search_from_Some in H as (skipped & _ & Hs & HM & _).
  apply Matches_consumes in HM as (u & Hu & _ & Hlen).
  apply append_inv_tail in Hu. rewrite Hs, Hu, !length_append. lia.
Qed.

(** The search loop lists the matches from left to right, and its fuel
    does not run out. *)
Lemma matches_loop_Scan (re : regex) :
  1 <= min_len re ->
  forall fuel s, String.length s < fuel -> Scan re s (matches_loop fuel re s).
Proof.
  intros Hmin. induction fuel as [|fuel IH]; intros s Hfuel; [lia|]. simpl.
  destruct (regex_search re None s) as [m|] eqn:E.
  - pose proof (regex_search_shrinks _ _ _ _ E) as Hlen.
    unfold regex_search in E.
    apply search_from_Some in E as (skipped & Hpre & Hs & HM & Hleft).
    simpl in Hpre. subst skipped.
    apply Scan_hit; auto. apply IH. lia.
  - apply Scan_end. intros a b Hs. eapply search_from_None; eassumption.
Qed.

Lemma matches_loop_fuel (re : regex) :
  1 <= min_len re ->
  forall fuel s, String.length s < fuel ->
    matches_loop fuel re s = all_matches re s.
Proof.
  intros Hmin. unfold all_matches.
  assert (H : forall f1 f2 s, String.length s < f1 -> String.length s < f2 ->
                matches_loop f1 re s = matches_loop f2 re s).
  { induction f1 as [|f1 IH]; intros f2 s H1 H2; [lia|].
    destruct f2 as [|f2]; [lia|]. simpl.
    destruct (regex_search re None s) as [m|] eqn:E; [|reflexivity].
    apply regex_search_shrinks in E. f_equal. apply IH; lia. }
  intros fuel s Hf. apply H; lia.
Qed.

Lemma matches_loop_length (re : regex) :
  1 <= min_len re ->
  forall fuel s, List.length (matches_loop fuel re s) <= String.length s.
Proof.
  intros Hmin. induction fuel as [|fuel IH]; intros s; simpl; [lia|].
  destruct (regex_search re None s) as [m|] eqn:E; simpl; [|lia].
  apply regex_search_shrinks in E. specialize (IH (m_suffix m)). lia.
Qed.

(** ** The reading of a source into declarations is unique *)

Lemma run_unique (p : ascii -> bool) (u : string) :
  forall u' x x',
    all_chars p u = true -> all_chars p u' = true ->
    stops p x -> stops p x' ->
    u ++ x = u' ++ x' -> u = u' /\ x = x'.
Proof.
  induction u as [|c u IH]; intros [|c' u'] x x' Hu Hu' Hx Hx' E; simpl in *.
  - auto.
  - subst x. simpl in Hx. apply andb_true_iff in Hu' as [Hc _]. congruence.
  - subst x'. simpl in Hx'. apply andb_true_iff in Hu as [Hc _]. congruence.
  - injection E as <- E.
    apply andb_true_iff in Hu as [_ Hu]. apply andb_true_iff in Hu' as [_ Hu'].
    destruct (IH u' x x' Hu Hu' Hx Hx' E) as [-> ->]. auto.
Qed.

Lemma word_is_not_space (c : ascii) : is_word c = true -> isspace c = false.
Proof.
  destruct c as [b0 b1 b2 b3 b4 b5 b6 b7].
  destruct b0, b1, b2, b3, b4, b5, b6, b7; vm_compute; intros H;
    first [reflexivity | discriminate H].
Qed.

Lemma space_is_not_word (c : ascii) : isspace c = true -> is_word c = false.
Proof.
  intros H. destruct (is_word c) eqn:E; [|reflexivity].
  apply word_is_not_space in E. congruence.
Qed.

Lemma stops_identifier (u x : string) : identifier u -> stops isspace (u ++ x).
Proof.
  intros [Hne Hall]. destruct u as [|c u]; [congruence|]. simpl in *.
  apply andb_true_iff in Hall as [Hc _]. now apply word_is_not_space.
Qed.

Lemma stops_blank (u x : string) : blank u -> stops is_word (u ++ x).
Proof.
  intros [Hne Hall]. destruct u as [|c u]; [congruence|]. simpl in *.
  apply andb_true_iff in Hall as [Hc _]. now apply space_is_not_word.
Qed.

(** At a given place of a text at most one declaration starts. *)
Lemma uniform_declaration_unique (d d' type type' name name' r r' : string) :
  uniform_declaration d type name -> uniform_declaration d' type' name' ->
  d ++ r = d' ++ r' -> d = d' /\ type = type' /\ name = name' /\ r = r'.
Proof.
  intros (ws1 & ws2 & -> & B1 & B2 & It & In)
         (ws1' & ws2' & -> & B1' & B2' & It' & In') E.
  rewrite !append_assoc in E. apply append_inv_head in E.
  apply run_unique with (p := isspace) in E as [-> E];
    [|apply B1|apply B1'|now apply stops_identifier|now apply stops_identifier].
  apply run_unique with (p := is_word) in E as [-> E];
    [|apply It|apply It'|now apply stops_blank|now apply stops_blank].
  apply run_unique with (p := isspace) in E as [-> E];
    [|apply B2|apply B2'|now apply stops_identifier|now apply stops_identifier].
  apply run_unique with (p := is_word) in E as [-> E];
    [|apply In|apply In'|reflexivity|reflexivity].
  injection E as ->. auto.
Qed.

Lemma append_split (a : string) :
  forall b x y, a ++ x = b ++ y ->
    (exists c, b = a ++ c /\ x = c ++ y) \/ (exists c, a = b ++ c /\ y = c ++ x).
Proof.
  induction a as [|k a IH]; intros b x y E; simpl in *.
  - left. exists b. auto.
  - destruct b as [|k' b]; simpl in *.
    + right. exists (String k a). auto.
    + injection E as <- E. destruct (IH _ _ _ E) as [(c & -> & ->)|(c & -> & ->)].
      * left. exists c. auto.
      * right. exists c. auto.
Qed.

(** A split of [x ++ y] falls inside [x] or not before its end. *)
Lemma peel (x y a b : string) :
  x ++ y = a ++ b ->
  (exists x2, x = a ++ x2 /\ x2 <> "" /\ b = x2 ++ y)
  \/ (exists a', a = x ++ a' /\ y = a' ++ b).
Proof.
  intros E. destruct (append_split _ _ _ _ E) as [(c & -> & ->)|(c & -> & ->)].
  - right. exists c. auto.
  - destruct c as [|k c].
    + right. exists "". rewrite !append_nil_r. auto.
    + left. exists (String k c). repeat split. discriminate.
Qed.

Lemma declaration_starts_with_u (k : ascii) (s : string) :
  declaration_at (String k s) -> k = "u"%char.
Proof.
  intros (d & type & name & rest & E & (ws1 & ws2 & -> & _)).
  simpl in E. now injection E.
Qed.

Lemma no_declaration_at_space (w y : string) :
  w <> "" -> all_chars isspace w = true -> ~ declaration_at (w ++ y).
Proof.
  intros Hne Hall. destruct w as [|k w]; [congruence|]. simpl in *.
  intros H. apply declaration_starts_with_u in H. subst k. discriminate Hall.
Qed.

Lemma no_declaration_in_keyword (a x2 y : string) :
  "uniform" = a ++ x2 -> a <> "" -> x2 <> "" -> ~ declaration_at (x2 ++ y).
Proof.
  intros E Ha Hx H.
  destruct x2 as [|k x2]; [congruence|]. simpl in H.
  apply declaration_starts_with_u in H. subst k.
  do 7 (destruct a as [|? a]; [simpl in E; try congruence; try discriminate E|];
        simpl in E; injection E as ? E; subst).
  destruct a; discriminate E.
Qed.

(** A word that ends where a semicolon follows is not the keyword of a
    declaration: white space would have to follow. *)
Lemma no_declaration_before_semicolon (n y : string) :
  all_chars is_word n = true -> ~ declaration_at (n ++ ";" ++ y).
Proof.
  intros Hn (d & type & name & rest & E & (ws1 & ws2 & -> & B1 & _)).
  rewrite !append_assoc in E.
  apply run_unique with (p := is_word) in E as [_ E];
    [|exact Hn|reflexivity|reflexivity|now apply stops_blank].
  destruct B1 as [Hne Hall]. destruct ws1 as [|k ws1]; [congruence|].
  simpl in E. injection E as <- _. discriminate Hall.
Qed.

(** The same for the tail of the type of a declaration: the name after it
    would have to be a type followed by white space. *)
Lemma no_declaration_in_type (t ws2 name y : string) :
  all_chars is_word t = true -> blank ws2 -> identifier name ->
  ~ declaration_at (t ++ ws2 ++ name ++ ";" ++ y).
Proof.
  intros Ht B2 In (d & type' & name' & rest & E & (ws1' & ws2' & -> & B1' & B2' & It' & In')).
  rewrite !append_assoc in E.
  apply run_unique with (p := is_word) in E as [_ E];
    [|exact Ht|reflexivity|now apply stops_blank|now apply stops_blank].
  apply run_unique with (p := isspace) in E as [_ E];
    [|apply B2|apply B1'|now apply stops_identifier|now apply stops_identifier].
  apply run_unique with (p := is_word) in E as [_ E];
    [|apply In|apply It'|reflexivity|now apply stops_blank].
  destruct B2' as [Hne Hall]. destruct ws2' as [|k ws2']; [congruence|].
  simpl in E. injection E as <- _. discriminate Hall.
Qed.

Lemma all_chars_suffix (p : ascii -> bool) (a b : string) :
  all_chars p (a ++ b) = true -> all_chars p b = true.
Proof. rewrite all_chars_append. intros H. now apply andb_true_iff in H. Qed.

(** No declaration starts inside a declaration. *)
Lemma no_declaration_inside (d type name rest a b : string) :
  uniform_declaration d type name ->
  d = a ++ b -> a <> "" -> b <> "" -> ~ declaration_at (b ++ rest).
Proof.
  intros (ws1 & ws2 & -> & [N1 B1] & [N2 B2] & [Nt Bt] & [Nn Bn]) E Ha Hb.
  (* in the keyword *)
  apply peel in E as [(x2 & E & Hx & ->)|(a1 & -> & E)].
  { rewrite append_assoc. eapply no_declaration_in_keyword; eassumption. }
  (* in the first white space *)
  apply peel in E as [(x2 & -> & Hx & ->)|(a2 & -> & E)].
  { rewrite append_assoc. apply no_declaration_at_space; [exact Hx|].
    eapply all_chars_suffix; exact B1. }
  (* in the type *)
  apply peel in E as [(x2 & -> & Hx & ->)|(a3 & -> & E)].
  { rewrite !append_assoc. apply no_declaration_in_type;
      [eapply all_chars_suffix; exact Bt|split; assumption|split; assumption]. }
  (* in the second white space *)
  apply peel in E as [(x2 & -> & Hx & ->)|(a4 & -> & E)].
  { rewrite append_assoc. apply no_declaration_at_space; [exact Hx|].
    eapply all_chars_suffix; exact B2. }
  (* in the name *)
  apply peel in E as [(x2 & -> & Hx & ->)|(a5 & -> & E)].
  { rewrite !append_assoc. apply no_declaration_before_semicolon.
    eapply all_chars_suffix; exact Bn. }
  (* at the semicolon *)
  destruct a5 as [|k a5]; simpl in E.
  - subst b. simpl. intros H. apply declaration_starts_with_u in H. discriminate H.
  - injection E as _ E. destruct a5; [|discriminate E]. simpl in E. congruence.
Qed.

Lemma Declarations_functional (s : string) (l1 l2 : list (string * string)) :
  Declarations s l1 -> Declarations s l2 -> l1 = l2.
Proof.
  intros H1. revert l2.
  induction H1 as [s Hnone|s pre d type name rest l Hs Hd Hleft Hin Hrest IH];
    intros l2 H2;
    inversion H2 as [s' Hnone'|s' pre' d' type' name' rest' l' Hs' Hd' Hleft' Hin' Hrest'];
    subst.
  - reflexivity.
  - exfalso. apply (Hnone pre' (d' ++ rest') eq_refl).
    exists d', type', name', rest'. auto.
  - exfalso. apply (Hnone' pre (d ++ rest) eq_refl).
    exists d, type, name, rest. auto.
  - assert (Hpre : pre = pre' /\ d ++ rest = d' ++ rest').
    { destruct (append_split _ _ _ _ Hs') as [(c & -> & E)|(c & -> & E)].
      - destruct c as [|k c]; [simpl in E; now rewrite append_nil_r|].
        exfalso. apply (Hleft' pre (String k c) eq_refl); [discriminate|].
        rewrite <- E. exists d, type, name, rest. auto.
      - destruct c as [|k c]; [simpl in E; now rewrite append_nil_r|].
        exfalso. apply (Hleft pre' (String k c) eq_refl); [discriminate|].
        rewrite <- E. exists d', type', name', rest'. auto. }
    destruct Hpre as [-> E].
    destruct (uniform_declaration_unique _ _ _ _ _ _ _ _ Hd Hd' E) as (-> & -> & -> & ->).
    f_equal. now apply IH.
Qed.

(** ** [ExtractUniforms] *)

Ltac invert_match :=
  repeat match goal with
         | H : Matches (Seq _ _) _ _ _ _ _ _ |- _ => inversion H; subst; clear H
         | H : Matches (Lit _) _ _ _ _ _ _ |- _ => inversion H; subst; clear H
         | H : Matches (Rep _ _ _) _ _ _ _ _ _ |- _ => inversion H; subst; clear H
         | H : Matches (Group _ _) _ _ _ _ _ _ |- _ => inversion H; subst; clear H
         | H : Matches WordBoundary _ _ _ _ _ _ |- _ => inversion H; subst; clear H
         end.

(** What [uniform\s+(\w+)\s+(\w+);] matches is a declaration, and the two
    groups are its type and its name. *)
Lemma uniformRegex_shape caps0 p s caps p' s' :
  Matches uniformRegex caps0 p s caps p' s' ->
  exists d type name,
    s = d ++ s' /\ uniform_declaration d type name
    /\ caps = (2, name) :: (1, type) :: caps0.
Proof.
  unfold uniformRegex, plus. intros H. invert_match.
  rewrite !consumed_append.
  match goal with
  | |- context [(2, ?nm) :: (1, ?ty) :: _] =>
      match goal with
      | |- context ["uniform" ++ ?ws1 ++ ty ++ ?ws2 ++ nm ++ _] =>
          exists ("uniform" ++ ws1 ++ ty ++ ws2 ++ nm ++ ";"), ty, nm;
          split; [|split; [exists ws1, ws2|reflexivity]]
      end
  end.
  - now rewrite !append_assoc.
  - unfold blank, identifier. repeat split; auto.
Qed.

Lemma uniformRegex_matches caps0 p d type name s' :
  uniform_declaration d type name ->
  Matches uniformRegex caps0 p (d ++ s') ((2, name) :: (1, type) :: caps0)
          (Some ";"%char) s'.
Proof.
  intros (ws1 & ws2 & -> & [N1 B1] & [N2 B2] & [Nt Bt] & [Nn Bn]).
  rewrite !append_assoc. unfold uniformRegex, plus.
  eapply M_Seq; [apply M_Lit|].
  eapply M_Seq; [apply M_Rep; [exact B1|intros _; exact N1]|].
  eapply M_Seq; [eapply M_Group; [apply M_Rep; [exact Bt|intros _; exact Nt]
                                 |symmetry; apply consumed_append]|].
  eapply M_Seq; [apply M_Rep; [exact B2|intros _; exact N2]|].
  eapply M_Seq; [eapply M_Group; [apply M_Rep; [exact Bn|intros _; exact Nn]
                                 |symmetry; apply consumed_append]|].
  apply (M_Lit ";").
Qed.

Lemma declaration_at_occurs (prev : option ascii) (s : string) :
  declaration_at s <-> occurs_at uniformRegex prev s.
Proof.
  split.
  - intros (d & type & name & rest & -> & Hd).
    eexists _, _, _. apply uniformRegex_matches. exact Hd.
  - intros (caps & p & s' & HM).
    apply uniformRegex_shape in HM as (d & type & name & -> & Hd & _).
    exists d, type, name, s'. auto.
Qed.

Lemma Scan_Declarations (s : string) (ms : list smatch) :
  Scan uniformRegex s ms -> Declarations s (map type_and_name ms).
Proof.
  induction 1 as [s Hnone|s m ms Hs HM Hleft Hrest IH]; simpl.
  - apply Declarations_none. intros a b Hab Hd.
    apply (Hnone a b Hab). now apply declaration_at_occurs.
  - apply uniformRegex_shape in HM as Hshape.
    destruct Hshape as (d & type & name & Hd & Hdecl & Hcaps).
    apply append_inv_tail in Hd.
    unfold type_and_name at 1. rewrite Hcaps. cbn [sub Nat.eqb].
    apply (Declarations_next s (m_prefix m) d type name (m_suffix m)); auto.
    + now rewrite <- Hd.
    + intros a b Hab Hb Hdec. apply (Hleft a b Hab Hb).
      rewrite Hd. now apply declaration_at_occurs.
    + intros a b Hab Ha Hb. eapply no_declaration_inside; eassumption.
Qed.

Lemma ExtractUniforms_loop_bindings :
  forall fuel s acc,
    ExtractUniforms_loop fuel s acc
    = (acc ++ bindings_from (List.length acc) (matches_loop fuel uniformRegex s))%list.
Proof.
  induction fuel as [|fuel IH]; intros s acc;
    cbn [matches_loop ExtractUniforms_loop bindings_from].
  - now rewrite app_nil_r.
  - destruct (regex_search uniformRegex None s) as [m|]; cbn [bindings_from].
    + rewrite IH, <- app_assoc, length_app. cbn [List.length app].
      now rewrite Nat.add_1_r.
    + now rewrite app_nil_r.
Qed.

Lemma ExtractUniforms_bindings (glslSource : string) :
  ExtractUniforms glslSource = bindings_from 0 (all_matches uniformRegex glslSource).
Proof. unfold ExtractUniforms. now rewrite ExtractUniforms_loop_bindings. Qed.

Lemma bindings_from_nth (ms : list smatch) :
  forall n i u,
    nth_error (bindings_from n ms) i = Some u ->
    UniformBinding.binding u = static_cast_int (Z.of_nat (n + i))
    /\ UniformBinding.set u = 0%Z.
Proof.
  induction ms as [|m ms IH]; intros n [|i] u; simpl; try discriminate.
  - intros [= <-]. simpl. now rewrite Nat.add_0_r.
  - intros H. apply IH in H. now rewrite Nat.add_succ_r.
Qed.

Lemma bindings_from_type_and_name (ms : list smatch) :
  forall n,
    map (fun u => (UniformBinding.type u, UniformBinding.name u)) (bindings_from n ms)
    = map type_and_name ms.
Proof. induction ms as [|m ms IH]; intros n; simpl; [reflexivity|now rewrite IH]. Qed.

Lemma bindings_from_length (ms : list smatch) :
  forall n, List.length (bindings_from n ms) = List.length ms.
Proof. induction ms as [|m ms IH]; intros n; simpl; [reflexivity|now rewrite IH]. Qed.

Lemma static_cast_int_small (n : Z) :
  (0 <= n <= INT_MAX)%Z -> static_cast_int n = n.
Proof.
  unfold static_cast_int, INT_MAX. intros H.
  rewrite Z.mod_small; lia.
Qed.

Lemma uniformRegex_min_len : min_len uniformRegex = 12.
Proof. reflexivity. Qed.

(** C7.  [ExtractUniforms] returns one record per declaration of the shape
    [uniform <type> <name>;] that occurs in the source, in the order of
    their occurrence, each with the declared type and name; the list of
    declarations of a source is unique.  The set of every record is 0
    and the binding slot of the record at index [i] is [i] as an [int]:
    that is [i] itself for every index an [int] can hold, and no other
    index exists unless the source is longer than [INT_MAX] characters.
    The result depends on the source text alone. *)
Theorem ExtractUniforms_spec (glslSource : string) :
  Declarations glslSource
    (map (fun u => (UniformBinding.type u, UniformBinding.name u))
         (ExtractUniforms glslSource))
  /\ (forall l,
         Declarations glslSource l ->
         map (fun u => (UniformBinding.type u, UniformBinding.name u))
             (ExtractUniforms glslSource) = l)
  /\ (forall i u,
         nth_error (ExtractUniforms glslSource) i = Some u ->
         UniformBinding.set u = 0%Z
         /\ UniformBinding.binding u = static_cast_int (Z.of_nat i)
         /\ ((Z.of_nat i <= INT_MAX)%Z -> UniformBinding.binding u = Z.of_nat i)
         /\ ((Z.of_nat (String.length glslSource) <= INT_MAX)%Z ->
             UniformBinding.binding u = Z.of_nat i))
  /\ (forall other, other = glslSource -> ExtractUniforms other = ExtractUniforms glslSource).
Proof.
  assert (Hread : Declarations glslSource
                    (map (fun u => (UniformBinding.type u, UniformBinding.name u))
                         (ExtractUniforms glslSource))).
  { rewrite ExtractUniforms_bindings, bindings_from_type_and_name.
    apply Scan_Declarations.
    apply matches_loop_Scan; [rewrite uniformRegex_min_len|]; lia. }
  split; [exact Hread|].
  split; [intros l Hl; exact (Declarations_functional _ _ _ Hread Hl)|].
  rewrite ExtractUniforms_bindings. split.
  - intros i u Hnth.
    assert (Hi : i < String.length glslSource).
    { assert (Hlt : i < List.length (bindings_from 0 (all_matches uniformRegex glslSource)))
        by (apply nth_error_Some; congruence).
      rewrite bindings_from_length in Hlt.
      pose proof (matches_loop_length uniformRegex) as Hl.
      rewrite uniformRegex_min_len in Hl.
      specialize (Hl ltac:(lia) (S (String.length glslSource)) glslSource).
      unfold all_matches in Hlt. lia. }
    apply bindings_from_nth in Hnth as [Hb Hs]. cbn [Nat.add] in Hb.
    split; [exact Hs|]. split; [exact Hb|]. rewrite Hb.
    split; intros Hle; apply static_cast_int_small; lia.
  - intros other ->. apply ExtractUniforms_bindings.
Qed.

Lemma ExtractUniforms_spec_witness :
  nth_error (ExtractUniforms "uniform mat4 model; uniform vec3 lightPos;") 1
  = Some (UniformBinding.mk "lightPos" "vec3" 1 0)
  /\ UniformBinding.set (UniformBinding.mk "lightPos" "vec3" 1 0) = 0%Z
  /\ UniformBinding.binding (UniformBinding.mk "lightPos" "vec3" 1 0)
     = static_cast_int (Z.of_nat 1)
  /\ UniformBinding.binding (UniformBinding.mk "lightPos" "vec3" 1 0) = Z.of_nat 1.
Proof.
  assert (Hnth : nth_error (ExtractUniforms "uniform mat4 model; uniform vec3 lightPos;") 1
                 = Some (UniformBinding.mk "lightPos" "vec3" 1 0))
    by (vm_compute; reflexivity).
  split; [exact Hnth|].
  destruct (proj1 (proj2 (proj2 (ExtractUniforms_spec
                                   "uniform mat4 model; uniform vec3 lightPos;")))
                  1 _ Hnth)
    as (Hset & Hcast & Hsmall & _).
  split; [exact Hset|]. split; [exact Hcast|].
  apply Hsmall. vm_compute. discriminate.
Defined.

Example ExtractUniforms_two :
  ExtractUniforms ("uniform mat4 model;" ++ nl ++ "uniform  vec3   lightPos;" ++ nl
                   ++ "void main() { }")
  = [UniformBinding.mk "model" "mat4" 0 0; UniformBinding.mk "lightPos" "vec3" 1 0].
Proof. vm_compute. reflexivity. Qed.

(** ** Fuel *)

(** Every pattern of the program consumes at least one character. *)
Lemma patterns_consume :
  Forall (fun re => 1 <= min_len re)
         [versionRegex; uniformRegex; uniformStripRegex; attrRegex;
          varyingRegex "out"; varyingRegex "in"; mathRegex;
          word "gl_Position"; word "gl_FragColor"; word "normalize"; word "dot";
          word "max"; word "transpose"; word "inverse"; word "mat3"; word "mat4";
          word "vec2"; word "vec3"; word "vec4"].
Proof. repeat constructor; simpl; lia. Qed.

(** More fuel than the length of the text changes nothing: the loops end
    because the searches find no further match. *)
Lemma replace_loop_fuel (re : regex) (fmt : list piece) :
  1 <= min_len re ->
  forall f1 f2 prev s,
    String.length s < f1 -> String.length s < f2 ->
    replace_loop f1 re fmt prev s = replace_loop f2 re fmt prev s.
Proof.
  intros Hmin. induction f1 as [|f1 IH]; intros f2 prev s H1 H2; [lia|].
  destruct f2 as [|f2]; [lia|]. cbn [replace_loop].
  destruct (regex_search re prev s) as [m|] eqn:E; [|reflexivity].
  apply regex_search_shrinks in E. do 2 f_equal. apply IH; lia.
Qed.

Lemma ExtractUniforms_loop_fuel (fuel : nat) (glslSource : string) :
  String.length glslSource < fuel ->
  ExtractUniforms_loop fuel glslSource [] = ExtractUniforms glslSource.
Proof.
  intros H. unfold ExtractUniforms. rewrite !ExtractUniforms_loop_bindings.
  rewrite (matches_loop_fuel uniformRegex) by (rewrite ?uniformRegex_min_len; lia).
  reflexivity.
Qed.

(** ** [ExtractAttributes] *)

Lemma digit_not_space_or_sign (c : ascii) :
  isdigit c = true ->
  isspace c = false /\ c <> "-"%char /\ c <> "+"%char.
Proof.
  destruct c as [b0 b1 b2 b3 b4 b5 b6 b7].
  destruct b0, b1, b2, b3, b4, b5, b6, b7; vm_compute; intros H;
    try discriminate H; repeat split; discriminate.
Qed.

Lemma leading_digits_all (s : string) :
  all_chars isdigit s = true -> leading_digits s = s.
Proof.
  induction s as [|c s IH]; simpl; [reflexivity|].
  intros H. apply andb_true_iff in H as [Hc Hs]. rewrite Hc. now rewrite IH.
Qed.

Lemma decimal_from_nonneg (s : string) :
  forall acc, (0 <= acc)%Z -> (0 <= decimal_from acc s)%Z.
Proof.
  induction s as [|c s IH]; intros acc Hacc; simpl; [exact Hacc|].
  apply IH. unfold digit_value. lia.
Qed.

Lemma digit_is_no_sign (c : ascii) (ds : string) :
  isdigit c = true ->
  match String c ds with
  | String "-" b => (true, b)
  | String "+" b => (false, b)
  | _ => (false, String c ds)
  end = (false, String c ds).
Proof.
  destruct c as [b0 b1 b2 b3 b4 b5 b6 b7].
  destruct b0, b1, b2, b3, b4, b5, b6, b7; intros H;
    first [reflexivity | vm_compute in H; discriminate H].
Qed.

(** [std::stoi] on the capture of a [(\d+)] group. *)
Lemma stoi_number (ds : string) :
  number ds ->
  stoi ds = if (decimal ds <=? INT_MAX)%Z then Ok (decimal ds)
            else Raise "stoi argument out of range".
Proof.
  intros [Hne Hall]. destruct ds as [|c ds]; [congruence|].
  pose proof Hall as Hall'. simpl in Hall'. apply andb_true_iff in Hall' as [Hc Hds].
  destruct (digit_not_space_or_sign c Hc) as (Hsp & _).
  unfold stoi. cbn [skip_spaces]. rewrite Hsp.
  rewrite (digit_is_no_sign c ds Hc), (leading_digits_all _ Hall).
  pose proof (decimal_from_nonneg (String c ds) 0%Z ltac:(lia)) as Hpos.
  fold (decimal (String c ds)) in Hpos.
  assert (Hmin : (INT_MIN <=? decimal (String c ds))%Z = true)
    by (apply Z.leb_le; unfold INT_MIN; lia).
  rewrite Hmin. reflexivity.
Qed.

(** What the attribute pattern matches has a number in group 1 and
    identifiers in groups 2 and 3. *)
Lemma attrRegex_shape caps0 p s caps p' s' :
  Matches attrRegex caps0 p s caps p' s' ->
  exists literal type name,
    number literal /\ identifier type /\ identifier name
    /\ caps = (3, name) :: (2, type) :: (1, literal) :: caps0.
Proof.
  unfold attrRegex, plus, many. intros H. invert_match.
  rewrite !consumed_append.
  eexists _, _, _. split; [|split; [|split; [|reflexivity]]];
    split; auto.
Qed.

Lemma attrRegex_search_literal (s : string) (m : smatch) :
  regex_search attrRegex None s = Some m -> number (sub 1 (m_caps m)).
Proof.
  intros H. apply search_from_Some in H as (skipped & _ & _ & HM & _).
  apply attrRegex_shape in HM as (literal & type & name & Hn & _ & _ & ->).
  exact Hn.
Qed.

Lemma ExtractAttributes_loop_Ok :
  forall fuel s acc,
    Forall fits_int (matches_loop fuel attrRegex s) ->
    ExtractAttributes_loop fuel s acc
    = Ok (acc ++ map attribute_of (matches_loop fuel attrRegex s))%list.
Proof.
  induction fuel as [|fuel IH]; intros s acc Hfit;
    cbn [matches_loop ExtractAttributes_loop map] in *.
  - now rewrite app_nil_r.
  - destruct (regex_search attrRegex None s) as [m|] eqn:E; cbn [map].
    + inversion Hfit as [|? ? Hm Hrest]; subst.
      rewrite (stoi_number _ (attrRegex_search_literal _ _ E)).
      apply Z.leb_le in Hm. rewrite Hm.
      rewrite IH by exact Hrest. rewrite <- app_assoc. reflexivity.
    + now rewrite app_nil_r.
Qed.

Lemma ExtractAttributes_loop_Raise :
  forall fuel s acc,
    Exists (fun m => ~ fits_int m) (matches_loop fuel attrRegex s) ->
    ExtractAttributes_loop fuel s acc = Raise "stoi argument out of range".
Proof.
  induction fuel as [|fuel IH]; intros s acc Hbig;
    cbn [matches_loop ExtractAttributes_loop] in *.
  - inversion Hbig.
  - destruct (regex_search attrRegex None s) as [m|] eqn:E; [|inversion Hbig].
    rewrite (stoi_number _ (attrRegex_search_literal _ _ E)).
    destruct (decimal (sub 1 (m_caps m)) <=? INT_MAX)%Z eqn:Hm; [|reflexivity].
    apply IH. inversion Hbig as [? ? Hhead|? ? Htail]; subst; [|exact Htail].
    exfalso. apply Hhead. now apply Z.leb_le.
Qed.

(** C10.  [ExtractAttributes] is partial.  When the location literal of
    every attribute declaration the scan meets fits an [int], it returns
    one record per declaration, whose location is the value of the
    literal; when one of the literals does not fit, [std::stoi] throws and
    no list is returned.  The latter happens, for instance, on
    [layout(location = 2147483648) in vec3 position;]. *)
Theorem ExtractAttributes_partial :
  (forall glslSource,
      Forall fits_int (all_matches attrRegex glslSource) ->
      ExtractAttributes glslSource
      = Ok (map attribute_of (all_matches attrRegex glslSource)))
  /\ (forall glslSource,
         Exists (fun m => ~ fits_int m) (all_matches attrRegex glslSource) ->
         ExtractAttributes glslSource = Raise "stoi argument out of range")
  /\ (let glslSource := "layout(location = 2147483648) in vec3 position;" in
      map (fun m => sub 1 (m_caps m)) (all_matches attrRegex glslSource) = ["2147483648"]
      /\ (INT_MAX < decimal "2147483648")%Z
      /\ ExtractAttributes glslSource = Raise "stoi argument out of range").
Proof.
  split; [|split].
  - intros src H. unfold ExtractAttributes.
    rewrite ExtractAttributes_loop_Ok by exact H. reflexivity.
  - intros src H. unfold ExtractAttributes.
    apply ExtractAttributes_loop_Raise. exact H.
  - vm_compute. split; [reflexivity|split; reflexivity].
Qed.

Lemma ExtractAttributes_partial_witness :
  ExtractAttributes "layout(location=2) in vec3 normal;"
  = Ok (map attribute_of (all_matches attrRegex "layout(location=2) in vec3 normal;"))
  /\ ExtractAttributes "layout(location = 0) in vec3 p; layout(location = 4294967296) in vec2 uv;"
     = Raise "stoi argument out of range".
Proof.
  split.
  - apply (proj1 ExtractAttributes_partial).
    set (ms := all_matches _ _). vm_compute in ms. subst ms.
    constructor; [|constructor].
    unfold fits_int. vm_compute. discriminate.
  - apply (proj1 (proj2 ExtractAttributes_partial)).
    set (ms := all_matches _ _). vm_compute in ms. subst ms.
    apply List.Exists_cons_tl. apply List.Exists_cons_hd.
    unfold fits_int. vm_compute. intros H. apply H. reflexivity.
Defined.

Example ExtractAttributes_normal :
  ExtractAttributes "layout(location=2) in vec3 normal;"
  = Ok [VertexAttribute.mk "normal" "vec3" 2].
Proof. vm_compute. reflexivity. Qed.

(** ** The facade: input validation *)

(** C2.  Whatever the target and the stage, [Transpile] answers an empty
    source, a source without any opening brace and a source without any
    closing brace with a failure result (success=false, empty output and
    binary, the message of the check that failed), and leaves the world as
    it found it: no file written, no command run.  The test is mere
    presence of the two characters: a source that has both of them
    somewhere, in any order, gets past it (shown on the pass-through
    target, which then succeeds with the source as output). *)
Theorem Transpile_input_check (glslSource : string) (target : ShaderTarget)
        (stage : ShaderStage) (w : World) :
  (glslSource = "" ->
   Transpile glslSource target stage w
   = Returns (mkResult false "" [] "Input shader source is empty") w)
  /\ (glslSource <> "" ->
      ~ has_char "{" glslSource \/ ~ has_char "}" glslSource ->
      Transpile glslSource target stage w
      = Returns (mkResult false "" []
                   "ERROR: Missing curly braces in shader source. Please fix the problem.")
                w)
  /\ (has_char "{" glslSource -> has_char "}" glslSource ->
      exists w',
        Transpile glslSource GLSL stage w = Returns (mkResult true glslSource [] "") w'
        /\ files w' = files w /\ commands w' = commands w).
Proof.
  unfold Transpile. split; [|split].
  - intros ->. reflexivity.
  - intros Hne Hlacks.
    destruct (empty glslSource) eqn:E; [apply empty_true in E; contradiction|].
    destruct Hlacks as [H|H]; apply find_char_npos in H; rewrite H.
    + reflexivity.
    + rewrite orb_true_r. reflexivity.
  - intros Ho Hc.
    destruct (empty glslSource) eqn:E.
    { apply empty_true in E. subst. destruct Ho. }
    destruct (npos (find glslSource "{")) eqn:E1.
    { apply find_char_npos in E1. contradiction. }
    destruct (npos (find glslSource "}")) eqn:E2.
    { apply find_char_npos in E2. contradiction. }
    simpl. eexists. split; [reflexivity|]. split; reflexivity.
Qed.

Lemma Transpile_input_check_witness :
  Transpile "" Metal Fragment Samples.bare
  = Returns (mkResult false "" [] "Input shader source is empty") Samples.bare
  /\ Transpile "void main() }" HLSL Vertex Samples.configured
     = Returns (mkResult false "" []
                  "ERROR: Missing curly braces in shader source. Please fix the problem.")
               Samples.configured
  /\ (exists w',
        Transpile "} main {" GLSL Fragment Samples.configured
        = Returns (mkResult true "} main {" [] "") w'
        /\ files w' = files Samples.configured
        /\ commands w' = commands Samples.configured).
Proof.
  split; [|split].
  - apply (proj1 (Transpile_input_check "" Metal Fragment Samples.bare)). reflexivity.
  - apply (proj1 (proj2 (Transpile_input_check
                           "void main() }" HLSL Vertex Samples.configured)));
      [discriminate|].
    left. unfold has_char. simpl. intros H.
    repeat (destruct H as [H|H]; [discriminate H|]). exact H.
  - apply (proj2 (proj2 (Transpile_input_check
                           "} main {" GLSL Fragment Samples.configured)));
      unfold has_char; simpl; tauto.
Defined.

(** ** The Vulkan converter *)

Lemma words_of_bytes_length_lt (n : nat) :
  forall bytes, String.length bytes < n ->
    List.length (words_of_bytes bytes) = String.length bytes / 4.
Proof.
  induction n as [|n IH]; intros bytes Hlt; [lia|].
  destruct bytes as [|b0 [|b1 [|b2 [|b3 rest]]]]; try reflexivity.
  cbn [words_of_bytes List.length String.length].
  rewrite IH by (simpl in Hlt; lia).
  change (S (S (S (S (String.length rest))))) with (1 * 4 + String.length rest).
  rewrite Nat.div_add_l by lia. lia.
Qed.

Lemma words_of_bytes_length (bytes : string) :
  List.length (words_of_bytes bytes) = String.length bytes / 4.
Proof. apply (words_of_bytes_length_lt (S (String.length bytes))). lia. Qed.

(** C1, as amended.  The exit status of the assembler alone does not
    decide the result of the Vulkan converter: on status zero the
    assembled file is read back unchecked (see the counterexample below).
    On status zero, when the assembler has left the file temp_input.spv
    and the file is made of whole 32-bit words, the converter returns
    success=true, the source under its [#version 450 core] header as
    output, and a binary of as many words as the file has bytes, divided
    by four.  On any other status it returns success=true as well, with
    empty output, empty binary and the message that compilation failed. *)
Theorem TranspileToVulkan_by_exit_status (glslSource : string) (stage : ShaderStage)
        (w : World) (status : Z) (fs' : FileSystem) :
  assembler_run glslSource w = (status, fs') ->
  (status = 0%Z ->
   forall bytes, fs' tempOut = Some bytes -> String.length bytes mod 4 = 0 ->
     exists buffer w',
       TranspileToVulkan glslSource stage w
       = Returns (mkResult true ("#version 450 core" ++ nl ++ nl ++ glslSource) buffer
                           "SPIR-V compilation success!") w'
       /\ List.length buffer = String.length bytes / 4)
  /\ (status <> 0%Z ->
      exists w',
        TranspileToVulkan glslSource stage w
        = Returns (mkResult true "" [] "SPIR-V compilation failed!") w').
Proof.
  unfold assembler_run, assembler_files, sdk_root. intros Hrun.
  unfold TranspileToVulkan, read_spirv, mbind, Eff_bind, mret, Eff_ret,
    ofstream_write, getenv, system, ifstream_contents, wrapped in *.
  split.
  - intros -> bytes Hfile Hwords.
    exists (words_of_bytes bytes).
    destruct (creatable w tempIn); cbn [files env shell creatable commands events];
      rewrite Hrun; cbn -[Nat.modulo Nat.div]; rewrite Hfile;
      apply Nat.eqb_eq in Hwords; rewrite Hwords;
      (eexists; split; [reflexivity|apply words_of_bytes_length]).
  - intros Hne. apply Z.eqb_neq in Hne.
    destruct (creatable w tempIn); cbn [files env shell creatable commands events];
      rewrite Hrun; cbn; rewrite Hne; eexists; reflexivity.
Qed.

Lemma TranspileToVulkan_by_exit_status_witness :
  (exists buffer w',
     TranspileToVulkan "void main() {}" Vertex Samples.configured
     = Returns (mkResult true ("#version 450 core" ++ nl ++ nl ++ "void main() {}")
                         buffer "SPIR-V compilation success!") w'
     /\ List.length buffer = String.length "abcdefgh" / 4)
  /\ (exists w',
        TranspileToVulkan "void main() {}" Fragment Samples.failing
        = Returns (mkResult true "" [] "SPIR-V compilation failed!") w').
Proof.
  assert (Hok : assembler_run "void main() {}" Samples.configured
                = (0%Z, store tempOut "abcdefgh"
                          (store tempIn (wrapped "void main() {}") Samples.no_files)))
    by (vm_compute; reflexivity).
  assert (Hko : assembler_run "void main() {}" Samples.failing
                = (1%Z, store tempIn (wrapped "void main() {}") Samples.no_files))
    by (vm_compute; reflexivity).
  split.
  - apply (proj1 (TranspileToVulkan_by_exit_status
                    "void main() {}" Vertex Samples.configured _ _ Hok)
                 eq_refl "abcdefgh").
    + reflexivity.
    + reflexivity.
  - apply (proj2 (TranspileToVulkan_by_exit_status
                    "void main() {}" Fragment Samples.failing _ _ Hko)).
    discriminate.
Defined.

(** The two situations the zero-status half of the statement above leaves
    out: with no assembled file the converter throws, and with a file that
    is not made of whole words it leaves defined behaviour. *)
Lemma TranspileToVulkan_unreadable (glslSource : string) (stage : ShaderStage)
      (w : World) (fs' : FileSystem) :
  assembler_run glslSource w = (0%Z, fs') ->
  (fs' tempOut = None ->
   exists what w', TranspileToVulkan glslSource stage w = Throws what w')
  /\ (forall bytes, fs' tempOut = Some bytes -> String.length bytes mod 4 <> 0 ->
      TranspileToVulkan glslSource stage w = Undefined).
Proof.
  unfold assembler_run, assembler_files, sdk_root. intros Hrun.
  unfold TranspileToVulkan, read_spirv, mbind, Eff_bind, mret, Eff_ret,
    ofstream_write, getenv, system, ifstream_contents, throw, undefined, wrapped in *.
  split.
  - intros Hfile.
    destruct (creatable w tempIn); cbn [files env shell creatable commands events];
      rewrite Hrun; cbn -[Nat.modulo Nat.div]; rewrite Hfile;
      eexists _, _; reflexivity.
  - intros bytes Hfile Hwords. apply Nat.eqb_neq in Hwords.
    destruct (creatable w tempIn); cbn [files env shell creatable commands events];
      rewrite Hrun; cbn -[Nat.modulo Nat.div]; rewrite Hfile, Hwords; reflexivity.
Qed.

(** C1, counterexample.  Exit status zero is not enough for the success
    result.  When the assembler exits with 0 and has left no
    temp_input.spv, the converter throws instead of returning; when it has
    left a file of five bytes, the read runs past the one-word vector and
    nothing defined is returned.  So the statement that on every zero exit
    status the converter returns success=true with the prefixed text as
    output is false. *)
Lemma TranspileToVulkan_exit_status_zero_is_not_enough :
  fst (assembler_run "void main() {}" Cases.unassembled) = 0%Z
  /\ (exists what w',
        TranspileToVulkan "void main() {}" Vertex Cases.unassembled = Throws what w')
  /\ fst (assembler_run "void main() {}" Cases.misassembled) = 0%Z
  /\ TranspileToVulkan "void main() {}" Vertex Cases.misassembled = Undefined
  /\ ~ (forall glslSource stage w status fs',
          assembler_run glslSource w = (status, fs') -> status = 0%Z ->
          exists buffer w',
            TranspileToVulkan glslSource stage w
            = Returns (mkResult true ("#version 450 core" ++ nl ++ nl ++ glslSource)
                                buffer "SPIR-V compilation success!") w').
Proof.
  assert (Hrun : assembler_run "void main() {}" Cases.unassembled
                 = (0%Z, store tempIn (wrapped "void main() {}") Samples.no_files))
    by reflexivity.
  assert (Hodd : assembler_run "void main() {}" Cases.misassembled
                 = (0%Z, store tempOut "abcde"
                           (store tempIn (wrapped "void main() {}") Samples.no_files)))
    by reflexivity.
  assert (Hthrows : exists what w',
             TranspileToVulkan "void main() {}" Vertex Cases.unassembled = Throws what w')
    by (apply (proj1 (TranspileToVulkan_unreadable _ Vertex _ _ Hrun)); reflexivity).
  split; [now rewrite Hrun|]. split; [exact Hthrows|].
  split; [now rewrite Hodd|]. split.
  - apply (proj2 (TranspileToVulkan_unreadable _ Vertex _ _ Hodd) "abcde");
      [reflexivity | discriminate].
  - intros H. destruct Hthrows as (what & w1 & E).
    destruct (H "void main() {}" Vertex Cases.unassembled _ _ Hrun eq_refl)
      as (buffer & w' & E').
    rewrite E in E'. discriminate.
Qed.

(** The Vulkan converter never reports failure through the flag, and what
    it throws when the assembled file cannot be opened reaches the caller. *)
Lemma TranspileToVulkan_success (glslSource : string) (stage : ShaderStage)
      (w w' : World) (r : TranspilationResult) :
  TranspileToVulkan glslSource stage w = Returns r w' -> success r = true.
Proof.
  unfold TranspileToVulkan, read_spirv, mbind, Eff_bind, mret, Eff_ret,
    ofstream_write, getenv, system, ifstream_contents, throw, undefined.
  destruct (creatable w tempIn); cbn [files env shell creatable commands events];
    match goal with |- context [shell w ?c ?f] => destruct (shell w c f) as [status fs'] end;
    (destruct (status =? 0)%Z; [|intros [= <- _]; reflexivity]);
    cbn [files];
    (destruct (fs' tempOut) as [bytes|]; [|discriminate]);
    (destruct (String.length bytes mod 4 =? 0)%nat; [|discriminate]);
    intros [= <- _]; reflexivity.
Qed.

(** ** The HLSL converter *)

Lemma TranspileToHLSL_output (glslSource : string) (stage : ShaderStage)
      (w w' : World) (r : TranspilationResult) :
  TranspileToHLSL glslSource stage w = Returns r w' ->
  output r = HLSL_text glslSource stage.
Proof.
  unfold TranspileToHLSL, mbind, Eff_bind, mret, Eff_ret, ofstream_write, getenv, system.
  generalize (HLSL_text glslSource stage). intros hlsl.
  destruct (creatable w "Saved/ShaderCache/validate.hlsl");
    cbn [files env shell creatable commands events];
    match goal with |- context [shell w ?c ?f] => destruct (shell w c f) as [status fs'] end;
    destruct (status =? 0)%Z; cbn; intros [= <- _]; reflexivity.
Qed.

(** The HLSL converter always returns: the validator's exit status only
    decides the flag. *)
Lemma TranspileToHLSL_returns (glslSource : string) (stage : ShaderStage) (w : World) :
  exists ok message w',
    TranspileToHLSL glslSource stage w
    = Returns (mkResult ok (HLSL_text glslSource stage) [] message) w'.
Proof.
  unfold TranspileToHLSL, mbind, Eff_bind, mret, Eff_ret, ofstream_write, getenv, system.
  generalize (HLSL_text glslSource stage). intros hlsl.
  destruct (creatable w "Saved/ShaderCache/validate.hlsl");
    cbn [files env shell creatable commands events];
    match goal with |- context [shell w ?c ?f] => destruct (shell w c f) as [status fs'] end;
    destruct (status =? 0)%Z; cbn; eexists _, _, _; reflexivity.
Qed.

Example HLSL_vertex_shader :
  HLSL_text Samples.vertexShader Vertex
  = "// HLSL Shader (Target: Direct3D 11)" ++ nl
    ++ "cbuffer Uniforms : register(b0)" ++ nl ++ "{" ++ nl
    ++ "    float4x4 model;" ++ nl
    ++ "#version 330 core" ++ nl
    ++ "float3 aPos : TEXCOORD0;" ++ nl
    ++ "float4x4 model;" ++ nl
    ++ "float3 FragPos : TEXCOORD0;" ++ nl
    ++ "void main() { position = mul(model, float4(aPos), 1.0); }" ++ nl.
Proof. vm_compute. reflexivity. Qed.

Example HLSL_fragment_shader :
  HLSL_text Samples.fragmentShader Fragment
  = "// HLSL Shader (Target: Direct3D 11)" ++ nl
    ++ "#version 330 core" ++ nl
    ++ "float3 FragPos : TEXCOORD0;" ++ nl
    ++ "void main() { output = float4(FragPos, 1.0); }" ++ nl.
Proof. vm_compute. reflexivity. Qed.

(** C5.  The test before the placeholder is made on the banner line, not
    on the converted text, and the banner does not contain [inverse]: for
    every source and stage the text handed to the validator, which is the
    output of the converter, is the banner line followed by the converted
    text, with no placeholder function in front, also when the converted
    text contains [inverse] as it does for the source below. *)
Theorem HLSL_inverse_placeholder_never_prepended :
  (forall glslSource stage,
      HLSL_text glslSource stage
      = "// HLSL Shader (Target: Direct3D 11)" ++ nl ++ HLSL_converted glslSource stage)
  /\ (forall glslSource stage w,
         exists ok message w',
           TranspileToHLSL glslSource stage w
           = Returns (mkResult ok
                        ("// HLSL Shader (Target: Direct3D 11)" ++ nl
                         ++ HLSL_converted glslSource stage)
                        [] message) w')
  /\ (let glslSource := "void main() { mat4 inv = inverse(model); }" in
      npos (find (HLSL_converted glslSource Vertex) "inverse") = false
      /\ HLSL_text glslSource Vertex
         = "// HLSL Shader (Target: Direct3D 11)" ++ nl
           ++ "void main() { float4x4 inv = inverse(model); }"
      /\ String.prefix inversePlaceholder (HLSL_text glslSource Vertex) = false).
Proof.
  assert (Hgen : forall glslSource stage,
             HLSL_text glslSource stage
             = "// HLSL Shader (Target: Direct3D 11)" ++ nl
               ++ HLSL_converted glslSource stage).
  { intros src stage. unfold HLSL_text.
    generalize (HLSL_converted src stage). intros converted.
    change (npos (find (GetTargetVersionString HLSL ++ nl) "inverse")) with true.
    cbn [negb GetTargetVersionString]. now rewrite append_assoc. }
  split; [exact Hgen|split].
  - intros src stage w. rewrite <- Hgen. apply TranspileToHLSL_returns.
  - vm_compute. split; [reflexivity|split; reflexivity].
Qed.

(** What the directive pattern matches: the keyword, white space, a
    number, and white space that ends in a line break. *)
Lemma versionRegex_shape caps0 p s caps p' s' :
  Matches versionRegex caps0 p s caps p' s' ->
  exists ws1 ds ws2,
    s = "#version" ++ ws1 ++ ds ++ ws2 ++ nl ++ s'
    /\ blank ws1 /\ number ds /\ all_chars isspace ws2 = true.
Proof.
  unfold versionRegex, plus, many. intros H. invert_match.
  eexists _, _, _. split; [reflexivity|].
  unfold blank, number. repeat split; auto.
Qed.

Lemma digit_is_not_space (c : ascii) : isdigit c = true -> isspace c = false.
Proof. intros H. now apply digit_not_space_or_sign in H. Qed.

Lemma stops_number (u x : string) : number u -> stops isspace (u ++ x).
Proof.
  intros [Hne Hall]. destruct u as [|c u]; [congruence|]. simpl in *.
  apply andb_true_iff in Hall as [Hc _]. now apply digit_is_not_space.
Qed.

Lemma space_is_not_digit (c : ascii) : isspace c = true -> isdigit c = false.
Proof.
  intros H. destruct (isdigit c) eqn:E; [|reflexivity].
  apply digit_is_not_space in E. congruence.
Qed.

(** Whatever the number and whatever follows, a directive that names a
    profile after the number is not matched by the directive pattern. *)
Lemma version_directive_with_profile_not_matched
      (prev : option ascii) (digits profile rest : string) :
  number digits -> identifier profile ->
  stops isdigit profile ->
  ~ occurs_at versionRegex prev ("#version " ++ digits ++ " " ++ profile ++ rest).
Proof.
  intros Hd Hp Hstop (caps & p & s' & HM).
  apply versionRegex_shape in HM as (ws1 & ds & ws2 & E & B1 & Nd & B2).
  change ("#version " ++ digits ++ " " ++ profile ++ rest)
    with ("#version" ++ " " ++ digits ++ " " ++ profile ++ rest) in E.
  apply append_inv_head in E. symmetry in E.
  apply run_unique with (p := isspace) in E as [_ E];
    [|apply B1|reflexivity|now apply stops_number|now apply stops_number].
  apply run_unique with (p := isdigit) in E as [_ E];
    [|apply Nd|apply Hd| |reflexivity].
  - destruct ws2 as [|c ws2]; simpl in E.
    + discriminate E.
    + injection E as -> E. destruct Hp as [Hne Hall].
      destruct profile as [|k profile]; [congruence|].
      simpl in Hall. apply andb_true_iff in Hall as [Hk _].
      apply word_is_not_space in Hk.
      destruct ws2 as [|c ws2]; simpl in E, B2.
      * injection E as <- _. discriminate Hk.
      * injection E as <- _. apply andb_true_iff in B2 as [Hc _]. congruence.
  - destruct ws2 as [|c ws2]; simpl; [reflexivity|].
    simpl in B2. apply andb_true_iff in B2 as [Hc _]. now apply space_is_not_digit.
Qed.

(** C8.  The directive pattern asks for a line break right after the
    version number (white space apart), so a directive that names a
    profile is not removed: [#version 330 core] survives the conversion.
    A directive made of the number alone is removed. *)
Theorem version_directive_with_profile_survives :
  let glslSource := "#version 330 core" ++ nl ++ "void main() { }" in
  regex_replace glslSource versionRegex [] = glslSource
  /\ HLSL_text glslSource Vertex
     = "// HLSL Shader (Target: Direct3D 11)" ++ nl
       ++ "#version 330 core" ++ nl ++ "void main() { }"
  /\ npos (find (HLSL_text glslSource Vertex) "#version") = false
  /\ HLSL_text ("#version 450" ++ nl ++ "void main() { }") Vertex
     = "// HLSL Shader (Target: Direct3D 11)" ++ nl ++ "void main() { }".
Proof. vm_compute. split; [reflexivity|split; [reflexivity|split; reflexivity]]. Qed.

(** A lazy repetition in front of a continuation that accepts stops at
    once. *)
Lemma star_lazy_stops {R : Type} (cs : charset) (f : option ascii -> string -> R)
      (prev : option ascii) (s : string) :
  star false cs (fun p s' => Some (f p s')) prev s = Some (f prev s).
Proof. destruct s as [|c s]; simpl; [reflexivity|]. now destruct (in_charset cs c). Qed.

Lemma search_from_match_here (re : regex) (s : string) :
  forall pre prev m,
    search_from re pre prev s = Some m ->
    exists skipped here,
      s = skipped ++ here
      /\ match_here re (last_of skipped prev) here
         = Some (m_caps m, m_last m, m_suffix m)
      /\ m_str m = consumed here (m_suffix m).
Proof.
  induction s as [|c s IH]; intros pre prev m H; cbn [search_from] in H.
  - destruct (match_here re prev "") as [[[caps p] s']|] eqn:E; [|discriminate].
    injection H as <-. exists "", "". auto.
  - destruct (match_here re prev (String c s)) as [[[caps p] s']|] eqn:E.
    + injection H as <-. exists "", (String c s). auto.
    + apply IH in H as (skipped & here & -> & Hm & Hstr).
      exists (String c skipped), here. auto.
Qed.

(** Whatever the source, what the strip pattern of
    [ConvertUniformDeclarations] matches, and so what is removed, is the
    keyword and the white space after it: never the type, the name or the
    semicolon of a declaration. *)
Lemma uniformStripRegex_removes_keyword_only (prev : option ascii) (s : string)
      (m : smatch) :
  regex_search uniformStripRegex prev s = Some m ->
  exists ws, blank ws /\ m_str m = "uniform" ++ ws.
Proof.
  intros H. apply search_from_match_here in H as (skipped & here & _ & Hm & ->).
  unfold match_here, uniformStripRegex, plus, lazy_many in Hm. cbn [exec] in Hm.
  apply lit_sound in Hm as (s1 & -> & Hm).
  destruct s1 as [|c s1]; [discriminate|].
  destruct (in_charset CsSpace c) eqn:Hc; [|discriminate].
  apply star_sound in Hm as (u & s2 & -> & Hu & Hm).
  rewrite star_lazy_stops in Hm. injection Hm as _ _ <-.
  exists (String c u). split.
  - split; [discriminate|].
    change (all_chars (in_charset CsSpace) (String c u) = true).
    cbn [all_chars]. now rewrite Hc, Hu.
  - change ("uniform" ++ String c (u ++ s2)) with (("uniform" ++ String c u) ++ s2).
    apply consumed_append.
Qed.

(** C4.  The pattern that should strip the declarations ends in a lazy
    [.*?], which matches nothing: only the keyword and the white space
    after it are removed.  The declaration [mat4 model;] stays in the body
    below the constant buffer, whose block is never closed; and a
    [uniform] that is not followed by white space stays as it is. *)
Theorem uniform_declarations_not_stripped :
  let glslSource := "uniform mat4 model;" ++ nl ++ "void main() { }" in
  ExtractUniforms glslSource = [UniformBinding.mk "model" "mat4" 0 0]
  /\ ConvertUniformDeclarations glslSource HLSL
     = "cbuffer Uniforms : register(b0)" ++ nl ++ "{" ++ nl
       ++ "    float4x4 model;" ++ nl
       ++ "mat4 model;" ++ nl ++ "void main() { }"
  /\ HLSL_text glslSource Vertex
     = "// HLSL Shader (Target: Direct3D 11)" ++ nl
       ++ "cbuffer Uniforms : register(b0)" ++ nl ++ "{" ++ nl
       ++ "    float4x4 model;" ++ nl
       ++ "float4x4 model;" ++ nl ++ "void main() { }"
  /\ ConvertUniformDeclarations "uniform mat4 model; // the model uniform" HLSL
     = "cbuffer Uniforms : register(b0)" ++ nl ++ "{" ++ nl
       ++ "    float4x4 model;" ++ nl
       ++ "mat4 model; // the model uniform"
  /\ npos (find (HLSL_text "uniform mat4 model; // the model uniform" Fragment)
                "uniform") = false.
Proof.
  vm_compute.
  split; [reflexivity|split; [reflexivity|split; [reflexivity|split; reflexivity]]].
Qed.

(** ** The Metal converter *)

Lemma TranspileToVulkan_env (glslSource : string) (stage : ShaderStage)
      (w w' : World) (r : TranspilationResult) :
  TranspileToVulkan glslSource stage w = Returns r w' -> env w' = env w.
Proof.
  unfold TranspileToVulkan, read_spirv, mbind, Eff_bind, mret, Eff_ret,
    ofstream_write, getenv, system, ifstream_contents, throw, undefined.
  destruct (creatable w tempIn); cbn [files env shell creatable commands events];
    match goal with |- context [shell w ?c ?f] => destruct (shell w c f) as [status fs'] end;
    (destruct (status =? 0)%Z; [|intros [= _ <-]; reflexivity]);
    cbn [files];
    (destruct (fs' tempOut) as [bytes|]; [|discriminate]);
    (destruct (String.length bytes mod 4 =? 0)%nat; [|discriminate]);
    intros [= _ <-]; reflexivity.
Qed.

(** With the SDK variable set, the Metal converter runs the cross-compiler
    on temp_vulkan.spv, which is not the file the Vulkan step asked the
    assembler for, and goes by its exit status. *)
Lemma TranspileToMetal_with_SDK (glslSource : string) (stage : ShaderStage)
      (w w1 : World) (vResult : TranspilationResult) (sdkPath : string)
      (status : Z) (fs2 : FileSystem) :
  TranspileToVulkan glslSource stage w = Returns vResult w1 ->
  env w "VULKAN_SDK" = Some sdkPath ->
  shell w1 (spirvCrossCommand sdkPath) (files w1) = (status, fs2) ->
  let w2 := mkWorld fs2 (creatable w1) (env w1) (shell w1)
                    (commands w1 ++ [spirvCrossCommand sdkPath]) (events w1) in
  TranspileToMetal glslSource stage w
  = (if (status =? 0)%Z then
       Returns (mkResult true (default "" (fs2 tempMetal)) []
                         "Metal transpilation success!") w2
     else Returns (mkResult false "" [] "Metal transpilation failed!") w2)
  /\ spirvCrossCommand sdkPath
     = dquote ++ sdkPath ++ "/Bin/spirv-cross.exe" ++ dquote
       ++ " -V Saved/ShaderCache/temp_vulkan.spv -o Saved/ShaderCache/temp_output.metal"
  /\ tempSpv <> tempOut.
Proof.
  intros HV Henv Hrun w2. split; [|split; [|discriminate]].
  - unfold TranspileToMetal, mbind, Eff_bind. rewrite HV.
    rewrite (TranspileToVulkan_success _ _ _ _ _ HV). cbn [negb].
    unfold getenv. rewrite (TranspileToVulkan_env _ _ _ _ _ HV), Henv.
    unfold system. rewrite Hrun.
    destruct (status =? 0)%Z; reflexivity.
  - reflexivity.
Qed.

Example TranspileToMetal_configured :
  exists w',
    TranspileToMetal "void main() {}" Vertex Samples.configured
    = Returns (mkResult true "kernel void k() {}" [] "Metal transpilation success!") w'
    /\ commands w' = [glslangCommand "C:/VulkanSDK/1.4";
                      spirvCrossCommand "C:/VulkanSDK/1.4"].
Proof. eexists. split; [vm_compute; reflexivity|reflexivity]. Qed.

Example TranspileToMetal_failing :
  exists w',
    TranspileToMetal "void main() {}" Vertex Samples.failing
    = Returns (mkResult false "" [] "Metal transpilation failed!") w'
    /\ commands w' = [glslangCommand "C:/VulkanSDK/1.4";
                      spirvCrossCommand "C:/VulkanSDK/1.4"].
Proof. eexists. split; [vm_compute; reflexivity|reflexivity]. Qed.

(** C6.  [TranspileToMetal] builds the SDK path from [std::getenv] without
    the null check its two siblings make.  In a world where VULKAN_SDK is
    not set the Vulkan step succeeds from its built-in default path, and
    the Metal converter then leaves defined behaviour before any
    cross-compiler is run; the facade does not recover from it. *)
Theorem TranspileToMetal_without_SDK :
  env Samples.bare "VULKAN_SDK" = None
  /\ (exists r w',
         TranspileToVulkan "void main() {}" Vertex Samples.bare = Returns r w'
         /\ success r = true
         /\ commands w' = [glslangCommand "C:/Program Files/VulkanSDK/1.4.313.1"])
  /\ TranspileToMetal "void main() {}" Vertex Samples.bare = Undefined
  /\ Transpile "void main() {}" Metal Vertex Samples.bare = Undefined.
Proof.
  split; [reflexivity|split; [|split]].
  - eexists _, _. split; [vm_compute; reflexivity|]. split; reflexivity.
  - vm_compute. reflexivity.
  - vm_compute. reflexivity.
Qed.

(** Whenever the variable is not set, the Metal converter returns nothing. *)
Lemma TranspileToMetal_needs_SDK (glslSource : string) (stage : ShaderStage)
      (w w' : World) (r : TranspilationResult) :
  env w "VULKAN_SDK" = None ->
  TranspileToMetal glslSource stage w <> Returns r w'.
Proof.
  intros Henv. unfold TranspileToMetal, mbind, Eff_bind.
  destruct (TranspileToVulkan glslSource stage w) as [v w1| |] eqn:HV; try discriminate.
  rewrite (TranspileToVulkan_success _ _ _ _ _ HV). cbn [negb].
  unfold getenv. rewrite (TranspileToVulkan_env _ _ _ _ _ HV), Henv. discriminate.
Qed.

(** ** The facade: dispatch *)

Lemma Metal_binary_empty (glslSource : string) (stage : ShaderStage)
      (w w' : World) (r : TranspilationResult) :
  TranspileToMetal glslSource stage w = Returns r w' -> binary r = [].
Proof.
  unfold TranspileToMetal, mbind, Eff_bind.
  destruct (TranspileToVulkan glslSource stage w) as [v w1| |] eqn:EV; try discriminate.
  rewrite (TranspileToVulkan_success _ _ _ _ _ EV). cbn [negb].
  unfold getenv. destruct (env w1 "VULKAN_SDK") as [sdkPath|]; [|discriminate].
  unfold system. destruct (shell w1 (spirvCrossCommand sdkPath) (files w1)) as [status fs'].
  destruct (status =? 0)%Z; cbn; intros [= <- _]; reflexivity.
Qed.

Lemma HLSL_binary_empty (glslSource : string) (stage : ShaderStage)
      (w w' : World) (r : TranspilationResult) :
  TranspileToHLSL glslSource stage w = Returns r w' -> binary r = [].
Proof.
  unfold TranspileToHLSL, mbind, Eff_bind, mret, Eff_ret, ofstream_write, getenv, system.
  generalize (HLSL_text glslSource stage). intros hlsl.
  destruct (creatable w "Saved/ShaderCache/validate.hlsl");
    cbn [files env shell creatable commands events];
    match goal with |- context [shell w ?c ?f] => destruct (shell w c f) as [status fs'] end;
    destruct (status =? 0)%Z; cbn; intros [= <- _]; reflexivity.
Qed.

Lemma Transpile_cases (glslSource : string) (target : ShaderTarget)
      (stage : ShaderStage) (w w' : World) (r : TranspilationResult) :
  Transpile glslSource target stage w = Returns r w' ->
  (success r = false /\ binary r = [])
  \/ (exists w1, dispatch glslSource target stage w = Returns r w1).
Proof.
  unfold Transpile.
  destruct (empty glslSource); [intros [= <- _]; left; split; reflexivity|].
  destruct (npos (find glslSource "{") || npos (find glslSource "}"));
    [intros [= <- _]; left; split; reflexivity|].
  unfold try_catch, mbind, Eff_bind. fold (dispatch glslSource target stage).
  destruct (dispatch glslSource target stage w) as [r1 w1|what w1|] eqn:ED.
  - destruct (success r1); cbn; intros [= <- _]; right; eexists; reflexivity.
  - cbn. intros [= <- _]. left. split; reflexivity.
  - discriminate.
Qed.

(** C9.  In a result that [Transpile] returns, the binary payload is
    non-empty only for the Vulkan target with success=true: it is empty in
    every failure result and in every result for the HLSL, Metal and
    pass-through (GLSL) targets. *)
Theorem Transpile_binary_only_for_Vulkan (glslSource : string) (target : ShaderTarget)
        (stage : ShaderStage) (w w' : World) (r : TranspilationResult) :
  Transpile glslSource target stage w = Returns r w' ->
  (binary r <> [] -> target = Vulkan /\ success r = true)
  /\ (success r = false -> binary r = [])
  /\ (target <> Vulkan -> binary r = []).
Proof.
  intros H.
  assert (Hcore : binary r = [] \/ (target = Vulkan /\ success r = true)).
  { apply Transpile_cases in H. destruct H as [[_ Hb]|[w1 Hd]]; [now left|].
    destruct target; cbn in Hd.
    - injection Hd as <- _. now left.
    - left. eapply HLSL_binary_empty; eassumption.
    - right. split; [reflexivity|]. eapply TranspileToVulkan_success; eassumption.
    - left. eapply Metal_binary_empty; eassumption. }
  destruct Hcore as [Hb|[Ht Hs]]; repeat split; try tauto; try congruence.
Qed.

Lemma Transpile_binary_only_for_Vulkan_witness :
  let r := mkResult true ("#version 450 core" ++ nl ++ nl ++ "void main() {}")
                    (words_of_bytes "abcdefgh") "SPIR-V compilation success!" in
  binary r <> []
  /\ ((binary r <> [] -> Vulkan = Vulkan /\ success r = true)
      /\ (success r = false -> binary r = [])
      /\ (Vulkan <> Vulkan -> binary r = [])).
Proof.
  intros r. split; [discriminate|].
  apply (Transpile_binary_only_for_Vulkan
           "void main() {}" Vulkan Vertex Samples.configured
           (Samples.logged Info "Shader transpilation successful"
              (Samples.assembled "C:/VulkanSDK/1.4" "void main() {}" Samples.configured))).
  vm_compute. reflexivity.
Defined.

(** ** The facade returns or leaves defined behaviour; it never throws *)

Lemma Transpile_never_throws (glslSource : string) (target : ShaderTarget)
      (stage : ShaderStage) (w w' : World) (what : string) :
  Transpile glslSource target stage w <> Throws what w'.
Proof.
  unfold Transpile.
  destruct (empty glslSource); [discriminate|].
  destruct (npos (find glslSource "{") || npos (find glslSource "}")); [discriminate|].
  unfold try_catch, mbind, Eff_bind. fold (dispatch glslSource target stage).
  destruct (dispatch glslSource target stage w) as [r1 w1|what1 w1|]; try discriminate.
  destruct (success r1); discriminate.
Qed.

(** ** The facade: programs *)

(** C3.  [TranspileProgram] transpiles the vertex source first and the
    fragment source second, the latter in the world the former leaves.  A
    failing vertex result is returned as it is and the fragment source is
    not touched; a failing fragment result after a successful vertex stage
    is returned as it is; two successes give success=true, the two outputs
    under their banners, and an empty binary. *)
Theorem TranspileProgram_stages (vertexSource fragmentSource : string)
        (target : ShaderTarget) (w : World) :
  (forall vertResult w1,
      Transpile vertexSource target Vertex w = Returns vertResult w1 ->
      success vertResult = false ->
      TranspileProgram vertexSource fragmentSource target w = Returns vertResult w1)
  /\ (forall vertResult w1 fragResult w2,
         Transpile vertexSource target Vertex w = Returns vertResult w1 ->
         success vertResult = true ->
         Transpile fragmentSource target Fragment w1 = Returns fragResult w2 ->
         success fragResult = false ->
         TranspileProgram vertexSource fragmentSource target w = Returns fragResult w2)
  /\ (forall vertResult w1 fragResult w2,
         Transpile vertexSource target Vertex w = Returns vertResult w1 ->
         success vertResult = true ->
         Transpile fragmentSource target Fragment w1 = Returns fragResult w2 ->
         success fragResult = true ->
         TranspileProgram vertexSource fragmentSource target w
         = Returns (mkResult true
                      ("// === VERTEX SHADER ===" ++ nl ++ output vertResult
                       ++ nl ++ nl ++ "// === FRAGMENT SHADER ===" ++ nl
                       ++ output fragResult)
                      [] "") w2).
Proof.
  unfold TranspileProgram, mbind, Eff_bind. repeat split.
  - intros rv w1 Hv Hs. rewrite Hv, Hs. reflexivity.
  - intros rv w1 rf w2 Hv Hs Hf Hs'. rewrite Hv, Hs. cbn [negb].
    rewrite Hf, Hs'. reflexivity.
  - intros rv w1 rf w2 Hv Hs Hf Hs'. rewrite Hv, Hs. cbn [negb].
    rewrite Hf, Hs'. reflexivity.
Qed.

Lemma TranspileProgram_stages_witness :
  let ok := "Shader transpilation successful" in
  let w1 := Samples.logged Info ok
              (Samples.assembled "C:/VulkanSDK/1.4" Samples.vertexShader
                                 Samples.configured) in
  let w2 := Samples.logged Info ok
              (Samples.assembled "C:/VulkanSDK/1.4" Samples.fragmentShader w1) in
  TranspileProgram "void main()" Samples.fragmentShader Vulkan Samples.configured
  = Returns (mkResult false "" []
               "ERROR: Missing curly braces in shader source. Please fix the problem.")
            Samples.configured
  /\ TranspileProgram Samples.vertexShader "" Vulkan Samples.configured
     = Returns (mkResult false "" [] "Input shader source is empty") w1
  /\ TranspileProgram Samples.vertexShader Samples.fragmentShader Vulkan
                      Samples.configured
     = Returns (mkResult true
                  ("// === VERTEX SHADER ===" ++ nl
                   ++ ("#version 450 core" ++ nl ++ nl ++ Samples.vertexShader)
                   ++ nl ++ nl ++ "// === FRAGMENT SHADER ===" ++ nl
                   ++ ("#version 450 core" ++ nl ++ nl ++ Samples.fragmentShader))
                  [] "") w2.
Proof.
  intros ok w1 w2.
  pose (rv := mkResult true ("#version 450 core" ++ nl ++ nl ++ Samples.vertexShader)
                       (words_of_bytes "abcdefgh") "SPIR-V compilation success!").
  pose (rf := mkResult true ("#version 450 core" ++ nl ++ nl ++ Samples.fragmentShader)
                       (words_of_bytes "abcdefgh") "SPIR-V compilation success!").
  assert (Hv : Transpile Samples.vertexShader Vulkan Vertex Samples.configured
               = Returns rv w1) by (vm_compute; reflexivity).
  assert (Hf : Transpile Samples.fragmentShader Vulkan Fragment w1 = Returns rf w2)
    by (vm_compute; reflexivity).
  split; [|split].
  - apply (proj1 (TranspileProgram_stages _ _ _ _)); vm_compute; reflexivity.
  - apply (proj1 (proj2 (TranspileProgram_stages _ _ _ _)) rv w1);
      [exact Hv | reflexivity | vm_compute; reflexivity | reflexivity].
  - apply (proj2 (proj2 (TranspileProgram_stages _ _ _ _)) rv w1 rf w2);
      [exact Hv | reflexivity | exact Hf | reflexivity].
Defined.

(* ===================================================================== *)
(** * Part III.  The helper functions and the rewrites                    *)
(* ===================================================================== *)

Import Parsing Shapes.

(** ** [SplitLines] *)

Lemma has_char_cons (c d : ascii) (s : string) :
  has_char c (String d s) <-> d = c \/ has_char c s.
Proof. reflexivity. Qed.

Lemma has_char_append (c : ascii) (u v : string) :
  has_char c (u ++ v) <-> has_char c u \/ has_char c v.
Proof.
  induction u as [|d u IH]; cbn [String.append].
  - split; [now right | intros [[]|H]; exact H].
  - rewrite !has_char_cons, IH. tauto.
Qed.

Lemma until_LF_break (line rest : string) :
  ~ has_char LF line -> until_LF (line ++ nl ++ rest) = (line, rest).
Proof.
  induction line as [|c line IH]; intros H.
  - reflexivity.
  - cbn [String.append until_LF].
    destruct (Ascii.eqb_spec c LF) as [->|_].
    + exfalso. apply H. now left.
    + rewrite IH; [reflexivity|]. intros H'. apply H. now right.
Qed.

Lemma until_LF_end (line : string) :
  ~ has_char LF line -> until_LF line = (line, "").
Proof.
  induction line as [|c line IH]; intros H.
  - reflexivity.
  - cbn [until_LF].
    destruct (Ascii.eqb_spec c LF) as [->|_].
    + exfalso. apply H. now left.
    + rewrite IH; [reflexivity|]. intros H'. apply H. now right.
Qed.

(** A text is a first line closed by a line break and the rest, or one
    line without line break. *)
Lemma first_line (s : string) :
  (exists line rest, s = line ++ nl ++ rest /\ ~ has_char LF line)
  \/ ~ has_char LF s.
Proof.
  induction s as [|c s IH].
  - right. intros [].
  - destruct (Ascii.eqb_spec c LF) as [->|Hc].
    + left. exists "", s. split; [reflexivity | intros []].
    + destruct IH as [(line & rest & -> & H)|H].
      * left. exists (String c line), rest. split; [reflexivity|].
        intros [E|H']; [now apply Hc | now apply H].
      * right. intros [E|H']; [now apply Hc | now apply H].
Qed.

Lemma SplitLines_loop_acc :
  forall fuel ss lines,
    SplitLines_loop fuel ss lines = (lines ++ SplitLines_loop fuel ss [])%list.
Proof.
  induction fuel as [|fuel IH]; intros ss lines; cbn [SplitLines_loop].
  - now rewrite app_nil_r.
  - destruct (getline ss) as [[line ss']|].
    + rewrite (IH ss' (lines ++ [line])%list), (IH ss' ([] ++ [line])%list).
      now rewrite <- app_assoc.
    + now rewrite app_nil_r.
Qed.

Lemma until_LF_length (s : string) :
  String.length (snd (until_LF s)) <= pred (String.length s).
Proof.
  induction s as [|c s IH]; [cbn; lia|].
  cbn [until_LF]. destruct (Ascii.eqb c LF); [cbn; lia|].
  destruct (until_LF s) as [l r]. cbn in *. lia.
Qed.

Lemma getline_shrinks (ss line ss' : string) :
  getline ss = Some (line, ss') -> String.length ss' < String.length ss.
Proof.
  destruct ss as [|c ss]; [discriminate|].
  unfold getline. intros E.
  assert (E' : until_LF (String c ss) = (line, ss')) by congruence.
  pose proof (until_LF_length (String c ss)) as H. rewrite E' in H.
  cbn in *. lia.
Qed.

Lemma SplitLines_loop_fuels :
  forall f1 f2 ss lines,
    String.length ss < f1 -> String.length ss < f2 ->
    SplitLines_loop f1 ss lines = SplitLines_loop f2 ss lines.
Proof.
  induction f1 as [|f1 IH]; intros [|f2] ss lines H1 H2; try lia.
  cbn [SplitLines_loop].
  destruct (getline ss) as [[line ss']|] eqn:E; [|reflexivity].
  apply getline_shrinks in E. apply IH; lia.
Qed.

Lemma SplitLines_loop_fuel (fuel : nat) (ss : string) :
  String.length ss < fuel -> SplitLines_loop fuel ss [] = SplitLines ss.
Proof. intros H. apply SplitLines_loop_fuels; lia. Qed.

Lemma SplitLines_empty : SplitLines "" = [].
Proof. reflexivity. Qed.

Lemma SplitLines_break (line rest : string) :
  ~ has_char LF line -> SplitLines (line ++ nl ++ rest) = line :: SplitLines rest.
Proof.
  intros H. unfold SplitLines at 1. cbn [SplitLines_loop].
  assert (E : getline (line ++ nl ++ rest) = Some (line, rest)).
  { unfold getline. rewrite <- (until_LF_break line rest H).
    destruct line; reflexivity. }
  rewrite E, SplitLines_loop_acc, SplitLines_loop_fuel; [reflexivity|].
  rewrite length_append. cbn. lia.
Qed.

Lemma SplitLines_last (line : string) :
  line <> "" -> ~ has_char LF line -> SplitLines line = [line].
Proof.
  intros Hne H. unfold SplitLines. cbn [SplitLines_loop].
  assert (E : getline line = Some (line, "")).
  { unfold getline. destruct line as [|c line]; [congruence|].
    now rewrite (until_LF_end _ H). }
  rewrite E. destruct (String.length line); reflexivity.
Qed.

Lemma last_of_Some (u : string) (c : ascii) (prev : option ascii) :
  u <> "" -> last_of u (Some c) = last_of u prev.
Proof. destruct u; [congruence | reflexivity]. Qed.

Lemma last_of_has_char (u : string) :
  forall c d, last_of u (Some d) = Some c -> c = d \/ has_char c u.
Proof.
  induction u as [|e u IH]; intros c d; cbn [last_of].
  - intros [= ->]. now left.
  - intros H. right. apply IH in H as [->|H]; [now left | now right].
Qed.

Lemma terminated_break (line rest : string) :
  terminated (line ++ nl ++ rest) = line ++ nl ++ terminated rest.
Proof.
  unfold terminated. rewrite !last_of_append. cbn [last_of nl String.append].
  destruct rest as [|c rest].
  - reflexivity.
  - cbn [last_of]. destruct (last_of rest (Some c)) as [e|] eqn:E.
    + destruct (Ascii.eqb e LF); [reflexivity|].
      now rewrite !append_assoc.
    + exfalso. clear -E. revert c E. induction rest; cbn; [discriminate | eauto].
Qed.

Lemma terminated_last (line : string) :
  line <> "" -> ~ has_char LF line -> terminated line = line ++ nl.
Proof.
  intros Hne H. unfold terminated.
  destruct line as [|c line]; [congruence|]. cbn [last_of].
  destruct (last_of line (Some c)) as [e|] eqn:E.
  - destruct (Ascii.eqb_spec e LF) as [->|_]; [|reflexivity].
    exfalso. apply H. apply last_of_has_char in E as [->|E]; [now left | now right].
  - exfalso. clear -E. revert c E. induction line; cbn; [discriminate | eauto].
Qed.

Lemma unlines_cons (line : string) (lines : list string) :
  unlines (line :: lines) = line ++ nl ++ unlines lines.
Proof.
  unfold unlines. cbn [map]. destruct lines as [|l ls].
  - cbn [map String.concat]. now rewrite append_nil_r.
  - cbn [map]. change (String.concat "" ((line ++ nl) :: ?x :: ?y))
      with ((line ++ nl) ++ "" ++ String.concat "" (x :: y)).
    cbn [String.append]. now rewrite append_assoc.
Qed.

(** X1.  Putting the lines of [SplitLines] together again, each with its
    line break, gives the source back, up to the line break that closes
    the last line; no line holds a line break. *)
Theorem SplitLines_unlines (source : string) :
  unlines (SplitLines source) = terminated source
  /\ Forall (fun line => ~ has_char LF line) (SplitLines source).
Proof.
  remember (String.length source) as n eqn:En.
  revert source En. induction n as [n IH] using lt_wf_ind. intros source ->.
  destruct (first_line source) as [(line & rest & -> & H)|H].
  - rewrite SplitLines_break, terminated_break by exact H.
    destruct (IH (String.length rest)) with (source := rest) as [E F];
      [rewrite !length_append; cbn; lia | reflexivity |].
    split; [|now constructor].
    now rewrite unlines_cons, E.
  - destruct source as [|c source].
    + split; [reflexivity | constructor].
    + rewrite SplitLines_last, terminated_last by (congruence || exact H).
      split; [now rewrite unlines_cons, append_nil_r | now repeat constructor].
Qed.

(** X2.  Lines without line breaks come back from [SplitLines] as they
    went in. *)
Theorem SplitLines_of_unlines (lines : list string) :
  Forall (fun line => ~ has_char LF line) lines ->
  SplitLines (unlines lines) = lines.
Proof.
  induction 1 as [|line lines H _ IH]; [reflexivity|].
  rewrite unlines_cons, SplitLines_break by exact H. now rewrite IH.
Qed.

Lemma SplitLines_of_unlines_witness :
  Forall (fun line => ~ has_char LF line) ["void main()"; "{"; ""; "}"]
  /\ SplitLines (unlines ["void main()"; "{"; ""; "}"]) = ["void main()"; "{"; ""; "}"].
Proof.
  assert (H : Forall (fun line => ~ has_char LF line) ["void main()"; "{"; ""; "}"]).
  { repeat constructor; intros H; cbn in H; intuition discriminate. }
  split; [exact H | exact (SplitLines_of_unlines _ H)].
Defined.

(** ** [ExtractIdentifier] *)

Lemma get_append (pre : string) :
  forall t i, String.get (String.length pre + i) (pre ++ t) = String.get i t.
Proof. induction pre as [|c pre IH]; intros t i; [reflexivity | apply IH]. Qed.

Lemma get_at (pre t : string) :
  String.get (String.length pre) (pre ++ t) = String.get 0 t.
Proof. rewrite <- (get_append pre t 0). f_equal. lia. Qed.

Lemma get_beyond (s : string) :
  forall pos, String.length s <= pos -> String.get pos s = None.
Proof.
  induction s as [|c s IH]; intros pos H; [reflexivity|].
  destruct pos as [|pos]; cbn in *; [lia | apply IH; lia].
Qed.

Lemma word_is_defined (c : ascii) : is_word c = true -> isalnum_defined c = true.
Proof.
  destruct c as [[] [] [] [] [] [] [] []]; vm_compute; congruence.
Qed.

Lemma is_word_test (c : ascii) : isalnum c || Ascii.eqb c "_" = is_word c.
Proof. reflexivity. Qed.

Lemma skip_loop_spec (skipped : string) :
  forall pre tail fuel,
    ascii_text skipped -> separators skipped ->
    match tail with String c _ => is_word c = true | EmptyString => True end ->
    String.length skipped <= fuel ->
    skip_loop fuel (pre ++ skipped ++ tail) (String.length pre)
    = Value (String.length pre + String.length skipped).
Proof.
  induction skipped as [|c skipped IH]; intros pre tail fuel Ha Hs Ht Hf.
  - cbn [String.append String.length]. rewrite Nat.add_0_r.
    destruct fuel as [|fuel]; [reflexivity|].
    cbn [skip_loop]. rewrite get_at.
    destruct tail as [|c tail]; [reflexivity|]. cbn [String.get].
    rewrite (word_is_defined c Ht). cbn [negb].
    rewrite <- is_word_test in Ht.
    destruct (isalnum c), (Ascii.eqb c "_"); try discriminate; reflexivity.
  - destruct fuel as [|fuel]; [cbn in Hf; lia|].
    unfold ascii_text, separators in *. cbn [all_chars] in Ha, Hs.
    apply andb_prop in Ha as [Hc Ha], Hs as [Hw Hs].
    cbn [skip_loop]. rewrite get_at. cbn [String.append String.get].
    rewrite Hc. cbn [negb].
    rewrite <- is_word_test in Hw.
    replace (negb (isalnum c) && negb (Ascii.eqb c "_")) with true
      by (destruct (isalnum c), (Ascii.eqb c "_"); try discriminate; reflexivity).
    specialize (IH (pre ++ String c "") tail fuel Ha Hs Ht).
    rewrite append_assoc, length_append in IH. cbn [String.append String.length] in *.
    rewrite Nat.add_1_r in IH. rewrite IH by lia. f_equal. lia.
Qed.

Lemma take_loop_spec (id : string) :
  forall pre rest fuel,
    all_chars is_word id = true ->
    match rest with
    | String c _ => is_word c = false /\ isalnum_defined c = true
    | EmptyString => True
    end ->
    String.length id <= fuel ->
    take_loop fuel (pre ++ id ++ rest) (String.length pre)
    = Value (String.length pre + String.length id).
Proof.
  induction id as [|c id IH]; intros pre rest fuel Hw Hr Hf.
  - cbn [String.append String.length]. rewrite Nat.add_0_r.
    destruct fuel as [|fuel]; [reflexivity|].
    cbn [take_loop]. rewrite get_at.
    destruct rest as [|c rest]; [reflexivity|]. cbn [String.get].
    destruct Hr as [Hc Hd]. rewrite Hd. cbn [negb].
    now rewrite is_word_test, Hc.
  - destruct fuel as [|fuel]; [cbn in Hf; lia|].
    cbn [all_chars] in Hw. apply andb_prop in Hw as [Hc Hw].
    cbn [take_loop]. rewrite get_at. cbn [String.append String.get].
    rewrite (word_is_defined c Hc). cbn [negb]. rewrite is_word_test, Hc.
    specialize (IH (pre ++ String c "") rest fuel Hw Hr).
    rewrite append_assoc, length_append in IH. cbn [String.append String.length] in *.
    rewrite Nat.add_1_r in IH. rewrite IH by lia. f_equal. lia.
Qed.

Lemma substring_middle (a : string) :
  forall b c, String.substring (String.length a) (String.length b) (a ++ b ++ c) = b.
Proof.
  induction a as [|x a IH]; intros b c.
  - exact (substring_prefix b c).
  - exact (IH b c).
Qed.

(** The identifier handed back: after [pre], the separators are skipped
    and the longest run of letters, digits and underscores is taken. *)
Lemma ExtractIdentifier_parts (pre skipped id rest : string) :
  ascii_text (skipped ++ id ++ rest) ->
  separators skipped -> all_chars is_word id = true -> stops is_word rest ->
  (id = "" -> rest = "") ->
  ExtractIdentifier (pre ++ skipped ++ id ++ rest) (String.length pre)
  = Value (id, String.length pre + String.length skipped + String.length id).
Proof.
  intros Ha Hs Hw Hr He. unfold ascii_text in Ha.
  rewrite !all_chars_append in Ha.
  apply andb_prop in Ha as [Ha1 Ha]. apply andb_prop in Ha as [Ha2 Ha3].
  unfold ExtractIdentifier.
  rewrite skip_loop_spec; [..|rewrite !length_append; lia]; try assumption.
  2:{ destruct id as [|c id].
      - now rewrite He.
      - cbn [all_chars] in Hw. cbn [String.append]. now apply andb_prop in Hw as [-> _]. }
  rewrite <- length_append, <- (append_assoc pre skipped).
  rewrite take_loop_spec; [..|rewrite !length_append; lia]; try assumption.
  2:{ destruct rest as [|c rest]; [exact I|]. cbn [all_chars] in Ha3.
      apply andb_prop in Ha3 as [-> _]. now split. }
  unfold substr. set (before := pre ++ skipped).
  replace (String.length (before ++ id ++ rest) <? String.length before)%nat
    with false by (symmetry; apply Nat.ltb_ge; rewrite !length_append; lia).
  replace (String.length before + String.length id - String.length before)
    with (String.length id) by lia.
  rewrite substring_middle. subst before.
  now rewrite length_append.
Qed.

Lemma split_run (p : ascii -> bool) (s : string) :
  exists u x, s = u ++ x /\ all_chars p u = true /\ stops p x.
Proof.
  induction s as [|c s (u & x & -> & Hu & Hx)].
  - exists "", "". now repeat split.
  - destruct (p c) eqn:E.
    + exists (String c u), x. cbn [all_chars]. rewrite E, Hu. now repeat split.
    + exists "", (String c (u ++ x)). now repeat split.
Qed.

Lemma split_at (s : string) :
  forall pos, pos <= String.length s ->
    exists tail, s = String.substring 0 pos s ++ tail
                 /\ String.length (String.substring 0 pos s) = pos.
Proof.
  induction s as [|c s IH]; intros [|pos] H; cbn in H; try lia.
  - now exists "".
  - now exists (String c s).
  - destruct (IH pos) as (tail & E & L); [lia|].
    exists tail. cbn [String.substring String.append String.length].
    now rewrite <- E, L.
Qed.

(** X3.  On a text of ASCII bytes and from a position within the text,
    [ExtractIdentifier] skips the characters that are no letters, digits
    or underscores, returns the longest run of such characters that
    follows, and leaves [pos] right behind it; when none follows, it
    returns the empty string and leaves [pos] at the end. *)
Theorem ExtractIdentifier_next (source : string) (pos : nat) :
  pos <= String.length source -> ascii_text source ->
  exists skipped id rest,
    source = String.substring 0 pos source ++ skipped ++ id ++ rest
    /\ separators skipped /\ all_chars is_word id = true /\ stops is_word rest
    /\ (id = "" -> rest = "")
    /\ ExtractIdentifier source pos
       = Value (id, pos + String.length skipped + String.length id).
Proof.
  intros Hpos Ha.
  destruct (split_at source pos Hpos) as (tail & E & L).
  destruct (split_run (fun c => negb (is_word c)) tail) as (skipped & x & -> & Hs & Hx).
  destruct (split_run is_word x) as (id & rest & -> & Hw & Hr).
  exists skipped, id, rest.
  assert (He : id = "" -> rest = "").
  { intros ->. destruct rest as [|c rest]; [reflexivity|].
    cbn in Hx, Hr. rewrite Hr in Hx. discriminate. }
  repeat (split; [assumption|]).
  assert (Ha' : ascii_text (skipped ++ id ++ rest)).
  { unfold ascii_text in *. rewrite E in Ha. now apply all_chars_suffix in Ha. }
  pose proof (ExtractIdentifier_parts (String.substring 0 pos source) skipped id rest
                Ha' Hs Hw Hr He) as R.
  rewrite L in R. now rewrite <- E in R.
Qed.

Lemma ExtractIdentifier_next_witness :
  exists skipped id rest,
    "  foo_1 = bar;" = String.substring 0 7 "  foo_1 = bar;" ++ skipped ++ id ++ rest
    /\ separators skipped /\ all_chars is_word id = true /\ stops is_word rest
    /\ (id = "" -> rest = "")
    /\ ExtractIdentifier "  foo_1 = bar;" 7
       = Value (id, 7 + String.length skipped + String.length id).
Proof.
  apply (ExtractIdentifier_next "  foo_1 = bar;" 7); [cbn; lia | reflexivity].
Defined.

(** X4.  At the end of the text [ExtractIdentifier] returns the empty
    string and leaves [pos] there; a position beyond the end makes it
    throw [std::out_of_range] (from [substr]), whatever the text. *)
Theorem ExtractIdentifier_at_or_beyond_end (source : string) (pos : nat) :
  String.length source <= pos ->
  if (pos =? String.length source)%nat
  then ExtractIdentifier source pos = Value ("", pos)
  else exists what, ExtractIdentifier source pos = Exception what.
Proof.
  intros H.
  assert (Hskip : forall fuel, skip_loop fuel source pos = Value pos).
  { intros [|fuel]; [reflexivity|]. cbn [skip_loop]. now rewrite get_beyond. }
  assert (Htake : forall fuel, take_loop fuel source pos = Value pos).
  { intros [|fuel]; [reflexivity|]. cbn [take_loop]. now rewrite get_beyond. }
  unfold ExtractIdentifier. rewrite Hskip, Htake. unfold substr.
  destruct (Nat.eqb_spec pos (String.length source)) as [->|Hne].
  - rewrite Nat.ltb_irrefl, Nat.sub_diag. f_equal. f_equal.
    clear. induction source as [|c s IH]; [reflexivity | exact IH].
  - replace (String.length source <? pos)%nat with true
      by (symmetry; apply Nat.ltb_lt; lia).
    eexists. reflexivity.
Qed.

Lemma ExtractIdentifier_at_or_beyond_end_witness :
  String.length "vec3 n;" <= 9
  /\ exists what, ExtractIdentifier "vec3 n;" 9 = Exception what.
Proof.
  split; [cbn; lia|].
  apply (ExtractIdentifier_at_or_beyond_end "vec3 n;" 9). cbn. lia.
Defined.

(** X5.  When the scan meets a byte from 0x80 to 0xFE before an
    identifier has begun, [std::isalnum] is called outside its domain:
    the call has no defined result. *)
Theorem ExtractIdentifier_non_ascii (pre skipped rest : string) (c : ascii) :
  ascii_text skipped -> separators skipped -> isalnum_defined c = false ->
  ExtractIdentifier (pre ++ skipped ++ String c rest) (String.length pre)
  = Unspecified.
Proof.
  intros Ha Hs Hc. unfold ExtractIdentifier.
  assert (E : forall fuel, String.length skipped < fuel ->
              skip_loop fuel (pre ++ skipped ++ String c rest) (String.length pre)
              = Unspecified).
  { clear -Ha Hs Hc. revert pre Ha Hs.
    induction skipped as [|d skipped IH]; intros pre Ha Hs [|fuel] Hf;
      try (cbn in Hf; lia).
    - cbn [skip_loop String.append]. rewrite get_at. cbn [String.get].
      now rewrite Hc.
    - unfold ascii_text, separators in *. cbn [all_chars] in Ha, Hs.
      apply andb_prop in Ha as [Hd Ha], Hs as [Hw Hs].
      cbn [skip_loop]. rewrite get_at. cbn [String.append String.get].
      rewrite Hd. cbn [negb]. rewrite <- is_word_test in Hw.
      replace (negb (isalnum d) && negb (Ascii.eqb d "_")) with true
        by (destruct (isalnum d), (Ascii.eqb d "_"); try discriminate; reflexivity).
      specialize (IH (pre ++ String d "") Ha Hs fuel).
      rewrite append_assoc, length_append in IH.
      cbn [String.append String.length] in *.
      rewrite Nat.add_1_r in IH. apply IH. lia. }
  rewrite E; [reflexivity|]. rewrite !length_append. cbn. lia.
Qed.

Lemma ExtractIdentifier_non_ascii_witness :
  ascii_text "; " /\ separators "; "
  /\ isalnum_defined (ascii_of_nat 233) = false
  /\ ExtractIdentifier ("vec3 n" ++ "; " ++ String (ascii_of_nat 233) "t")
                       (String.length "vec3 n") = Unspecified.
Proof.
  split; [reflexivity|]. split; [reflexivity|]. split; [reflexivity|].
  apply (ExtractIdentifier_non_ascii "vec3 n" "; " "t" (ascii_of_nat 233));
    reflexivity.
Defined.

(** ** Running the matcher forwards *)

Section ExecForward.
Context {R : Type}.

(** A greedy run followed by a continuation that accepts after the
    longest run ends there. *)
Lemma star_greedy_run (cs : charset) (k : option ascii -> string -> option R)
      (u : string) :
  forall prev s' r,
    all_chars (in_charset cs) u = true -> stops (in_charset cs) s' ->
    k (last_of u prev) s' = Some r ->
    star true cs k prev (u ++ s') = Some r.
Proof.
  induction u as [|c u IH]; intros prev s' r Hu Hs Hk.
  - cbn [String.append last_of] in *.
    destruct s' as [|c s']; [exact Hk|]. cbn [star]. cbn in Hs. now rewrite Hs.
  - cbn [all_chars] in Hu. apply andb_prop in Hu as [Hc Hu].
    cbn [String.append star]. rewrite Hc.
    now rewrite (IH (Some c) s' r Hu Hs Hk).
Qed.

Lemma exec_Seq (r1 r2 : regex) (k : captures -> option ascii -> string -> option R)
      caps prev s :
  exec (Seq r1 r2) k caps prev s
  = exec r1 (fun caps' prev' s' => exec r2 k caps' prev' s') caps prev s.
Proof. reflexivity. Qed.

Lemma exec_Group (i : nat) (r : regex)
      (k : captures -> option ascii -> string -> option R) caps prev s :
  exec (Group i r) k caps prev s
  = exec r (fun caps' prev' s' => k ((i, consumed s s') :: caps') prev' s')
         caps prev s.
Proof. reflexivity. Qed.

Lemma exec_Lit (l : string) (k : captures -> option ascii -> string -> option R)
      caps prev s' :
  exec (Lit l) k caps prev (l ++ s') = k caps (last_of l prev) s'.
Proof. apply lit_append. Qed.

Lemma exec_WordBoundary (k : captures -> option ascii -> string -> option R)
      caps prev s :
  at_word_boundary prev s = true ->
  exec WordBoundary k caps prev s = k caps prev s.
Proof. intros H. cbn [exec]. now rewrite H. Qed.

Lemma exec_many_run (cs : charset)
      (k : captures -> option ascii -> string -> option R) caps prev u s' r :
  all_chars (in_charset cs) u = true -> stops (in_charset cs) s' ->
  k caps (last_of u prev) s' = Some r ->
  exec (many cs) k caps prev (u ++ s') = Some r.
Proof. intros. now apply star_greedy_run. Qed.

Lemma exec_plus_run (cs : charset)
      (k : captures -> option ascii -> string -> option R) caps prev u s' r :
  u <> "" -> all_chars (in_charset cs) u = true -> stops (in_charset cs) s' ->
  k caps (last_of u prev) s' = Some r ->
  exec (plus cs) k caps prev (u ++ s') = Some r.
Proof.
  intros Hne Hu Hs Hk. destruct u as [|c u]; [congruence|].
  cbn [all_chars] in Hu. apply andb_prop in Hu as [Hc Hu].
  cbn [plus exec String.append]. rewrite Hc.
  now apply star_greedy_run.
Qed.

(** Continuations that agree on what the pattern can reach give the same
    result. *)
Lemma lit_agree (l : string) (k1 k2 : option ascii -> string -> option R) :
  forall prev s,
    (forall s', s = l ++ s' -> k1 (last_of l prev) s' = k2 (last_of l prev) s') ->
    lit l k1 prev s = lit l k2 prev s.
Proof.
  induction l as [|a l IH]; intros prev s H; cbn [lit].
  - now apply H.
  - destruct s as [|c s]; [reflexivity|].
    destruct (Ascii.eqb_spec a c) as [->|_]; [|reflexivity].
    apply IH. intros s' ->. now apply (H s').
Qed.

Lemma star_agree (greedy : bool) (cs : charset)
      (k1 k2 : option ascii -> string -> option R) (s : string) :
  forall prev,
    (forall u s', s = u ++ s' -> all_chars (in_charset cs) u = true ->
                  k1 (last_of u prev) s' = k2 (last_of u prev) s') ->
    star greedy cs k1 prev s = star greedy cs k2 prev s.
Proof.
  induction s as [|c s IH]; intros prev H; cbn [star].
  - now apply (H "" "").
  - assert (E0 : k1 prev (String c s) = k2 prev (String c s))
      by now apply (H "" (String c s)).
    destruct (in_charset cs c) eqn:Hc; [|exact E0].
    assert (E1 : star greedy cs k1 (Some c) s = star greedy cs k2 (Some c) s).
    { apply IH. intros u s' -> Hu. apply (H (String c u) s'); [reflexivity|].
      cbn [all_chars]. now rewrite Hc. }
    rewrite E0, E1. reflexivity.
Qed.

Lemma exec_agree (r : regex) :
  forall (k1 k2 : captures -> option ascii -> string -> option R) caps prev s,
    (forall caps' prev' s', Matches r caps prev s caps' prev' s' ->
                            k1 caps' prev' s' = k2 caps' prev' s') ->
    exec r k1 caps prev s = exec r k2 caps prev s.
Proof.
  induction r as [l|greedy atleast1 cs| |i r IH|r1 IH1 r2 IH2];
    intros k1 k2 caps prev s H; cbn [exec].
  - apply lit_agree. intros s' ->. apply H. constructor.
  - destruct atleast1.
    + destruct s as [|c s]; [reflexivity|].
      destruct (in_charset cs c) eqn:Hc; [|reflexivity].
      apply star_agree. intros u s' -> Hu.
      apply (H caps (last_of (String c u) prev) s').
      apply (M_Rep greedy true cs (String c u)); [|discriminate].
      cbn [all_chars]. now rewrite Hc.
    + apply star_agree. intros u s' -> Hu. apply H.
      apply M_Rep; [exact Hu | discriminate].
  - destruct (at_word_boundary prev s) eqn:Hb; [|reflexivity].
    apply H. now constructor.
  - apply IH. intros caps' prev' s' Hm. apply H.
    econstructor; [exact Hm | reflexivity].
  - apply IH1. intros caps1 prev1 s1 Hm1.
    apply IH2. intros caps2 prev2 s2 Hm2. apply H.
    econstructor; [exact Hm1 | exact Hm2].
Qed.

(** The character behind the cursor matters to the matcher only through
    [\b], and there only as a word character or not. *)
Lemma lit_behind (f : option ascii -> option ascii) (l : string)
      (k : option ascii -> string -> option R) :
  (forall c, f (Some c) = Some c) ->
  forall prev s, lit l k (f prev) s = lit l (fun p s' => k (f p) s') prev s.
Proof.
  intros Hf. induction l as [|a l IH]; intros prev s; cbn [lit]; [reflexivity|].
  destruct s as [|c s]; [reflexivity|].
  destruct (Ascii.eqb a c); [|reflexivity].
  now rewrite <- IH, Hf.
Qed.

Lemma star_behind (f : option ascii -> option ascii) (greedy : bool) (cs : charset)
      (k : option ascii -> string -> option R) :
  (forall c, f (Some c) = Some c) ->
  forall s prev,
    star greedy cs k (f prev) s = star greedy cs (fun p s' => k (f p) s') prev s.
Proof.
  intros Hf. induction s as [|c s IH]; intros prev; cbn [star]; [reflexivity|].
  destruct (in_charset cs c); [|reflexivity].
  now rewrite <- IH, Hf.
Qed.

Lemma exec_behind (f : option ascii -> option ascii) (r : regex) :
  (forall c, f (Some c) = Some c) ->
  (uses_boundary r = true -> forall p, word_behind (f p) = word_behind p) ->
  forall (k : captures -> option ascii -> string -> option R) caps prev s,
    exec r k caps (f prev) s
    = exec r (fun caps' p s' => k caps' (f p) s') caps prev s.
Proof.
  intros Hf.
  induction r as [l|greedy atleast1 cs| |i r IH|r1 IH1 r2 IH2];
    intros Hb k caps prev s; cbn [exec].
  - now apply lit_behind.
  - destruct atleast1.
    + destruct s as [|c s]; [reflexivity|].
      destruct (in_charset cs c); [|reflexivity].
      now rewrite <- (star_behind f greedy cs (k caps) Hf s (Some c)), Hf.
    + now apply star_behind.
  - unfold at_word_boundary.
    change (match f prev with Some c => is_word c | None => false end)
      with (word_behind (f prev)).
    rewrite (Hb eq_refl prev). reflexivity.
  - apply IH. exact Hb.
  - cbn [uses_boundary] in Hb.
    rewrite IH1 by (intros E; apply Hb; now rewrite E).
    apply exec_agree. intros caps1 prev1 s1 _.
    apply IH2. intros E. apply Hb. rewrite E. apply orb_true_r.
Qed.

End ExecForward.

Lemma last_of_is_Some (u : string) :
  forall c, exists x, last_of u (Some c) = Some x.
Proof. induction u as [|d u IH]; intros c; cbn [last_of]; eauto. Qed.

(** After a match the search goes on with the last character of the
    match behind the cursor; it finds what a search of the rest alone
    finds, when the pattern has no [\b] or that character is no word
    character. *)
Lemma match_here_behind (re : regex) (c0 : ascii) (s : string) :
  1 <= min_len re ->
  uses_boundary re = false \/ is_word c0 = false ->
  match_here re (Some c0) s = match_here re None s.
Proof.
  intros Hmin Hb. unfold match_here.
  change (Some c0) with (start_over c0 None).
  rewrite (exec_behind (start_over c0)).
  - apply exec_agree. intros caps' prev' s' Hm.
    apply Matches_consumes in Hm as (u & -> & -> & Hu).
    destruct u as [|c u]; [cbn in Hu; lia|].
    cbn [last_of]. destruct (last_of_is_Some u c) as [x ->]. reflexivity.
  - reflexivity.
  - intros E [c|]; [reflexivity|]. cbn.
    destruct Hb as [Hb|Hb]; [congruence | exact Hb].
Qed.

Lemma search_from_behind (re : regex) (c0 : ascii) (pre s : string) :
  1 <= min_len re ->
  uses_boundary re = false \/ is_word c0 = false ->
  search_from re pre (Some c0) s = search_from re pre None s.
Proof.
  intros Hmin Hb. destruct s as [|c s]; cbn [search_from];
    now rewrite (match_here_behind re c0 _ Hmin Hb).
Qed.

Lemma replace_loop_behind (re : regex) (fmt : list piece) (c0 : ascii)
      (fuel : nat) (s : string) :
  1 <= min_len re ->
  uses_boundary re = false \/ is_word c0 = false ->
  replace_loop fuel re fmt (Some c0) s = replace_loop fuel re fmt None s.
Proof.
  intros Hmin Hb. destruct fuel as [|fuel]; [reflexivity|].
  cbn [replace_loop]. unfold regex_search.
  now rewrite (search_from_behind re c0 "" s Hmin Hb).
Qed.

Lemma search_from_here (re : regex) (pre : string) (prev : option ascii)
      (s : string) caps p s' :
  match_here re prev s = Some (caps, p, s') ->
  search_from re pre prev s = Some (mk_smatch pre (consumed s s') caps p s').
Proof. intros H. destruct s; cbn [search_from]; now rewrite H. Qed.

(** A match at the very beginning of the text is rewritten, and the rest
    of the text is rewritten as if it stood alone. *)
Lemma regex_replace_head (re : regex) (fmt : list piece) (s rest : string)
      caps (c : ascii) :
  1 <= min_len re ->
  uses_boundary re = false \/ is_word c = false ->
  match_here re None s = Some (caps, Some c, rest) ->
  regex_replace s re fmt = format fmt caps ++ regex_replace rest re fmt.
Proof.
  intros Hmin Hb H. unfold regex_replace at 1. cbn [replace_loop].
  unfold regex_search. rewrite (search_from_here re "" None s caps (Some c) rest H).
  cbn [m_prefix m_caps m_last m_suffix String.append].
  rewrite (replace_loop_behind re fmt c _ rest Hmin Hb).
  f_equal. apply replace_loop_fuel; [exact Hmin| |lia].
  apply match_here_Some in H as [Hm _].
  apply Matches_consumes in Hm as (u & -> & _ & Hu).
  rewrite length_append. lia.
Qed.

(** Where the pattern occurs nowhere, nothing is rewritten. *)
Lemma replace_loop_nothing (re : regex) (fmt : list piece) (fuel : nat)
      (prev : option ascii) (s : string) :
  (forall a b, s = a ++ b -> ~ occurs_at re (last_of a prev) b) ->
  replace_loop fuel re fmt prev s = s.
Proof.
  intros H. destruct fuel as [|fuel]; [reflexivity|]. cbn [replace_loop].
  destruct (regex_search re prev s) as [m|] eqn:E; [|reflexivity].
  apply search_from_Some in E as (skipped & _ & E & Hm & _).
  exfalso. apply (H skipped (m_str m ++ m_suffix m) E). red. eauto.
Qed.

(** ** The rewrites on a declaration at the beginning of the text *)

Lemma varyingRegex_min_len (keyword : string) : 1 <= min_len (varyingRegex keyword).
Proof. cbn. lia. Qed.

Lemma varying_match_here (keyword : string) (prev : option ascii)
      (ws1 type ws2 name rest : string) :
  at_word_boundary prev (keyword ++ ws1 ++ type ++ ws2 ++ name ++ ";" ++ rest) = true ->
  blank ws1 -> identifier type -> blank ws2 -> identifier name ->
  match_here (varyingRegex keyword) prev
             (keyword ++ ws1 ++ type ++ ws2 ++ name ++ ";" ++ rest)
  = Some ([(2, name); (1, type)], Some ";"%char, rest).
Proof.
  intros Hb [Hn1 Hw1] [HnT HT] [Hn2 Hw2] [HnN HN].
  unfold match_here, varyingRegex.
  rewrite exec_Seq, (exec_WordBoundary _ _ _ _ Hb).
  rewrite exec_Seq, exec_Lit.
  rewrite exec_Seq. apply exec_plus_run; try assumption.
  { apply stops_identifier. now split. }
  rewrite exec_Seq, exec_Group. apply exec_plus_run; try assumption.
  { apply stops_blank. now split. }
  rewrite consumed_append.
  rewrite exec_Seq. apply exec_plus_run; try assumption.
  { apply stops_identifier. now split. }
  rewrite exec_Seq, exec_Group. apply exec_plus_run; try assumption.
  { reflexivity. }
  rewrite consumed_append, exec_Lit. reflexivity.
Qed.

(** X6.  A varying declaration at the beginning of the text, whatever
    its type, its name and the white space in it, is rewritten to
    [<type> <name> : TEXCOORD0;] (HLSL; [out] in a vertex shader, [in] in
    a fragment shader) or [<type> <name> [[user(locn0)]];] (Metal vertex
    shader), always with index 0; the rest of the text is converted as
    if it stood alone. *)
Theorem ConvertVaryingDeclarations_head (ws1 type ws2 name rest : string) :
  blank ws1 -> identifier type -> blank ws2 -> identifier name ->
  ConvertVaryingDeclarations ("out" ++ ws1 ++ type ++ ws2 ++ name ++ ";" ++ rest)
                             HLSL Vertex
  = type ++ " " ++ name ++ " : TEXCOORD0;"
    ++ ConvertVaryingDeclarations rest HLSL Vertex
  /\ ConvertVaryingDeclarations ("in" ++ ws1 ++ type ++ ws2 ++ name ++ ";" ++ rest)
                                HLSL Fragment
     = type ++ " " ++ name ++ " : TEXCOORD0;"
       ++ ConvertVaryingDeclarations rest HLSL Fragment
  /\ ConvertVaryingDeclarations ("out" ++ ws1 ++ type ++ ws2 ++ name ++ ";" ++ rest)
                                Metal Vertex
     = type ++ " " ++ name ++ " [[user(locn0)]];"
       ++ ConvertVaryingDeclarations rest Metal Vertex.
Proof.
  intros H1 HT H2 HN. unfold ConvertVaryingDeclarations.
  split; [|split].
  - rewrite (regex_replace_head _ _ _ rest [(2, name); (1, type)] ";"%char
               (varyingRegex_min_len _) (or_intror eq_refl)
               (varying_match_here "out" None ws1 type ws2 name rest eq_refl H1 HT H2 HN)).
    cbn [format sub Nat.eqb]. now rewrite <- !append_assoc, append_nil_r.
  - rewrite (regex_replace_head _ _ _ rest [(2, name); (1, type)] ";"%char
               (varyingRegex_min_len _) (or_intror eq_refl)
               (varying_match_here "in" None ws1 type ws2 name rest eq_refl H1 HT H2 HN)).
    cbn [format sub Nat.eqb]. now rewrite <- !append_assoc, append_nil_r.
  - rewrite (regex_replace_head _ _ _ rest [(2, name); (1, type)] ";"%char
               (varyingRegex_min_len _) (or_intror eq_refl)
               (varying_match_here "out" None ws1 type ws2 name rest eq_refl H1 HT H2 HN)).
    cbn [format sub Nat.eqb]. now rewrite <- !append_assoc, append_nil_r.
Qed.

Lemma ConvertVaryingDeclarations_head_witness :
  ConvertVaryingDeclarations
    ("out" ++ " " ++ "vec3" ++ " " ++ "FragPos" ++ ";" ++ " out vec2 uv;") HLSL Vertex
  = "vec3" ++ " " ++ "FragPos" ++ " : TEXCOORD0;"
    ++ ConvertVaryingDeclarations " out vec2 uv;" HLSL Vertex.
Proof.
  refine (proj1 (ConvertVaryingDeclarations_head
                   " " "vec3" " " "FragPos" " out vec2 uv;" _ _ _ _));
    split; (discriminate || reflexivity).
Defined.

Lemma stops_after_spaces (p : ascii -> bool) (w x : string) :
  (forall c, isspace c = true -> p c = false) ->
  spaces w -> stops p x -> stops p (w ++ x).
Proof.
  intros Hp Hw Hx. destruct w as [|c w]; [exact Hx|].
  unfold spaces in Hw. cbn [all_chars] in Hw. apply andb_prop in Hw as [Hc _].
  cbn. now apply Hp.
Qed.

Lemma attr_match_here (prev : option ascii)
      (w0 w1 w2 w3 literal w4 w5 ws6 type ws7 name rest : string) :
  spaces w0 -> spaces w1 -> spaces w2 -> spaces w3 -> number literal ->
  spaces w4 -> spaces w5 -> blank ws6 -> identifier type -> blank ws7 ->
  identifier name ->
  match_here attrRegex prev
    ("layout" ++ w0 ++ "(" ++ w1 ++ "location" ++ w2 ++ "=" ++ w3 ++ literal
       ++ w4 ++ ")" ++ w5 ++ "in" ++ ws6 ++ type ++ ws7 ++ name ++ ";" ++ rest)
  = Some ([(3, name); (2, type); (1, literal)], Some ";"%char, rest).
Proof.
  intros H0 H1 H2 H3 [HnL HL] H4 H5 [Hn6 H6] [HnT HT] [Hn7 H7] [HnN HN].
  unfold match_here, attrRegex.
  rewrite exec_Seq, exec_Lit.
  rewrite exec_Seq. apply exec_many_run; [assumption | reflexivity |].
  rewrite exec_Seq, exec_Lit.
  rewrite exec_Seq. apply exec_many_run; [assumption | reflexivity |].
  rewrite exec_Seq, exec_Lit.
  rewrite exec_Seq. apply exec_many_run; [assumption | reflexivity |].
  rewrite exec_Seq, exec_Lit.
  rewrite exec_Seq. apply exec_many_run; [assumption | |].
  { apply stops_number. now split. }
  rewrite exec_Seq, exec_Group. apply exec_plus_run; try assumption.
  { apply stops_after_spaces; [exact space_is_not_digit | assumption | reflexivity]. }
  rewrite consumed_append.
  rewrite exec_Seq. apply exec_many_run; [assumption | reflexivity |].
  rewrite exec_Seq, exec_Lit.
  rewrite exec_Seq. apply exec_many_run; [assumption | reflexivity |].
  rewrite exec_Seq, exec_Lit.
  rewrite exec_Seq. apply exec_plus_run; try assumption.
  { apply stops_identifier. now split. }
  rewrite exec_Seq, exec_Group. apply exec_plus_run; try assumption.
  { apply stops_blank. now split. }
  rewrite consumed_append.
  rewrite exec_Seq. apply exec_plus_run; try assumption.
  { apply stops_identifier. now split. }
  rewrite exec_Seq, exec_Group. apply exec_plus_run; try assumption.
  { reflexivity. }
  rewrite consumed_append, exec_Lit. reflexivity.
Qed.

Lemma attrRegex_min_len : 1 <= min_len attrRegex.
Proof. cbn. lia. Qed.

(** X7.  An attribute declaration at the beginning of a vertex shader,
    whatever its location literal, type, name and white space, is
    rewritten to [<type> <name> : TEXCOORD<literal>;] (HLSL) or
    [<type> <name> [[attribute(<literal>)]];] (Metal).  The literal is
    copied as text: its size does not matter here, unlike in
    [ExtractAttributes].  The rest of the text is converted as if it stood
    alone. *)
Theorem ConvertAttributeDeclarations_head
        (w0 w1 w2 w3 literal w4 w5 ws6 type ws7 name rest : string) :
  spaces w0 -> spaces w1 -> spaces w2 -> spaces w3 -> number literal ->
  spaces w4 -> spaces w5 -> blank ws6 -> identifier type -> blank ws7 ->
  identifier name ->
  ConvertAttributeDeclarations
    ("layout" ++ w0 ++ "(" ++ w1 ++ "location" ++ w2 ++ "=" ++ w3 ++ literal
       ++ w4 ++ ")" ++ w5 ++ "in" ++ ws6 ++ type ++ ws7 ++ name ++ ";" ++ rest)
    HLSL Vertex
  = type ++ " " ++ name ++ " : TEXCOORD" ++ literal ++ ";"
    ++ ConvertAttributeDeclarations rest HLSL Vertex
  /\ ConvertAttributeDeclarations
       ("layout" ++ w0 ++ "(" ++ w1 ++ "location" ++ w2 ++ "=" ++ w3 ++ literal
          ++ w4 ++ ")" ++ w5 ++ "in" ++ ws6 ++ type ++ ws7 ++ name ++ ";" ++ rest)
       Metal Vertex
     = type ++ " " ++ name ++ " [[attribute(" ++ literal ++ ")]];"
       ++ ConvertAttributeDeclarations rest Metal Vertex.
Proof.
  intros H0 H1 H2 H3 HL H4 H5 H6 HT H7 HN.
  pose proof (attr_match_here None w0 w1 w2 w3 literal w4 w5 ws6 type ws7 name rest
                H0 H1 H2 H3 HL H4 H5 H6 HT H7 HN) as Hm.
  unfold ConvertAttributeDeclarations. split.
  - rewrite (regex_replace_head _ _ _ rest _ ";"%char
               attrRegex_min_len (or_introl eq_refl) Hm).
    cbn [format sub Nat.eqb]. now rewrite <- !append_assoc, append_nil_r.
  - rewrite (regex_replace_head _ _ _ rest _ ";"%char
               attrRegex_min_len (or_introl eq_refl) Hm).
    cbn [format sub Nat.eqb]. now rewrite <- !append_assoc, append_nil_r.
Qed.

Lemma ConvertAttributeDeclarations_head_witness :
  ConvertAttributeDeclarations
    ("layout" ++ " " ++ "(" ++ "" ++ "location" ++ " " ++ "=" ++ " " ++ "99999999999"
       ++ "" ++ ")" ++ " " ++ "in" ++ " " ++ "vec3" ++ " " ++ "aPos" ++ ";"
       ++ " void main() {}")
    HLSL Vertex
  = "vec3" ++ " " ++ "aPos" ++ " : TEXCOORD" ++ "99999999999" ++ ";"
    ++ ConvertAttributeDeclarations " void main() {}" HLSL Vertex.
Proof.
  refine (proj1 (ConvertAttributeDeclarations_head
                   " " "" " " " " "99999999999" "" " " " " "vec3" " " "aPos"
                   " void main() {}" _ _ _ _ _ _ _ _ _ _ _));
    try (split; (discriminate || reflexivity)); reflexivity.
Defined.

Lemma mathRegex_min_len : 1 <= min_len mathRegex.
Proof. cbn. lia. Qed.

Lemma operand_is_not_space (c : ascii) :
  in_charset operandClass c = true -> isspace c = false.
Proof.
  destruct c as [[] [] [] [] [] [] [] []]; vm_compute; congruence.
Qed.

Lemma math_match_here (prev : option ascii) (left ws1 ws2 right rest : string) :
  identifier left -> spaces ws1 -> spaces ws2 -> operand right ->
  stops (in_charset operandClass) rest ->
  exists c,
    match_here mathRegex prev (left ++ ws1 ++ "*" ++ ws2 ++ right ++ rest)
    = Some ([(2, right); (1, left)], Some c, rest).
Proof.
  intros [HnL HL] H1 H2 [HnR HR] Hrest.
  destruct right as [|c right]; [congruence|].
  destruct (last_of_is_Some right c) as [x Hx].
  exists x. unfold match_here, mathRegex.
  rewrite exec_Seq, exec_Group. apply exec_plus_run; try assumption.
  { apply stops_after_spaces; [exact space_is_not_word | assumption | reflexivity]. }
  rewrite consumed_append.
  rewrite exec_Seq. apply exec_many_run; [assumption | reflexivity |].
  rewrite exec_Seq, exec_Lit.
  rewrite exec_Seq. apply exec_many_run; [assumption | |].
  { cbn [all_chars] in HR. apply andb_prop in HR as [Hc _].
    cbn. now apply operand_is_not_space. }
  rewrite exec_Group.
  apply (exec_plus_run operandClass); try assumption.
  rewrite consumed_append. cbn [last_of]. now rewrite Hx.
Qed.

(** X8.  A product at the beginning of the text, [<left> * <right>] with
    any white space around the star, is rewritten to
    [mul(<left>, <right>)]; the rest of the text is converted as if it
    stood alone. *)
Theorem ConvertMatrixOperations_head (left ws1 ws2 right rest : string) :
  identifier left -> spaces ws1 -> spaces ws2 -> operand right ->
  stops (in_charset operandClass) rest ->
  ConvertMatrixOperations (left ++ ws1 ++ "*" ++ ws2 ++ right ++ rest) HLSL
  = "mul(" ++ left ++ ", " ++ right ++ ")" ++ ConvertMatrixOperations rest HLSL.
Proof.
  intros HL H1 H2 HR Hrest.
  destruct (math_match_here None left ws1 ws2 right rest HL H1 H2 HR Hrest) as [c Hm].
  unfold ConvertMatrixOperations.
  rewrite (regex_replace_head _ _ _ rest _ c mathRegex_min_len (or_introl eq_refl) Hm).
  cbn [format sub Nat.eqb]. now rewrite <- !append_assoc, append_nil_r.
Qed.

Lemma ConvertMatrixOperations_head_witness :
  ConvertMatrixOperations ("model" ++ " " ++ "*" ++ " " ++ "vec4(aPos" ++ ", 1.0);") HLSL
  = "mul(" ++ "model" ++ ", " ++ "vec4(aPos" ++ ")"
    ++ ConvertMatrixOperations ", 1.0);" HLSL.
Proof.
  refine (ConvertMatrixOperations_head "model" " " " " "vec4(aPos" ", 1.0);" _ _ _ _ _);
    try (split; (discriminate || reflexivity)); reflexivity.
Defined.

(** ** Where the rewrites change nothing *)

Lemma regex_replace_nothing (re : regex) (fmt : list piece) (s : string) :
  (forall a b, s = a ++ b -> ~ occurs_at re (last_of a None) b) ->
  regex_replace s re fmt = s.
Proof. apply replace_loop_nothing. Qed.

Lemma mathRegex_shape caps0 p s caps p' s' :
  Matches mathRegex caps0 p s caps p' s' ->
  exists left ws1 ws2 right,
    s = left ++ ws1 ++ "*" ++ ws2 ++ right ++ s'
    /\ identifier left /\ spaces ws1 /\ spaces ws2 /\ operand right.
Proof.
  unfold mathRegex, plus, many. intros H. invert_match.
  eexists _, _, _, _. split; [reflexivity|].
  unfold identifier, spaces, operand. repeat split; auto.
Qed.

Lemma word_shape (w : string) caps0 p s caps p' s' :
  Matches (word w) caps0 p s caps p' s' -> s = w ++ s' /\ caps = caps0.
Proof. unfold word. intros H. invert_match. now split. Qed.

(** X9.  A text without a star is left as it is by
    [ConvertMatrixOperations], for every target. *)
Theorem ConvertMatrixOperations_without_star (source : string) (target : ShaderTarget) :
  ~ has_char "*" source -> ConvertMatrixOperations source target = source.
Proof.
  intros H. destruct target; try reflexivity.
  unfold ConvertMatrixOperations. apply regex_replace_nothing.
  intros a b -> (caps & p & s' & Hm). apply H.
  apply mathRegex_shape in Hm as (left & ws1 & ws2 & right & -> & _).
  rewrite !has_char_append. right. right. right. left. now left.
Qed.

Lemma ConvertMatrixOperations_without_star_witness :
  ~ has_char "*" "void main() { color = vec4(1.0); }"
  /\ ConvertMatrixOperations "void main() { color = vec4(1.0); }" HLSL
     = "void main() { color = vec4(1.0); }".
Proof.
  assert (H : ~ has_char "*" "void main() { color = vec4(1.0); }").
  { intros H. cbn in H. intuition discriminate. }
  split; [exact H | exact (ConvertMatrixOperations_without_star _ HLSL H)].
Defined.

Lemma find_none (t s : string) :
  t <> "" -> npos (find s t) = true -> ~ contains t s.
Proof.
  intros Ht H (a & b & ->). unfold find in H.
  destruct (String.index 0 t (a ++ t ++ b)) as [n|] eqn:E; [discriminate|].
  apply (String.index_correct3 0 (String.length a) t _ E Ht); [lia|].
  apply substring_middle.
Qed.

Lemma regex_replace_word_absent (w source : string) (fmt : list piece) :
  w <> "" -> npos (find source w) = true ->
  regex_replace source (word w) fmt = source.
Proof.
  intros Hne Hw. apply regex_replace_nothing.
  intros a b -> (caps & p & s' & Hm).
  apply (find_none w _ Hne Hw).
  apply word_shape in Hm as [-> _]. now exists a, s'.
Qed.

(** X10.  A text in which [find] meets neither [gl_Position] nor
    [gl_FragColor] is left as it is by [ReplaceGLSLBuiltins], for every
    target and stage. *)
Theorem ReplaceGLSLBuiltins_without_builtins
        (source : string) (target : ShaderTarget) (stage : ShaderStage) :
  npos (find source "gl_Position") = true ->
  npos (find source "gl_FragColor") = true ->
  ReplaceGLSLBuiltins source target stage = source.
Proof.
  intros HP HF.
  destruct target, stage; try reflexivity; cbn [ReplaceGLSLBuiltins];
    now apply regex_replace_word_absent.
Qed.

Lemma ReplaceGLSLBuiltins_without_builtins_witness :
  npos (find "void main() { color = vec4(1.0); }" "gl_Position") = true
  /\ npos (find "void main() { color = vec4(1.0); }" "gl_FragColor") = true
  /\ ReplaceGLSLBuiltins "void main() { color = vec4(1.0); }" Metal Fragment
     = "void main() { color = vec4(1.0); }".
Proof.
  split; [reflexivity|]. split; [reflexivity|].
  apply (ReplaceGLSLBuiltins_without_builtins _ Metal Fragment); reflexivity.
Defined.

(** Replacing a word by itself changes nothing. *)
Lemma replace_loop_same_word (w : string) (fuel : nat) :
  forall prev s, replace_loop fuel (word w) [Text w] prev s = s.
Proof.
  induction fuel as [|fuel IH]; intros prev s; [reflexivity|].
  cbn [replace_loop].
  destruct (regex_search (word w) prev s) as [m|] eqn:E; [|reflexivity].
  apply search_from_Some in E as (skipped & Epre & Es & Hm & _).
  apply word_shape in Hm as [Hw ->].
  apply append_inv_tail in Hw.
  rewrite IH, Epre, Es, Hw. cbn [format String.append].
  now rewrite append_nil_r.
Qed.

Lemma regex_replace_same_word (w s : string) :
  regex_replace s (word w) [Text w] = s.
Proof. apply replace_loop_same_word. Qed.

(** X11.  The five function-name replacements of the HLSL branch of
    [ConvertBuiltinFunctions] replace each name by itself: the HLSL
    branch yields exactly what the Metal branch yields, for every
    text. *)
Theorem ConvertBuiltinFunctions_HLSL_as_Metal (source : string) :
  ConvertBuiltinFunctions source HLSL = ConvertBuiltinFunctions source Metal.
Proof.
  unfold ConvertBuiltinFunctions, replace_words. cbn [fold_left fst snd].
  now rewrite !regex_replace_same_word.
Qed.

(** ** The coarse tests against the extractors *)

Lemma attrRegex_text caps0 p s caps p' s' :
  Matches attrRegex caps0 p s caps p' s' ->
  exists x y, s = "layout" ++ x ++ "in" ++ y.
Proof.
  unfold attrRegex, plus, many. intros H. invert_match.
  match goal with
  | |- exists x y, "layout" ++ ?a ++ "(" ++ ?b ++ "location" ++ ?c ++ "=" ++ ?d
                     ++ ?e ++ ?f ++ ")" ++ ?g ++ "in" ++ ?rest = _ =>
      exists (a ++ "(" ++ b ++ "location" ++ c ++ "=" ++ d ++ e ++ f ++ ")" ++ g), rest
  end.
  f_equal. symmetry. repeat (rewrite append_assoc; f_equal).
Qed.

Lemma contains_append (t a b : string) : contains t b -> contains t (a ++ b).
Proof.
  intros (x & y & ->). exists (a ++ x), y. now rewrite append_assoc.
Qed.

Lemma no_uniform_no_match (source : string) :
  IsUniformDeclaration source = false ->
  forall prev a b, source = a ++ b -> ~ occurs_at uniformRegex prev b.
Proof.
  unfold IsUniformDeclaration. intros H prev a b -> (caps & p & s' & Hm).
  apply negb_false_iff in H.
  apply (find_none "uniform" _ ltac:(discriminate) H).
  apply contains_append.
  apply uniformRegex_shape in Hm as (d & type & name & -> & (ws1 & ws2 & -> & _) & _).
  exists "", (ws1 ++ type ++ ws2 ++ name ++ ";" ++ s').
  cbn [String.append]. now rewrite !append_assoc.
Qed.

Lemma no_attribute_no_match (source : string) :
  IsAttributeDeclaration source = false ->
  forall prev a b, source = a ++ b -> ~ occurs_at attrRegex prev b.
Proof.
  unfold IsAttributeDeclaration. intros H prev a b -> (caps & p & s' & Hm).
  apply attrRegex_text in Hm as (x & y & ->).
  apply andb_false_iff in H as [H|H]; apply negb_false_iff in H.
  - apply (find_none "layout" _ ltac:(discriminate) H).
    apply contains_append. now exists "", (x ++ "in" ++ y).
  - apply (find_none "in" _ ltac:(discriminate) H).
    apply contains_append. exists ("layout" ++ x), y.
    now rewrite !append_assoc.
Qed.

Lemma search_nothing (re : regex) (prev : option ascii) (s : string) :
  (forall a b, s = a ++ b -> ~ occurs_at re (last_of a prev) b) ->
  regex_search re prev s = None.
Proof.
  intros H. destruct (regex_search re prev s) as [m|] eqn:E; [|reflexivity].
  apply search_from_Some in E as (skipped & _ & E & Hm & _).
  exfalso. apply (H skipped (m_str m ++ m_suffix m) E). red. eauto.
Qed.

(** X12.  A text that fails [IsUniformDeclaration] holds no uniform
    declaration: [ExtractUniforms] returns the empty list and
    [ConvertUniformDeclarations] returns the text as it is. *)
Theorem IsUniformDeclaration_false (source : string) (target : ShaderTarget) :
  IsUniformDeclaration source = false ->
  ExtractUniforms source = []
  /\ ConvertUniformDeclarations source target = source.
Proof.
  intros H.
  assert (E : ExtractUniforms source = []).
  { unfold ExtractUniforms. cbn [ExtractUniforms_loop].
    rewrite search_nothing; [reflexivity|].
    intros a b. apply no_uniform_no_match. exact H. }
  split; [exact E|].
  destruct target; try reflexivity. unfold ConvertUniformDeclarations.
  now rewrite E.
Qed.

Lemma IsUniformDeclaration_false_witness :
  IsUniformDeclaration "void main() { }" = false
  /\ ExtractUniforms "void main() { }" = []
  /\ ConvertUniformDeclarations "void main() { }" HLSL = "void main() { }".
Proof.
  split; [reflexivity|].
  apply (IsUniformDeclaration_false "void main() { }" HLSL). reflexivity.
Defined.

(** X13.  A text that fails [IsAttributeDeclaration] holds no attribute
    declaration: [ExtractAttributes] returns the empty list, without
    throwing, and [ConvertAttributeDeclarations] returns the text as it
    is. *)
Theorem IsAttributeDeclaration_false
        (source : string) (target : ShaderTarget) (stage : ShaderStage) :
  IsAttributeDeclaration source = false ->
  ExtractAttributes source = Ok []
  /\ ConvertAttributeDeclarations source target stage = source.
Proof.
  intros H. split.
  - unfold ExtractAttributes. cbn [ExtractAttributes_loop].
    rewrite search_nothing; [reflexivity|].
    intros a b. apply no_attribute_no_match. exact H.
  - destruct stage; [|reflexivity].
    destruct target; try reflexivity; unfold ConvertAttributeDeclarations;
      apply regex_replace_nothing; intros a b;
      apply no_attribute_no_match; exact H.
Qed.

Lemma IsAttributeDeclaration_false_witness :
  IsAttributeDeclaration "layout(location = 0) out vec4 color;" = false
  /\ ExtractAttributes "layout(location = 0) out vec4 color;" = Ok []
  /\ ConvertAttributeDeclarations "layout(location = 0) out vec4 color;" HLSL Vertex
     = "layout(location = 0) out vec4 color;".
Proof.
  split; [reflexivity|].
  apply (IsAttributeDeclaration_false _ HLSL Vertex). reflexivity.
Defined.

(** ** [ConvertUniformDeclarations] and the declarations of the text *)

Lemma ExtractUniforms_Declarations (source : string) (l : list (string * string)) :
  Declarations source l ->
  map (fun u => (UniformBinding.type u, UniformBinding.name u))
      (ExtractUniforms source) = l.
Proof.
  intros H. apply (Declarations_functional source); [|exact H].
  rewrite ExtractUniforms_bindings, bindings_from_type_and_name.
  apply Scan_Declarations. apply matches_loop_Scan; [|lia].
  rewrite uniformRegex_min_len. lia.
Qed.

Lemma members_of_bindings (us : list UniformBinding.t) :
  map (fun d : string * string =>
         "    " ++ hlslType (fst d) ++ " " ++ snd d ++ ";" ++ nl)
      (map (fun u => (UniformBinding.type u, UniformBinding.name u)) us)
  = map cbufferMember us.
Proof. induction us as [|u us IH]; cbn [map]; [reflexivity | now rewrite IH]. Qed.

(** X14.  With the declarations of the text read off the text itself:
    when there is none, [ConvertUniformDeclarations] returns the text as
    it is; otherwise the result is the constant-buffer header, one member
    line per declaration in the order of the text, with the type mapped
    by the HLSL type table and the name as written, then the text with
    the strip pattern applied.  No closing brace is emitted. *)
Theorem ConvertUniformDeclarations_members
        (source : string) (l : list (string * string)) :
  Declarations source l ->
  ConvertUniformDeclarations source HLSL
  = match l with
    | [] => source
    | _ =>
        "cbuffer Uniforms : register(b0)" ++ nl ++ "{" ++ nl
        ++ String.concat ""
             (map (fun d => "    " ++ hlslType (fst d) ++ " " ++ snd d ++ ";" ++ nl) l)
        ++ regex_replace source uniformStripRegex []
    end.
Proof.
  intros H. apply ExtractUniforms_Declarations in H.
  unfold ConvertUniformDeclarations.
  destruct (ExtractUniforms source) as [|u us] eqn:E.
  - now subst l.
  - subst l.
    change (map (fun u0 => (UniformBinding.type u0, UniformBinding.name u0)) (u :: us))
      with ((UniformBinding.type u, UniformBinding.name u)
              :: map (fun u0 => (UniformBinding.type u0, UniformBinding.name u0)) us).
    cbv iota.
    change ((UniformBinding.type u, UniformBinding.name u)
              :: map (fun u0 => (UniformBinding.type u0, UniformBinding.name u0)) us)
      with (map (fun u0 => (UniformBinding.type u0, UniformBinding.name u0)) (u :: us)).
    rewrite members_of_bindings.
    unfold cbufferHeader. now rewrite !append_assoc.
Qed.

Lemma ConvertUniformDeclarations_members_witness :
  Declarations "uniform mat4 model; uniform vec3 lightPos;"
               [("mat4", "model"); ("vec3", "lightPos")]
  /\ ConvertUniformDeclarations "uniform mat4 model; uniform vec3 lightPos;" HLSL
     = "cbuffer Uniforms : register(b0)" ++ nl ++ "{" ++ nl
       ++ "    float4x4 model;" ++ nl ++ "    float3 lightPos;" ++ nl
       ++ "mat4 model; vec3 lightPos;".
Proof.
  assert (H : Declarations "uniform mat4 model; uniform vec3 lightPos;"
                           [("mat4", "model"); ("vec3", "lightPos")]).
  { assert (E : map type_and_name
                     (all_matches uniformRegex "uniform mat4 model; uniform vec3 lightPos;")
                 = [("mat4", "model"); ("vec3", "lightPos")]) by (vm_compute; reflexivity).
    rewrite <- E. apply Scan_Declarations.
    apply (matches_loop_Scan uniformRegex); [rewrite uniformRegex_min_len|cbn]; lia. }
  split; [exact H|].
  rewrite (ConvertUniformDeclarations_members _ _ H). vm_compute. reflexivity.
Defined.

(** ** What [ExtractAttributes] returns *)

Lemma ExtractAttributes_loop_sound (P : VertexAttribute.t -> Prop) :
  (forall literal type name,
      number literal -> identifier type -> identifier name ->
      (decimal literal <= INT_MAX)%Z ->
      P (VertexAttribute.mk name type (decimal literal))) ->
  forall fuel s acc l,
    Forall P acc -> ExtractAttributes_loop fuel s acc = Ok l -> Forall P l.
Proof.
  intros HP. induction fuel as [|fuel IH]; intros s acc l Hacc;
    cbn [ExtractAttributes_loop].
  - now intros [= <-].
  - destruct (regex_search attrRegex None s) as [m|] eqn:E; [|now intros [= <-]].
    apply search_from_Some in E as (skipped & _ & _ & Hm & _).
    apply attrRegex_shape in Hm as (literal & type & name & Hl & Ht & Hn & ->).
    cbn [sub Nat.eqb]. rewrite (stoi_number _ Hl).
    destruct (decimal literal <=? INT_MAX)%Z eqn:Hfit; [|discriminate].
    apply IH. apply Forall_app. split; [exact Hacc|].
    constructor; [|constructor]. apply HP; auto. now apply Z.leb_le.
Qed.

(** X15.  Every record [ExtractAttributes] returns has a location
    between 0 and [INT_MAX], and a type and a name that are non-empty runs
    of letters, digits and underscores. *)
Theorem ExtractAttributes_records (source : string) (l : list VertexAttribute.t) :
  ExtractAttributes source = Ok l ->
  Forall (fun a => (0 <= VertexAttribute.location a <= INT_MAX)%Z
                   /\ identifier (VertexAttribute.type a)
                   /\ identifier (VertexAttribute.name a)) l.
Proof.
  intros H. unfold ExtractAttributes in H.
  refine (ExtractAttributes_loop_sound _ _ _ _ _ _ (List.Forall_nil _) H).
  intros literal type name Hl Ht Hn Hfit. cbn.
  split; [|now split]. split; [|exact Hfit].
  apply decimal_from_nonneg. lia.
Qed.

Lemma ExtractAttributes_records_witness :
  ExtractAttributes "layout(location = 1) in vec3 normal;"
  = Ok [VertexAttribute.mk "normal" "vec3" 1]
  /\ Forall (fun a => (0 <= VertexAttribute.location a <= INT_MAX)%Z
                      /\ identifier (VertexAttribute.type a)
                      /\ identifier (VertexAttribute.name a))
            [VertexAttribute.mk "normal" "vec3" 1].
Proof.
  assert (H : ExtractAttributes "layout(location = 1) in vec3 normal;"
              = Ok [VertexAttribute.mk "normal" "vec3" 1]) by (vm_compute; reflexivity).
  split; [exact H | exact (ExtractAttributes_records _ _ H)].
Defined.

(** ** The converters and the world *)

(** What a returning run of [TranspileToVulkan] leaves: one more command,
    the files as the assembler left them, everything else as it was. *)
Lemma TranspileToVulkan_world (glslSource : string) (stage : ShaderStage)
      (w w' : World) (r : TranspilationResult) :
  TranspileToVulkan glslSource stage w = Returns r w' ->
  w' = mkWorld (snd (assembler_run glslSource w)) (creatable w) (env w) (shell w)
               (commands w
                  ++ [glslangCommand (sdk_root "C:/Program Files/VulkanSDK/1.4.313.1" w)])
               (events w).
Proof.
  unfold assembler_run, assembler_files, wrapped, sdk_root.
  unfold TranspileToVulkan, read_spirv, mbind, Eff_bind, mret, Eff_ret,
    ofstream_write, getenv, system, ifstream_contents, throw, undefined.
  destruct (creatable w tempIn); cbn [files env shell creatable commands events];
    match goal with |- context [shell w ?c ?f] => destruct (shell w c f) as [status fs'] end;
    (destruct (status =? 0)%Z; [|intros [= _ <-]; reflexivity]);
    cbn [files];
    (destruct (fs' tempOut) as [bytes|]; [|discriminate]);
    (destruct (String.length bytes mod 4 =? 0)%nat; [|discriminate]);
    intros [= _ <-]; reflexivity.
Qed.

(** X16.  When [TranspileToMetal] returns, the SDK variable was set and
    both tools were run, the assembler and then the cross-compiler: the
    cross-compiler is started whatever the assembler's exit status was,
    and the message of the result is never the Vulkan step's. *)
Theorem TranspileToMetal_runs_both_tools (glslSource : string) (stage : ShaderStage)
        (w w' : World) (r : TranspilationResult) :
  TranspileToMetal glslSource stage w = Returns r w' ->
  exists sdkPath,
    env w "VULKAN_SDK" = Some sdkPath
    /\ commands w' = (commands w ++ [glslangCommand sdkPath; spirvCrossCommand sdkPath])%list
    /\ (errorMessage r = "Metal transpilation success!"
        \/ errorMessage r = "Metal transpilation failed!").
Proof.
  unfold TranspileToMetal, mbind, Eff_bind.
  destruct (TranspileToVulkan glslSource stage w) as [vResult w1| |] eqn:HV;
    try discriminate.
  rewrite (TranspileToVulkan_success _ _ _ _ _ HV). cbn [negb].
  apply TranspileToVulkan_world in HV. subst w1.
  unfold getenv, sdk_root. cbn [env].
  destruct (env w "VULKAN_SDK") as [sdkPath|]; [|discriminate].
  cbn [default]. unfold system, ifstream_contents, mret, Eff_ret.
  cbn [files shell creatable env commands events].
  destruct (shell w (spirvCrossCommand sdkPath) _) as [status fs2].
  destruct (status =? 0)%Z; cbn [files]; intros [= <- <-];
    exists sdkPath; cbn [commands errorMessage];
    (split; [reflexivity|]); (split; [now rewrite <- app_assoc | auto]).
Qed.

Lemma TranspileToMetal_runs_both_tools_witness :
  exists r w',
    TranspileToMetal "void main() {}" Vertex Samples.failing = Returns r w'
    /\ exists sdkPath,
         env Samples.failing "VULKAN_SDK" = Some sdkPath
         /\ commands w' = (commands Samples.failing
                             ++ [glslangCommand sdkPath; spirvCrossCommand sdkPath])%list
         /\ (errorMessage r = "Metal transpilation success!"
             \/ errorMessage r = "Metal transpilation failed!").
Proof.
  destruct (TranspileToMetal "void main() {}" Vertex Samples.failing)
    as [r w'| |] eqn:E; [|vm_compute in E; discriminate..].
  exists r, w'. split; [reflexivity|].
  exact (TranspileToMetal_runs_both_tools _ _ _ _ _ E).
Defined.

Lemma TranspileToHLSL_world (glslSource : string) (stage : ShaderStage)
      (w w' : World) (r : TranspilationResult) :
  TranspileToHLSL glslSource stage w = Returns r w' ->
  exists command fs,
    (fs = files w
     \/ fs = store "Saved/ShaderCache/validate.hlsl" (HLSL_text glslSource stage) (files w))
    /\ w' = mkWorld (snd (shell w command fs)) (creatable w) (env w) (shell w)
                    (commands w ++ [command]) (events w).
Proof.
  unfold TranspileToHLSL, mbind, Eff_bind, mret, Eff_ret, ofstream_write, getenv, system.
  destruct (creatable w "Saved/ShaderCache/validate.hlsl");
    cbn [files env shell creatable commands events];
    match goal with
    | |- context [shell w ?c ?f] =>
        intros H; exists c, f; destruct (shell w c f) as [status fs'] eqn:E
    end;
    (split; [auto|]);
    cbn [snd]; destruct (negb (status =? 0)%Z); injection H as _ <-; reflexivity.
Qed.

Lemma TranspileToMetal_world (glslSource : string) (stage : ShaderStage)
      (w w' : World) (r : TranspilationResult) :
  TranspileToMetal glslSource stage w = Returns r w' ->
  exists command,
    files w' = snd (shell w command (snd (assembler_run glslSource w))).
Proof.
  unfold TranspileToMetal, mbind, Eff_bind.
  destruct (TranspileToVulkan glslSource stage w) as [vResult w1| |] eqn:HV;
    try discriminate.
  rewrite (TranspileToVulkan_success _ _ _ _ _ HV). cbn [negb].
  apply TranspileToVulkan_world in HV. subst w1.
  unfold getenv. cbn [env].
  destruct (env w "VULKAN_SDK") as [sdkPath|]; [|discriminate].
  unfold system, ifstream_contents, mret, Eff_ret.
  cbn [files shell creatable env commands events].
  intros H. exists (spirvCrossCommand sdkPath).
  destruct (shell w (spirvCrossCommand sdkPath) _) as [status fs2].
  cbn [snd]. destruct (status =? 0)%Z; cbn [files] in H; injection H as _ <-; reflexivity.
Qed.

(** X17.  The converters themselves write two files only, the text for
    the assembler (temp_input.glsl) and the text for the validator
    (validate.hlsl): a file at any other path is after the call what the
    external tools made of it.  In particular no converter writes
    temp_vulkan.spv, the file the cross-compiler is asked to read. *)
Theorem converters_write_two_files
        (glslSource : string) (target : ShaderTarget) (stage : ShaderStage)
        (w w' : World) (r : TranspilationResult) (path : string) :
  dispatch glslSource target stage w = Returns r w' ->
  path <> tempIn -> path <> "Saved/ShaderCache/validate.hlsl" ->
  (forall command fs, snd (shell w command fs) path = fs path) ->
  files w' path = files w path.
Proof.
  intros H Hin Hhlsl Htools.
  assert (Hstore : forall p text fs, path <> p -> store p text fs path = fs path).
  { intros p text fs Hp. unfold store.
    destruct (String.eqb_spec path p); [contradiction | reflexivity]. }
  assert (Hasm : snd (assembler_run glslSource w) path = files w path).
  { unfold assembler_run. rewrite Htools. unfold assembler_files.
    destruct (creatable w tempIn); [now apply Hstore | reflexivity]. }
  destruct target; cbn [dispatch] in H.
  - now injection H as _ <-.
  - apply TranspileToHLSL_world in H as (command & fs & [->| ->] & ->);
      cbn [files]; rewrite Htools; [reflexivity | now apply Hstore].
  - apply TranspileToVulkan_world in H. subst w'. cbn [files]. exact Hasm.
  - apply TranspileToMetal_world in H as (command & ->).
    now rewrite Htools.
Qed.

Lemma converters_write_two_files_witness :
  exists r w',
    dispatch "void main() {}" Metal Vertex Samples.failing = Returns r w'
    /\ files w' tempSpv = files Samples.failing tempSpv.
Proof.
  destruct (dispatch "void main() {}" Metal Vertex Samples.failing)
    as [r w'| |] eqn:E; [|vm_compute in E; discriminate..].
  exists r, w'. split; [reflexivity|].
  apply (converters_write_two_files _ _ _ _ _ _ tempSpv E);
    [discriminate | discriminate | reflexivity].
Defined.

(** ** The facade and the tools *)

Lemma passes_input_check (glslSource : string) :
  has_char "{" glslSource -> has_char "}" glslSource ->
  empty glslSource = false
  /\ npos (find glslSource "{") || npos (find glslSource "}") = false.
Proof.
  intros Ho Hc. split.
  - destruct glslSource; [destruct Ho | reflexivity].
  - apply orb_false_iff. split.
    + destruct (npos (find glslSource "{")) eqn:E; [|reflexivity].
      apply find_char_npos in E. contradiction.
    + destruct (npos (find glslSource "}")) eqn:E; [|reflexivity].
      apply find_char_npos in E. contradiction.
Qed.

(** The facade on a source that passes the input check, when the
    converter returns. *)
Lemma Transpile_dispatch_returns (glslSource : string) (target : ShaderTarget)
      (stage : ShaderStage) (w w1 : World) (r : TranspilationResult) :
  has_char "{" glslSource -> has_char "}" glslSource ->
  dispatch glslSource target stage w = Returns r w1 ->
  exists w',
    Transpile glslSource target stage w = Returns r w'
    /\ files w' = files w1 /\ creatable w' = creatable w1 /\ env w' = env w1
    /\ shell w' = shell w1 /\ commands w' = commands w1.
Proof.
  intros Ho Hc H. destruct (passes_input_check _ Ho Hc) as [He Hb].
  unfold Transpile. rewrite He, Hb.
  unfold try_catch, mbind, Eff_bind. fold (dispatch glslSource target stage).
  rewrite H. destruct (success r); cbn; eexists; (split; [reflexivity|]); auto.
Qed.

Lemma Transpile_dispatch_throws (glslSource : string) (target : ShaderTarget)
      (stage : ShaderStage) (w w1 : World) (what : string) :
  has_char "{" glslSource -> has_char "}" glslSource ->
  dispatch glslSource target stage w = Throws what w1 ->
  Transpile glslSource target stage w
  = Returns (mkResult false "" [] ("Transpilation exception: " ++ what)) w1.
Proof.
  intros Ho Hc H. destruct (passes_input_check _ Ho Hc) as [He Hb].
  unfold Transpile. rewrite He, Hb.
  unfold try_catch, mbind, Eff_bind. fold (dispatch glslSource target stage).
  now rewrite H.
Qed.

(** X18.  When the assembler exits with 0 but has left no
    temp_input.spv, reading the file back throws; the facade catches the
    exception and returns a failure result with empty output and binary
    and a message that begins with [Transpilation exception: ].  This holds
    for the Vulkan and the Metal target alike; the cross-compiler is not
    started. *)
Theorem Transpile_missing_module
        (glslSource : string) (target : ShaderTarget) (stage : ShaderStage)
        (w : World) (fs' : FileSystem) :
  target = Vulkan \/ target = Metal ->
  has_char "{" glslSource -> has_char "}" glslSource ->
  assembler_run glslSource w = (0%Z, fs') -> fs' tempOut = None ->
  exists what w',
    Transpile glslSource target stage w
    = Returns (mkResult false "" [] ("Transpilation exception: " ++ what)) w'
    /\ commands w'
       = (commands w
            ++ [glslangCommand (sdk_root "C:/Program Files/VulkanSDK/1.4.313.1" w)])%list.
Proof.
  intros Ht Ho Hc Hrun Hnone.
  assert (HV : exists what w',
             TranspileToVulkan glslSource stage w = Throws what w'
             /\ commands w'
                = (commands w
                     ++ [glslangCommand
                           (sdk_root "C:/Program Files/VulkanSDK/1.4.313.1" w)])%list).
  { revert Hrun. unfold assembler_run, assembler_files, wrapped, sdk_root.
    unfold TranspileToVulkan, read_spirv, mbind, Eff_bind, mret, Eff_ret,
      ofstream_write, getenv, system, ifstream_contents, throw, undefined.
    destruct (creatable w tempIn); cbn [files env shell creatable commands events];
      intros ->; cbn [Z.eqb files]; rewrite Hnone; eexists _, _;
      (split; [reflexivity|]); reflexivity. }
  destruct HV as (what & w' & HV & Hcmd).
  exists what, w'. split; [|exact Hcmd].
  apply Transpile_dispatch_throws; try assumption.
  destruct Ht as [-> | ->]; cbn [dispatch]; [exact HV|].
  unfold TranspileToMetal, mbind, Eff_bind. now rewrite HV.
Qed.

Lemma Transpile_missing_module_witness :
  exists what w',
    Transpile "void main() {}" Metal Vertex Cases.unassembled
    = Returns (mkResult false "" [] ("Transpilation exception: " ++ what)) w'
    /\ commands w'
       = (commands Cases.unassembled
            ++ [glslangCommand
                  (sdk_root "C:/Program Files/VulkanSDK/1.4.313.1" Cases.unassembled)])%list.
Proof.
  apply (Transpile_missing_module "void main() {}" Metal Vertex Cases.unassembled
           (store tempIn (wrapped "void main() {}") Samples.no_files)).
  - now right.
  - cbn. tauto.
  - cbn. tauto.
  - reflexivity.
  - reflexivity.
Defined.

(** A failure result of the facade carries no binary. *)
Lemma Transpile_failure_no_binary (glslSource : string) (target : ShaderTarget)
      (stage : ShaderStage) (w w' : World) (r : TranspilationResult) :
  Transpile glslSource target stage w = Returns r w' ->
  success r = false -> binary r = [].
Proof.
  intros H Hs. apply Transpile_cases in H as [[_ Hb]|[w1 H]]; [exact Hb|].
  destruct target; cbn [dispatch] in H.
  - now injection H as <- _.
  - now apply HLSL_binary_empty in H.
  - apply TranspileToVulkan_success in H. congruence.
  - now apply Metal_binary_empty in H.
Qed.

(** X19.  No result of [TranspileProgram] carries a binary, whatever the
    target: for the Vulkan target the words assembled for the two stages
    are dropped. *)
Theorem TranspileProgram_no_binary (vertexSource fragmentSource : string)
        (target : ShaderTarget) (w w' : World) (r : TranspilationResult) :
  TranspileProgram vertexSource fragmentSource target w = Returns r w' ->
  binary r = [].
Proof.
  unfold TranspileProgram, mbind, Eff_bind.
  destruct (Transpile vertexSource target Vertex w) as [rv w1| |] eqn:EV;
    try discriminate.
  destruct (success rv) eqn:Hv; cbn [negb].
  - destruct (Transpile fragmentSource target Fragment w1) as [rf w2| |] eqn:EF;
      try discriminate.
    destruct (success rf) eqn:Hf; cbn [negb]; intros [= <- _].
    + reflexivity.
    + exact (Transpile_failure_no_binary _ _ _ _ _ _ EF Hf).
  - intros [= <- _]. exact (Transpile_failure_no_binary _ _ _ _ _ _ EV Hv).
Qed.

Lemma TranspileProgram_no_binary_witness :
  exists r w',
    TranspileProgram "void main() {}" "void main() {}" Vulkan Samples.configured
    = Returns r w'
    /\ binary r = [].
Proof.
  destruct (TranspileProgram "void main() {}" "void main() {}" Vulkan Samples.configured)
    as [r w'| |] eqn:E; [|vm_compute in E; discriminate..].
  exists r, w'. split; [reflexivity|].
  exact (TranspileProgram_no_binary _ _ _ _ _ _ E).
Defined.

Lemma Transpile_Vulkan_failed (glslSource : string) (stage : ShaderStage) (w : World) :
  has_char "{" glslSource -> has_char "}" glslSource ->
  (forall command fs, fst (shell w command fs) <> 0%Z) ->
  exists w',
    Transpile glslSource Vulkan stage w
    = Returns (mkResult true "" [] "SPIR-V compilation failed!") w'
    /\ shell w' = shell w
    /\ commands w'
       = (commands w
            ++ [glslangCommand (sdk_root "C:/Program Files/VulkanSDK/1.4.313.1" w)])%list
    /\ env w' = env w.
Proof.
  intros Ho Hc Hfail.
  assert (HV : exists w1,
             TranspileToVulkan glslSource stage w
             = Returns (mkResult true "" [] "SPIR-V compilation failed!") w1).
  { unfold TranspileToVulkan, read_spirv, mbind, Eff_bind, mret, Eff_ret,
      ofstream_write, getenv, system, ifstream_contents, throw, undefined.
    destruct (creatable w tempIn); cbn [files env shell creatable commands events];
      match goal with
      | |- context [shell w ?c ?f] =>
          pose proof (Hfail c f) as Hst; destruct (shell w c f) as [status fs']
      end;
      cbn [fst] in Hst; apply Z.eqb_neq in Hst; rewrite Hst; eexists; reflexivity. }
  destruct HV as [w1 HV].
  destruct (Transpile_dispatch_returns glslSource Vulkan stage w w1 _ Ho Hc HV)
    as (w' & H & _ & _ & He & Hs & Hcmd).
  apply TranspileToVulkan_world in HV. subst w1.
  exists w'. split; [exact H|]. split; [exact Hs|]. split; [exact Hcmd | exact He].
Qed.

(** X20.  With the Vulkan target, when every run of the tools fails, a
    program whose sources pass the input check is still reported as a
    success: the result has success=true, an empty message, and an output
    that holds the two banners and no shader text.  The assembler was run
    once for each stage. *)
Theorem TranspileProgram_Vulkan_tools_failing
        (vertexSource fragmentSource : string) (w : World) :
  has_char "{" vertexSource -> has_char "}" vertexSource ->
  has_char "{" fragmentSource -> has_char "}" fragmentSource ->
  (forall command fs, fst (shell w command fs) <> 0%Z) ->
  exists w',
    TranspileProgram vertexSource fragmentSource Vulkan w
    = Returns (mkResult true
                 ("// === VERTEX SHADER ===" ++ nl ++ nl ++ nl
                  ++ "// === FRAGMENT SHADER ===" ++ nl)
                 [] "") w'
    /\ List.length (commands w') = List.length (commands w) + 2
    /\ commands w'
       = (commands w
            ++ [glslangCommand (sdk_root "C:/Program Files/VulkanSDK/1.4.313.1" w);
                glslangCommand (sdk_root "C:/Program Files/VulkanSDK/1.4.313.1" w)])%list.
Proof.
  intros Hvo Hvc Hfo Hfc Hfail.
  destruct (Transpile_Vulkan_failed vertexSource Vertex w Hvo Hvc Hfail)
    as (w1 & HV & Hs1 & Hc1 & He1).
  assert (Hfail1 : forall command fs, fst (shell w1 command fs) <> 0%Z)
    by (rewrite Hs1; exact Hfail).
  destruct (Transpile_Vulkan_failed fragmentSource Fragment w1 Hfo Hfc Hfail1)
    as (w2 & HF & _ & Hc2 & _).
  assert (Hcmd : commands w2
                 = (commands w
                      ++ [glslangCommand (sdk_root "C:/Program Files/VulkanSDK/1.4.313.1" w);
                          glslangCommand
                            (sdk_root "C:/Program Files/VulkanSDK/1.4.313.1" w)])%list).
  { rewrite Hc2, Hc1. unfold sdk_root. rewrite He1. now rewrite <- app_assoc. }
  exists w2. split; [|split].
  - unfold TranspileProgram, mbind, Eff_bind. rewrite HV. cbn [success negb].
    rewrite HF. reflexivity.
  - rewrite Hcmd, length_app. cbn. lia.
  - exact Hcmd.
Qed.

Lemma TranspileProgram_Vulkan_tools_failing_witness :
  exists w',
    TranspileProgram "void main() {}" "void main() {}" Vulkan Samples.failing
    = Returns (mkResult true
                 ("// === VERTEX SHADER ===" ++ nl ++ nl ++ nl
                  ++ "// === FRAGMENT SHADER ===" ++ nl)
                 [] "") w'
    /\ List.length (commands w') = List.length (commands Samples.failing) + 2
    /\ commands w'
       = (commands Samples.failing
            ++ [glslangCommand
                  (sdk_root "C:/Program Files/VulkanSDK/1.4.313.1" Samples.failing);
                glslangCommand
                  (sdk_root "C:/Program Files/VulkanSDK/1.4.313.1" Samples.failing)])%list.
Proof.
  apply (TranspileProgram_Vulkan_tools_failing "void main() {}" "void main() {}"
           Samples.failing).
  - cbn. tauto.
  - cbn. tauto.
  - cbn. tauto.
  - cbn. tauto.
  - intros command fs. discriminate.
Defined.

(** ** Products of more than two factors *)

Lemma all_chars_impl (p q : ascii -> bool) (u : string) :
  (forall c, p c = true -> q c = true) ->
  all_chars p u = true -> all_chars q u = true.
Proof.
  intros Hpq. induction u as [|c u IH]; [reflexivity|]. cbn [all_chars].
  intros H. apply andb_prop in H as [Hc Hu]. now rewrite (Hpq c Hc), IH.
Qed.

Lemma space_is_no_star (c : ascii) : isspace c = true -> negb (Ascii.eqb c "*") = true.
Proof. destruct c as [[] [] [] [] [] [] [] []]; vm_compute; congruence. Qed.

Lemma word_is_no_star (c : ascii) : is_word c = true -> negb (Ascii.eqb c "*") = true.
Proof. destruct c as [[] [] [] [] [] [] [] []]; vm_compute; congruence. Qed.

Lemma no_product_after_star (ws1 ws2 right : string) :
  spaces ws1 -> spaces ws2 -> all_chars is_word right = true ->
  forall prev a b,
    ws1 ++ "*" ++ ws2 ++ right = a ++ b -> ~ occurs_at mathRegex prev b.
Proof.
  intros H1 H2 HR prev a b E (caps & p & s' & Hm).
  apply mathRegex_shape in Hm as (l & x1 & x2 & r & -> & [Hne Hl] & _).
  destruct l as [|l0 l]; [congruence|].
  cbn [all_chars] in Hl. apply andb_prop in Hl as [Hl0 Hl].
  apply append_split in E as [(c0 & -> & E)|(c0 & E1 & E2)].
  - destruct c0 as [|x c0]; cbn [String.append] in E.
    + injection E as E _. subst l0. discriminate.
    + injection E as _ E.
      assert (Hno : all_chars (fun c => negb (Ascii.eqb c "*")) (ws2 ++ right) = true).
      { rewrite all_chars_append.
        rewrite (all_chars_impl _ _ ws2 space_is_no_star H2).
        now rewrite (all_chars_impl _ _ right word_is_no_star HR). }
      rewrite E in Hno. apply all_chars_suffix in Hno.
      change (String l0 l ++ x1 ++ "*" ++ x2 ++ r ++ s')
        with (String l0 (l ++ x1 ++ String "*" (x2 ++ r ++ s'))) in Hno.
      cbn [all_chars] in Hno. apply andb_prop in Hno as [_ Hno].
      rewrite !all_chars_append in Hno.
      apply andb_prop in Hno as [_ Hno]. apply andb_prop in Hno as [_ Hno].
      cbn in Hno. discriminate.
  - subst ws1. unfold spaces in H1. apply all_chars_suffix in H1.
    destruct c0 as [|x c0]; cbn [String.append] in E2.
    + injection E2 as E2 _. subst l0. discriminate.
    + injection E2 as E2 _. subst x. cbn [all_chars] in H1.
      apply andb_prop in H1 as [Hx _]. apply space_is_not_word in Hx. congruence.
Qed.

Lemma identifier_is_operand (u : string) : identifier u -> operand u.
Proof.
  intros [Hne Hu]. split; [exact Hne|].
  apply (all_chars_impl is_word); [|exact Hu].
  intros c Hc. cbn. now rewrite Hc.
Qed.

(** X21.  In a product of three factors only the first two are wrapped:
    [a * b * c] becomes [mul(a, b) * c], whatever the names and the white
    space around the stars. *)
Theorem ConvertMatrixOperations_three_factors (a w1 w2 b w3 w4 c : string) :
  identifier a -> identifier b -> identifier c ->
  spaces w1 -> spaces w2 -> spaces w3 -> spaces w4 ->
  ConvertMatrixOperations (a ++ w1 ++ "*" ++ w2 ++ b ++ w3 ++ "*" ++ w4 ++ c) HLSL
  = "mul(" ++ a ++ ", " ++ b ++ ")" ++ w3 ++ "*" ++ w4 ++ c.
Proof.
  intros Ha Hb [_ Hc] H1 H2 H3 H4.
  assert (Hstop : stops (in_charset operandClass) (w3 ++ "*" ++ w4 ++ c)).
  { apply stops_after_spaces; [|exact H3|reflexivity].
    intros x Hx. destruct (in_charset operandClass x) eqn:E; [|reflexivity].
    apply operand_is_not_space in E. congruence. }
  destruct (math_match_here None a w1 w2 b (w3 ++ "*" ++ w4 ++ c) Ha H1 H2
              (identifier_is_operand b Hb) Hstop) as [x Hm].
  unfold ConvertMatrixOperations.
  rewrite (regex_replace_head _ _ _ _ _ x mathRegex_min_len (or_introl eq_refl) Hm).
  rewrite (regex_replace_nothing mathRegex _ (w3 ++ "*" ++ w4 ++ c)).
  - cbn [format sub Nat.eqb]. now rewrite <- !append_assoc, append_nil_r.
  - intros a0 b0. now apply no_product_after_star.
Qed.

Lemma ConvertMatrixOperations_three_factors_witness :
  ConvertMatrixOperations
    ("projection" ++ " " ++ "*" ++ " " ++ "view" ++ " " ++ "*" ++ " " ++ "model") HLSL
  = "mul(" ++ "projection" ++ ", " ++ "view" ++ ")" ++ " " ++ "*" ++ " " ++ "model".
Proof.
  refine (ConvertMatrixOperations_three_factors
            "projection" " " " " "view" " " " " "model" _ _ _ _ _ _ _);
    try (split; (discriminate || reflexivity)); reflexivity.
Defined.

(** ** The two tables of type names *)

Lemma last_of_word (u : string) :
  all_chars is_word u = true ->
  forall prev, word_behind prev = true -> word_behind (last_of u prev) = true.
Proof.
  induction u as [|c u IH]; intros Hu prev Hp; [exact Hp|].
  cbn [all_chars] in Hu. apply andb_prop in Hu as [Hc Hu].
  cbn [last_of]. now apply IH.
Qed.

Lemma word_behind_identifier (u : string) (prev : option ascii) :
  identifier u -> word_behind (last_of u prev) = true.
Proof.
  intros [Hne Hu]. destruct u as [|c u]; [congruence|].
  cbn [all_chars] in Hu. apply andb_prop in Hu as [Hc Hu].
  cbn [last_of]. now apply last_of_word.
Qed.

Lemma boundary_inside_word (prev : option ascii) (s : string) :
  word_behind prev = true ->
  match s with String c _ => is_word c = true | EmptyString => False end ->
  at_word_boundary prev s = false.
Proof.
  unfold at_word_boundary, word_behind. intros Hp Hs.
  destruct s as [|c s]; [contradiction|]. now rewrite Hp, Hs.
Qed.

(** On a text that is one identifier, replacing the word [w] replaces
    the whole text or nothing. *)
Lemma replace_whole_word (t w x : string) :
  identifier t -> w <> "" ->
  regex_replace t (word w) [Text x] = if String.eqb t w then x else t.
Proof.
  intros Ht Hw. destruct (String.eqb_spec t w) as [->|Hne].
  - assert (Hm : match_here (word w) None w = Some ([], last_of w None, "")).
    { unfold match_here, word.
      rewrite exec_Seq, exec_WordBoundary.
      2:{ destruct Ht as [_ Ht]. destruct w as [|c w]; [congruence|].
          cbn [all_chars] in Ht. apply andb_prop in Ht as [Hc _].
          cbn. now rewrite Hc. }
      rewrite <- (append_nil_r w) at 2. rewrite exec_Seq, exec_Lit.
      rewrite exec_WordBoundary; [reflexivity|].
      unfold at_word_boundary.
      change (match last_of w None with Some c => is_word c | None => false end)
        with (word_behind (last_of w None)).
      now rewrite (word_behind_identifier w None Ht). }
    unfold regex_replace. cbn [replace_loop]. unfold regex_search.
    rewrite (search_from_here _ _ _ _ _ _ _ Hm).
    cbn [m_prefix m_caps m_last m_suffix format String.append].
    rewrite append_nil_r.
    rewrite (replace_loop_nothing (word w) [Text x] _ _ ""); [apply append_nil_r|].
    intros a b E (caps & p & s' & Hm').
    apply word_shape in Hm' as [-> _].
    destruct a; [|discriminate]. destruct w; [congruence | discriminate].
  - apply regex_replace_nothing. intros a b -> (caps & p & s' & Hm).
    unfold word in Hm. invert_match.
    destruct Ht as [_ Ht]. rewrite !all_chars_append in Ht.
    apply andb_prop in Ht as [Ha Ht]. apply andb_prop in Ht as [Hw' Hs'].
    destruct a as [|c a].
    + destruct s' as [|c s']; [now rewrite append_nil_r in Hne|].
      cbn [all_chars] in Hs'. apply andb_prop in Hs' as [Hc _].
      match goal with
      | H : at_word_boundary (last_of w _) (String c s') = true |- _ =>
          rewrite boundary_inside_word in H; [discriminate| |exact Hc]
      end.
      apply word_behind_identifier. now split.
    + match goal with
      | H : at_word_boundary (last_of (String c a) None) (w ++ s') = true |- _ =>
          rewrite boundary_inside_word in H; [discriminate| |]
      end.
      * apply word_behind_identifier. now split.
      * destruct w as [|d w]; [congruence|].
        cbn [all_chars] in Hw'. now apply andb_prop in Hw' as [Hd _].
Qed.

(** X22.  The two tables of type names agree: on a text that is one
    identifier, [ConvertBuiltinFunctions] yields the name the
    constant-buffer table ([hlslType]) yields, for HLSL and for Metal; and
    every name they rewrite is a built-in type for [IsBuiltinType]. *)
Theorem type_tables_agree (t : string) :
  identifier t ->
  ConvertBuiltinFunctions t HLSL = hlslType t
  /\ ConvertBuiltinFunctions t Metal = hlslType t
  /\ (hlslType t <> t -> IsBuiltinType t = true).
Proof.
  intros Ht.
  assert (HM : ConvertBuiltinFunctions t Metal = hlslType t).
  { destruct (String.eqb_spec t "mat3") as [->|N1]; [vm_compute; reflexivity|].
    destruct (String.eqb_spec t "mat4") as [->|N2]; [vm_compute; reflexivity|].
    destruct (String.eqb_spec t "vec2") as [->|N3]; [vm_compute; reflexivity|].
    destruct (String.eqb_spec t "vec3") as [->|N4]; [vm_compute; reflexivity|].
    destruct (String.eqb_spec t "vec4") as [->|N5]; [vm_compute; reflexivity|].
    apply String.eqb_neq in N1, N2, N3, N4, N5.
    unfold ConvertBuiltinFunctions, replace_words, hlslType.
    cbn [fold_left fst snd].
    rewrite (replace_whole_word t "mat3") by (assumption || discriminate). rewrite N1.
    rewrite (replace_whole_word t "mat4") by (assumption || discriminate). rewrite N2.
    rewrite (replace_whole_word t "vec2") by (assumption || discriminate). rewrite N3.
    rewrite (replace_whole_word t "vec3") by (assumption || discriminate). rewrite N4.
    rewrite (replace_whole_word t "vec4") by (assumption || discriminate). rewrite N5.
    reflexivity. }
  split; [|split].
  - unfold ConvertBuiltinFunctions, replace_words. cbn [fold_left fst snd].
    rewrite !regex_replace_same_word. exact HM.
  - exact HM.
  - unfold hlslType.
    destruct (String.eqb_spec t "vec2") as [->|_]; [reflexivity|].
    destruct (String.eqb_spec t "vec3") as [->|_]; [reflexivity|].
    destruct (String.eqb_spec t "vec4") as [->|_]; [reflexivity|].
    destruct (String.eqb_spec t "mat3") as [->|_]; [reflexivity|].
    destruct (String.eqb_spec t "mat4") as [->|_]; [reflexivity|].
    congruence.
Qed.

Lemma type_tables_agree_witness :
  ConvertBuiltinFunctions "mat4" HLSL = hlslType "mat4"
  /\ ConvertBuiltinFunctions "mat4" Metal = hlslType "mat4"
  /\ (hlslType "mat4" <> "mat4" -> IsBuiltinType "mat4" = true).
Proof.
  refine (type_tables_agree "mat4" _). split; [discriminate | reflexivity].
Defined.

(** ** The version directive *)

Section GreedyFallback.
Context {R : Type}.

Lemma star_greedy_none (cs : charset) (k : option ascii -> string -> option R)
      (t : string) :
  forall prev x,
    all_chars (in_charset cs) t = true -> stops (in_charset cs) x ->
    (forall t1 t2, t = t1 ++ t2 -> k (last_of t1 prev) (t2 ++ x) = None) ->
    star true cs k prev (t ++ x) = None.
Proof.
  induction t as [|c t IH]; intros prev x Ht Hx Hk.
  - cbn [String.append]. specialize (Hk "" "" eq_refl). cbn in Hk.
    destruct x as [|c x]; [exact Hk|]. cbn [star]. cbn in Hx. now rewrite Hx.
  - cbn [all_chars] in Ht. apply andb_prop in Ht as [Hc Ht].
    cbn [String.append star]. rewrite Hc.
    rewrite (IH (Some c) x Ht Hx).
    + exact (Hk "" (String c t) eq_refl).
    + intros t1 t2 ->. exact (Hk (String c t1) t2 eq_refl).
Qed.

(** A greedy run gives back characters until the continuation accepts:
    it ends at the last place where it does. *)
Lemma star_greedy_fallback (cs : charset) (k : option ascii -> string -> option R)
      (u : string) :
  forall prev t x r,
    all_chars (in_charset cs) u = true -> all_chars (in_charset cs) t = true ->
    stops (in_charset cs) x ->
    (forall t1 t2, t = t1 ++ t2 -> t1 <> "" ->
                   k (last_of t1 (last_of u prev)) (t2 ++ x) = None) ->
    k (last_of u prev) (t ++ x) = Some r ->
    star true cs k prev (u ++ t ++ x) = Some r.
Proof.
  induction u as [|c u IH]; intros prev t x r Hu Ht Hx Hnone Hk.
  - cbn [String.append last_of] in *.
    destruct t as [|c t].
    + cbn [String.append] in *. destruct x as [|c x]; [exact Hk|].
      cbn [star]. cbn in Hx. now rewrite Hx.
    + cbn [all_chars] in Ht. apply andb_prop in Ht as [Hc Ht].
      cbn [String.append star]. rewrite Hc.
      rewrite (star_greedy_none cs k t (Some c) x Ht Hx); [exact Hk|].
      intros t1 t2 ->. apply (Hnone (String c t1) t2 eq_refl). discriminate.
  - cbn [all_chars] in Hu. apply andb_prop in Hu as [Hc Hu].
    cbn [String.append star]. rewrite Hc.
    now rewrite (IH (Some c) t x r Hu Ht Hx Hnone Hk).
Qed.

End GreedyFallback.

Lemma lit_nl_fails {R : Type} (k : option ascii -> string -> option R)
      (prev : option ascii) (s : string) :
  match s with String c _ => c <> LF | EmptyString => True end ->
  lit nl k prev s = None.
Proof.
  destruct s as [|c s]; [reflexivity|]. intros Hc. cbn [nl lit].
  destruct (Ascii.eqb_spec LF c) as [E|_]; [now symmetry in E | reflexivity].
Qed.

Lemma version_match_here (prev : option ascii) (ws1 digits u v rest : string) :
  blank ws1 -> number digits -> spaces u -> spaces v -> ~ has_char LF v ->
  stops isspace rest ->
  match_here versionRegex prev ("#version" ++ ws1 ++ digits ++ u ++ nl ++ v ++ rest)
  = Some ([], Some LF, v ++ rest).
Proof.
  intros [Hn1 H1] [HnD HD] Hu Hv Hnl Hrest.
  unfold match_here, versionRegex.
  rewrite exec_Seq, exec_Lit.
  rewrite exec_Seq. apply exec_plus_run; try assumption.
  { apply stops_number. now split. }
  rewrite exec_Seq. apply exec_plus_run; try assumption.
  { apply stops_after_spaces; [exact space_is_not_digit | assumption | reflexivity]. }
  rewrite exec_Seq. cbn [many exec].
  rewrite <- (append_assoc nl v rest).
  apply star_greedy_fallback; try assumption.
  - intros t1 t2 E Hne. apply lit_nl_fails.
    destruct t1 as [|c t1]; [congruence|].
    cbn [nl String.append] in E. injection E as _ E.
    destruct t2 as [|d t2]; cbn [String.append].
    + destruct rest as [|d rest]; [exact I|]. cbn in Hrest.
      intros ->. discriminate.
    + intros ->. apply Hnl. rewrite E. apply has_char_append. right. now left.
  - rewrite append_assoc. now rewrite lit_append.
Qed.

Lemma versionRegex_min_len : 1 <= min_len versionRegex.
Proof. cbn. lia. Qed.

(** X23.  A version directive without profile name at the beginning of
    the source makes no difference to the HLSL text: it is removed
    together with the white space after it up to and including the last
    line break of that white space, blank lines included. *)
Theorem version_directive_removed
        (ws1 digits u v rest : string) (stage : ShaderStage) :
  blank ws1 -> number digits -> spaces u -> spaces v -> ~ has_char LF v ->
  stops isspace rest ->
  HLSL_text ("#version" ++ ws1 ++ digits ++ u ++ nl ++ v ++ rest) stage
  = HLSL_text (v ++ rest) stage.
Proof.
  intros H1 HD Hu Hv Hnl Hrest.
  unfold HLSL_text, HLSL_converted.
  rewrite (regex_replace_head versionRegex [] _ (v ++ rest) [] LF
             versionRegex_min_len (or_introl eq_refl)
             (version_match_here None ws1 digits u v rest H1 HD Hu Hv Hnl Hrest)).
  reflexivity.
Qed.

Lemma version_directive_removed_witness :
  HLSL_text ("#version" ++ " " ++ "450" ++ (" " ++ nl) ++ nl ++ "  " ++ "void main() { }")
            Fragment
  = HLSL_text ("  " ++ "void main() { }") Fragment.
Proof.
  refine (version_directive_removed " " "450" (" " ++ nl) "  " "void main() { }"
                                    Fragment _ _ _ _ _ _).
  - split; [discriminate | reflexivity].
  - split; [discriminate | reflexivity].
  - reflexivity.
  - reflexivity.
  - intros H. cbn in H. intuition discriminate.
  - reflexivity.
Defined.
